(** * wavelink.ext.spotify: a shallow embedding and its properties

    The development follows [wavelink/ext/spotify/__init__.py]:

    - [Py]: the Python values the module handles (decoded JSON, exceptions,
      results of fallible calls);
    - [Re]: the fragment of [re] that [URLREGEX] is written in, as a
      backtracking matcher with capture groups, and a declarative reading
      of it;
    - the module itself: [decode_url], [SpotifyAsyncIterator],
      [SpotifyTrack], [SpotifyClient];
    - the properties.

    A string is a sequence of characters with code points below 256,
    integers are [Z], clock readings ([time.time()]) are rationals; the
    rounding of float additions is not modelled. The depth to which the
    interpreter lets [__anext__] re-enter itself is a number the world
    fixes, the same at every pull; the other calls of a pull are taken
    to find the stack they need. *)

From Stdlib Require Import List String Ascii ZArith QArith Bool Lia.
From Stdlib Require Import DecimalString.
Import ListNotations.

Local Open Scope string_scope.
Local Open Scope Z_scope.

(* ================================================================== *)
(** ** Python values *)

Module Py.

(** Exceptions raised by the module or by the Python operations it uses. *)
Inductive exn : Type :=
| SpotifyRequestError (status : Z) (reason : option string)
| StopAsyncIteration
| KeyError (key : string)
| TypeError
| IndexError
| AttributeError
| RuntimeError
| RecursionError
| NoTracksError
| BadArgument.

(** The result of a call: a value, a raised exception, a loop that has not
    finished within the steps it was given, or a payload whose leaves do
    not have the types the API documents (the model stores leaves typed:
    [str] as [string], [int] as [Z]). *)
Inductive outcome (A : Type) : Type :=
| Ret (a : A)
| Raise (e : exn)
| OutOfFuel
| IllTyped.

Arguments Ret {A} a.
Arguments Raise {A} e.
Arguments OutOfFuel {A}.
Arguments IllTyped {A}.

Definition obind {A B} (o : outcome A) (k : A -> outcome B) : outcome B :=
  match o with
  | Ret a => k a
  | Raise e => Raise e
  | OutOfFuel => OutOfFuel
  | IllTyped => IllTyped
  end.

(** A list comprehension [[f x for x in l]] with a fallible body. *)
Fixpoint omap {A B} (f : A -> outcome B) (l : list A) : outcome (list B) :=
  match l with
  | [] => Ret []
  | x :: l' => obind (f x) (fun y => obind (omap f l') (fun ys => Ret (y :: ys)))
  end.

(** Decoded JSON, as [resp.json()] returns it. A [dict] keeps its keys in
    insertion order and looks a key up at its first binding. *)
#[warnings="-register-all"]
Inductive json : Type :=
| JNull
| JBool (b : bool)
| JNum (n : Z)
| JStr (s : string)
| JArr (l : list json)
| JObj (kvs : list (string * json)).

Fixpoint assoc {A} (k : string) (kvs : list (string * A)) : option A :=
  match kvs with
  | [] => None
  | (k', v) :: kvs' => if String.eqb k k' then Some v else assoc k kvs'
  end.

Fixpoint assoc_set {A} (k : string) (v : A) (kvs : list (string * A))
  : list (string * A) :=
  match kvs with
  | [] => [(k, v)]
  | (k', v') :: kvs' =>
      if String.eqb k k' then (k, v) :: kvs' else (k', v') :: assoc_set k v kvs'
  end.

(** [d[k]] with a string key. *)
Definition getitem (d : json) (k : string) : outcome json :=
  match d with
  | JObj kvs => match assoc k kvs with
                | Some v => Ret v
                | None => Raise (KeyError k)
                end
  | _ => Raise TypeError
  end.

(** [d[k] = v] with a string key. *)
Definition setitem (d : json) (k : string) (v : json) : outcome json :=
  match d with
  | JObj kvs => Ret (JObj (assoc_set k v kvs))
  | _ => Raise TypeError
  end.

(** [d.get(k)]: [None] when the key is absent. *)
Definition dict_get (d : json) (k : string) : outcome json :=
  match d with
  | JObj kvs => match assoc k kvs with
                | Some v => Ret v
                | None => Ret JNull
                end
  | _ => Raise AttributeError
  end.

Fixpoint chars (s : string) : list json :=
  match s with
  | EmptyString => []
  | String c s' => JStr (String c EmptyString) :: chars s'
  end.

(** [for x in v]: the elements of a list, the keys of a dict, the
    characters of a string. *)
Definition iter (v : json) : outcome (list json) :=
  match v with
  | JArr l => Ret l
  | JObj kvs => Ret (map (fun kv => JStr (fst kv)) kvs)
  | JStr s => Ret (chars s)
  | _ => Raise TypeError
  end.

(** Truth value of a decoded JSON value. *)
Definition truthy (v : json) : bool :=
  match v with
  | JNull => false
  | JBool b => b
  | JNum n => negb (n =? 0)
  | JStr s => negb (String.eqb s "")
  | JArr l => match l with [] => false | _ => true end
  | JObj kvs => match kvs with [] => false | _ => true end
  end.

(** [v == s] for a string literal [s]. *)
Definition eq_str (v : json) (s : string) : bool :=
  match v with
  | JStr s' => String.eqb s' s
  | _ => false
  end.

(** Typed leaves. *)
Definition as_str (v : json) : outcome string :=
  match v with
  | JStr s => Ret s
  | _ => IllTyped
  end.

Definition as_int (v : json) : outcome Z :=
  match v with
  | JNum n => Ret n
  | _ => IllTyped
  end.

Definition as_opt_str (v : json) : outcome (option string) :=
  match v with
  | JNull => Ret None
  | JStr s => Ret (Some s)
  | _ => IllTyped
  end.

(** [str(x)] inside an f-string, for a value that is a string or [None]. *)
Definition format_opt (o : option string) : string :=
  match o with
  | Some s => s
  | None => "None"
  end.

(** [l[0]] on a list. *)
Definition first {A} (l : list A) : outcome A :=
  match l with
  | x :: _ => Ret x
  | [] => Raise IndexError
  end.

End Py.
Import Py.

Declare Scope outcome_scope.
Delimit Scope outcome_scope with outcome.
Notation "x <- c ;; k" := (obind c (fun x => k))
  (at level 100, c at next level, right associativity) : outcome_scope.

(* ================================================================== *)
(** ** Regular expressions *)

Module Re.

(** The constructs [URLREGEX] uses. A group is keyed by its name, or by its
    number when it has none. [Plus p] is [[...]+] over a character class. *)
Inductive regex : Type :=
| Eps
| Lit (c : ascii)
| Dot
| Cls (p : ascii -> bool)
| Plus (p : ascii -> bool)
| Seq (r1 r2 : regex)
| Alt (r1 r2 : regex)
| Opt (r : regex)
| Group (key : string) (r : regex).

Fixpoint lits (s : string) : regex :=
  match s with
  | EmptyString => Eps
  | String c s' => Seq (Lit c) (lits s')
  end.

Definition captures := list (string * string).

(** The text between two positions of the subject, the second a suffix of
    the first. *)
Definition consumed (s s' : string) : string :=
  substring 0 (String.length s - String.length s') s.

Definition newline : ascii := ascii_of_nat 10.

(** Backtracking matcher in continuation-passing style: alternatives are
    tried left to right, [?] and [+] are greedy, and the first way of
    matching that lets the continuation succeed is the match. *)
Fixpoint run {R : Type} (r : regex) (s : string) (cs : captures)
  (k : string -> captures -> option R) {struct r} : option R :=
  match r with
  | Eps => k s cs
  | Lit c =>
      match s with
      | String c' s' => if Ascii.eqb c c' then k s' cs else None
      | EmptyString => None
      end
  | Dot =>
      match s with
      | String c' s' => if Ascii.eqb c' newline then None else k s' cs
      | EmptyString => None
      end
  | Cls p =>
      match s with
      | String c' s' => if p c' then k s' cs else None
      | EmptyString => None
      end
  | Plus p =>
      (fix more (s : string) : option R :=
         match s with
         | String c' s' =>
             if p c' then
               match more s' with
               | Some x => Some x
               | None => k s' cs
               end
             else None
         | EmptyString => None
         end) s
  | Seq r1 r2 => run r1 s cs (fun s' cs' => run r2 s' cs' k)
  | Alt r1 r2 =>
      match run r1 s cs k with
      | Some x => Some x
      | None => run r2 s cs k
      end
  | Opt r1 =>
      match run r1 s cs k with
      | Some x => Some x
      | None => k s cs
      end
  | Group key r1 =>
      run r1 s cs (fun s' cs' => k s' (assoc_set key (consumed s s') cs'))
  end.

(** [pattern.match(s)]: the pattern must match a prefix of [s]. *)
Definition re_match (r : regex) (s : string) : option captures :=
  run r s [] (fun _ cs => Some cs).

(** [m[key]]: [None] for a group that took no part in the match. *)
Definition group (m : captures) (key : string) : option string :=
  assoc key m.

(** Declarative reading: [Matches r w cs cs'] when [r] can match exactly
    the text [w], taking the captures from [cs] to [cs']. *)
Fixpoint all_in (p : ascii -> bool) (w : string) : bool :=
  match w with
  | EmptyString => true
  | String c w' => p c && all_in p w'
  end.

Inductive Matches : regex -> string -> captures -> captures -> Prop :=
| MEps cs : Matches Eps "" cs cs
| MLit c cs : Matches (Lit c) (String c "") cs cs
| MDot c cs : c <> newline -> Matches Dot (String c "") cs cs
| MCls p c cs : p c = true -> Matches (Cls p) (String c "") cs cs
| MPlus p w cs : w <> "" -> all_in p w = true -> Matches (Plus p) w cs cs
| MSeq r1 r2 w1 w2 cs cs1 cs2 :
    Matches r1 w1 cs cs1 -> Matches r2 w2 cs1 cs2 ->
    Matches (Seq r1 r2) (w1 ++ w2) cs cs2
| MAltL r1 r2 w cs cs' : Matches r1 w cs cs' -> Matches (Alt r1 r2) w cs cs'
| MAltR r1 r2 w cs cs' : Matches r2 w cs cs' -> Matches (Alt r1 r2) w cs cs'
| MOptSome r w cs cs' : Matches r w cs cs' -> Matches (Opt r) w cs cs'
| MOptNone r cs : Matches (Opt r) "" cs cs
| MGroup key r w cs cs' :
    Matches r w cs cs' -> Matches (Group key r) w cs (assoc_set key w cs').

End Re.
Import Re.

(* ================================================================== *)
(** ** Module constants *)

Definition GRANTURL : string :=
  "https://accounts.spotify.com/api/token?grant_type=client_credentials".

Definition is_lower (c : ascii) : bool :=
  let n := nat_of_ascii c in (97 <=? n)%nat && (n <=? 122)%nat.
Definition is_upper (c : ascii) : bool :=
  let n := nat_of_ascii c in (65 <=? n)%nat && (n <=? 90)%nat.
Definition is_digit (c : ascii) : bool :=
  let n := nat_of_ascii c in (48 <=? n)%nat && (n <=? 57)%nat.

(** [[a-zA-Z0-9]] *)
Definition alnum (c : ascii) : bool := is_lower c || is_upper c || is_digit c.

(** [[/:]] *)
Definition slash_or_colon (c : ascii) : bool :=
  Ascii.eqb c "/" || Ascii.eqb c ":".

(** [(https?://open.)?(spotify)(.com/|:)(?P<type>album|playlist|track|artist)
     ([/:])(?P<id>[a-zA-Z0-9]+)(\?si=[a-zA-Z0-9]+)?(&dl_branch=[0-9]+)?] *)
Definition URLREGEX : regex :=
  Seq (Opt (Group "1" (Seq (lits "http") (Seq (Opt (Lit "s"))
                        (Seq (lits "://open") Dot)))))
 (Seq (Group "2" (lits "spotify"))
 (Seq (Group "3" (Alt (Seq Dot (lits "com/")) (Lit ":")))
 (Seq (Group "type" (Alt (lits "album") (Alt (lits "playlist")
                     (Alt (lits "track") (lits "artist")))))
 (Seq (Group "5" (Cls slash_or_colon))
 (Seq (Group "id" (Plus alnum))
 (Seq (Opt (Group "7" (Seq (lits "?si=") (Plus alnum))))
      (Opt (Group "8" (Seq (lits "&dl_branch=") (Plus is_digit))))))))))
.

(** [BASEURL.format(entity=..., identifier=...)] *)
Definition BASEURL (entity identifier : string) : string :=
  "https://api.spotify.com/v1/" ++ entity ++ "s/" ++ identifier.

(** [RECURL.format(tracks=...)] *)
Definition RECURL (tracks : string) : string :=
  "https://api.spotify.com/v1/recommendations?seed_tracks=" ++ tracks.

(* ================================================================== *)
(** ** SpotifySearchType and decode_url *)

Module SpotifySearchType.

Inductive t : Type := track | album | playlist | unusable.

Definition eqb (a b : t) : bool :=
  match a, b with
  | track, track | album, album | playlist, playlist
  | unusable, unusable => true
  | _, _ => false
  end.

(** [type.name] *)
Definition name (x : t) : string :=
  match x with
  | track => "track"
  | album => "album"
  | playlist => "playlist"
  | unusable => "unusable"
  end.

(** [SpotifySearchType[key]]: lookup of a member by name ([KeyError] when
    there is none). *)
Definition member (key : option string) : outcome t :=
  match key with
  | Some k =>
      if String.eqb k "track" then Ret track
      else if String.eqb k "album" then Ret album
      else if String.eqb k "playlist" then Ret playlist
      else if String.eqb k "unusable" then Ret unusable
      else Raise (KeyError k)
  | None => Raise (KeyError "None")
  end.

End SpotifySearchType.

(** The dict [{'type': ..., 'id': ...}] that [decode_url] returns. *)
Record Identifier : Type := mkIdentifier {
  id_type : SpotifySearchType.t;
  id_id : option string
}.

Definition decode_url (url : string) : option Identifier :=
  match re_match URLREGEX url with
  | Some m =>
      let type_ :=
        match SpotifySearchType.member (group m "type") with
        | Raise (KeyError _) => SpotifySearchType.unusable
        | Ret t => t
        | _ => SpotifySearchType.unusable
        end in
      Some (mkIdentifier type_ (group m "id"))
  | None => None
  end.

(* ================================================================== *)
(** ** SpotifyTrack: the data *)

Module SpotifyTrack.

Record t : Type := mk {
  raw : json;
  album : string;
  images : list string;
  artists : list string;
  name : string;
  title : string;
  uri : string;
  id : string;
  length : Z;
  duration : Z;
  isrc : option string
}.

Local Open Scope outcome_scope.

(** [SpotifyTrack.__init__] *)
Definition __init__ (data : json) : outcome t :=
  album_ <- getitem data "album" ;;
  album_name <- (v <- getitem album_ "name" ;; as_str v) ;;
  images_ <- (l <- getitem album_ "images" ;; l' <- iter l ;;
              omap (fun i => v <- getitem i "url" ;; as_str v) l') ;;
  artists_ <- getitem data "artists" ;;
  artist_names <- (l' <- iter artists_ ;;
                   omap (fun a => v <- getitem a "name" ;; as_str v) l') ;;
  name_ <- (v <- getitem data "name" ;; as_str v) ;;
  uri_ <- (v <- getitem data "uri" ;; as_str v) ;;
  id_ <- (v <- getitem data "id" ;; as_str v) ;;
  length_ <- (v <- getitem data "duration_ms" ;; as_int v) ;;
  isrc_ <- (e <- getitem data "external_ids" ;; v <- dict_get e "isrc" ;;
            as_opt_str v) ;;
  Ret (mk data album_name images_ artist_names name_ name_ uri_ id_
          length_ length_ isrc_).

(** [SpotifyTrack.__eq__] *)
Definition __eq__ (self other : t) : bool := String.eqb (id self) (id other).

(** [x in l], which compares with [__eq__]. *)
Definition contains (x : t) (l : list t) : bool := existsb (__eq__ x) l.

End SpotifyTrack.

(* ================================================================== *)
(** ** The world outside and the objects inside *)

Inductive Method : Type := POST | GET.

Record Request : Type := mkRequest {
  rq_method : Method;
  rq_url : string;
  rq_headers : list (string * string)
}.

(** A response: [resp.status], [resp.reason] and the value [resp.json()]
    decodes from the body (every response is taken to carry JSON). *)
Record Response : Type := mkResponse {
  status : Z;
  reason : option string;
  body : json
}.

(** What the module cannot decide: the reading of the clock at each call
    of [time.time()], the response to each HTTP request (which may depend
    on the requests made before), [base64.b64encode], and how many times
    a call of [__anext__] may re-enter itself before the interpreter
    raises [RecursionError] (its recursion limit less the frames in use). *)
Record World : Type := mkWorld {
  clock : nat -> Q;
  server : list Request -> Request -> Response;
  b64encode : string -> string;
  recursion_room : nat
}.

Record SpotifyClient : Type := mkClient {
  _client_id : string;
  _client_secret : string;
  _bearer_token : option string;
  _expiry : Q
}.

(** [SpotifyClient.__init__] *)
Definition SpotifyClient_init (client_id client_secret : string) : SpotifyClient :=
  mkClient client_id client_secret None 0%Q.

(** Python objects that flow out of [_search] and through the iterator's
    queue. *)
Inductive pyobj : Type :=
| ONone
| OTrack (t : SpotifyTrack.t)
| OTracks (l : list SpotifyTrack.t)
| OPayloads (l : list json)
| OPayload (j : json).

Record SpotifyAsyncIterator : Type := mkIterator {
  _query : string;
  _limit : option Z;
  _type : SpotifySearchType.t;
  _first : bool;
  _count : Z;
  _queue : list pyobj
}.

(** Modelled from the spec: the playback session of the host library (the
    [Player] class is not part of this module). It exposes the autoplay
    flag, the seed list, and the continuation queue with its consumption
    history; the queue supports membership and [put_wait], which appends. *)
Record Player : Type := mkPlayer {
  autoplay : bool;
  _track_seeds : list string;
  auto_queue : list SpotifyTrack.t;
  history : list SpotifyTrack.t
}.

(** The mutable state: how often the clock was read, the HTTP requests
    issued so far (oldest first), the client bound to the node
    ([node._spotify], possibly [None]), the player and the iterator. *)
Record Heap : Type := mkHeap {
  ticks : nat;
  log : list Request;
  spotify : option SpotifyClient;
  player : Player;
  stream : SpotifyAsyncIterator
}.

(** State and exceptions. *)
Definition M (A : Type) : Type := Heap -> outcome A * Heap.

Definition ret {A} (a : A) : M A := fun h => (Ret a, h).

Definition bind {A B} (m : M A) (k : A -> M B) : M B :=
  fun h =>
    match m h with
    | (Ret a, h') => k a h'
    | (Raise e, h') => (Raise e, h')
    | (OutOfFuel, h') => (OutOfFuel, h')
    | (IllTyped, h') => (IllTyped, h')
    end.

Definition raise {A} (e : exn) : M A := fun h => (Raise e, h).
Definition out_of_fuel {A} : M A := fun h => (OutOfFuel, h).
Definition lift {A} (o : outcome A) : M A := fun h => (o, h).

Declare Scope M_scope.
Delimit Scope M_scope with M.
Notation "x <- c ;; k" := (bind c (fun x => k))
  (at level 100, c at next level, right associativity) : M_scope.
Notation "c ;;; k" := (bind c (fun _ => k))
  (at level 100, right associativity) : M_scope.

Definition set_ticks (n : nat) (h : Heap) : Heap :=
  mkHeap n (log h) (spotify h) (player h) (stream h).
Definition set_log (l : list Request) (h : Heap) : Heap :=
  mkHeap (ticks h) l (spotify h) (player h) (stream h).
Definition set_spotify (c : option SpotifyClient) (h : Heap) : Heap :=
  mkHeap (ticks h) (log h) c (player h) (stream h).
Definition set_player (p : Player) (h : Heap) : Heap :=
  mkHeap (ticks h) (log h) (spotify h) p (stream h).
Definition set_stream (i : SpotifyAsyncIterator) (h : Heap) : Heap :=
  mkHeap (ticks h) (log h) (spotify h) (player h) i.

(* ================================================================== *)
(** ** The module's operations *)

Section Operations.

Variable W : World.

Local Open Scope M_scope.

(** [time.time()] *)
Definition time_time : M Q :=
  fun h => (Ret (clock W (ticks h)), set_ticks (S (ticks h)) h).

(** [session.post(...)] and [session.get(...)]: the request is issued and
    the response received. *)
Definition http (rq : Request) : M Response :=
  fun h => (Ret (server W (log h) rq), set_log (log h ++ [rq]) h).

(** [self] inside a method of the client reached through [node._spotify]. *)
Definition get_self : M SpotifyClient :=
  fun h => match spotify h with
           | Some c => (Ret c, h)
           | None => (Raise AttributeError, h)
           end.

Definition get_player : M Player := fun h => (Ret (player h), h).
Definition put_player (p : Player) : M unit := fun h => (Ret tt, set_player p h).
Definition get_stream : M SpotifyAsyncIterator := fun h => (Ret (stream h), h).
Definition put_stream (i : SpotifyAsyncIterator) : M unit :=
  fun h => (Ret tt, set_stream i h).

(** *** SpotifyClient *)

Definition grant_headers (self : SpotifyClient) : list (string * string) :=
  let authbytes := _client_id self ++ ":" ++ _client_secret self in
  [("Authorization", "Basic " ++ b64encode W authbytes);
   ("Content-Type", "application/x-www-form-urlencoded")].

Definition bearer_headers (self : SpotifyClient) : list (string * string) :=
  [("Authorization", "Bearer " ++ format_opt (_bearer_token self))].

Definition set_bearer_token (tok : string) : M unit :=
  self <- get_self ;;
  fun h => (Ret tt, set_spotify (Some (mkClient (_client_id self)
              (_client_secret self) (Some tok) (_expiry self))) h).

Definition set_expiry (e : Q) : M unit :=
  self <- get_self ;;
  fun h => (Ret tt, set_spotify (Some (mkClient (_client_id self)
              (_client_secret self) (_bearer_token self) e)) h).

Definition _get_bearer_token : M unit :=
  self <- get_self ;;
  resp <- http (mkRequest POST GRANTURL (grant_headers self)) ;;
  if negb (status resp =? 200) then
    raise (SpotifyRequestError (status resp) (reason resp))
  else
    let data := body resp in
    tok <- lift (v <- getitem data "access_token" ;; as_str v)%outcome ;;
    set_bearer_token tok ;;;
    now <- time_time ;;
    n <- lift (v <- getitem data "expires_in" ;; as_int v)%outcome ;;
    set_expiry (now + inject_Z (n - 10))%Q.

(** [not self._bearer_token] *)
Definition no_token (self : SpotifyClient) : bool :=
  match _bearer_token self with
  | None => true
  | Some tok => String.eqb tok ""
  end.

(** The URL [_search] asks for. *)
Definition search_url (query : string) (type : SpotifySearchType.t) : string :=
  match re_match URLREGEX query with
  | Some regex_result =>
      BASEURL (format_opt (group regex_result "type"))
              (format_opt (group regex_result "id"))
  | None => BASEURL (SpotifySearchType.name type) query
  end.

Definition album_keys : list string :=
  ["album_type"; "artists"; "available_markets"; "external_urls"; "href";
   "id"; "images"; "name"; "release_date"; "release_date_precision";
   "total_tracks"; "type"; "uri"].

(** [[t['track'] for t in v]] *)
Definition track_of_each (v : json) : outcome (list json) :=
  (l <- iter v ;; omap (fun t => getitem t "track") l)%outcome.

(** The [while True] loop of the playlist branch; [fuel] bounds the number
    of continuation pages fetched. *)
Fixpoint next_pages (fuel : nat) (url : json) (items : list json)
  : M (list json) :=
  match fuel with
  | O => out_of_fuel
  | S fuel' =>
      self <- get_self ;;
      u <- lift (as_str url) ;;
      resp <- http (mkRequest GET u (bearer_headers self)) ;;
      let data := body resp in
      more <- lift (v <- getitem data "items" ;; track_of_each v)%outcome ;;
      let items := (items ++ more)%list in
      next <- lift (getitem data "next") ;;
      if negb (truthy next) then ret items
      else next_pages fuel' next items
  end.

Definition _search (fuel : nat) (query : string) (type : SpotifySearchType.t)
  (iterator : bool) : M pyobj :=
  self <- get_self ;;
  stale <- (if no_token self then ret true
            else now <- time_time ;; ret (Qle_bool (_expiry self) now)) ;;
  (if stale : bool then _get_bearer_token else ret tt) ;;;
  let url := search_url query type in
  self <- get_self ;;
  resp <- http (mkRequest GET url (bearer_headers self)) ;;
  if negb (status resp =? 200) then
    raise (SpotifyRequestError (status resp) (reason resp))
  else
    let data := body resp in
    ty <- lift (getitem data "type") ;;
    if eq_str ty "track" then
      t <- lift (SpotifyTrack.__init__ data) ;;
      ret (OTrack t)
    else if eq_str ty "album" then
      album_data <- lift (omap (fun k => v <- getitem data k ;; Ret (k, v))
                               album_keys)%outcome ;;
      items <- lift (ts <- getitem data "tracks" ;; v <- getitem ts "items" ;;
                     iter v)%outcome ;;
      if iterator then
        tracks <- lift (omap (fun track =>
                          setitem track "album" (JObj album_data)) items) ;;
        ret (OPayloads tracks)
      else
        tracks <- lift (omap (fun track =>
                          track' <- setitem track "album" (JObj album_data) ;;
                          SpotifyTrack.__init__ track') items)%outcome ;;
        ret (OTracks tracks)
    else if eq_str ty "playlist" then
      if iterator then
        ts <- lift (getitem data "tracks") ;;
        next <- lift (getitem ts "next") ;;
        if negb (truthy next) then
          items <- lift (v <- getitem ts "items" ;; track_of_each v)%outcome ;;
          ret (OPayloads items)
        else
          items <- lift (v <- getitem ts "items" ;; track_of_each v)%outcome ;;
          items <- next_pages fuel next items ;;
          ret (OPayloads items)
      else
        tracks <- lift (ts <- getitem data "tracks" ;; v <- getitem ts "items" ;;
                        iter v)%outcome ;;
        tracks <- lift (omap SpotifyTrack.__init__ tracks) ;;
        ret (OTracks tracks)
    else ret ONone.

(** *** SpotifyAsyncIterator *)

(** [SpotifyAsyncIterator.__init__] *)
Definition SpotifyAsyncIterator_init (query : string) (limit : option Z)
  (type : SpotifySearchType.t) : SpotifyAsyncIterator :=
  mkIterator query limit type true 0 [].

(** [for track in tracks] over what [_search] returned. *)
Definition elements (tracks : pyobj) : outcome (list pyobj) :=
  match tracks with
  | OTracks l => Ret (map OTrack l)
  | OPayloads l => Ret (map OPayload l)
  | OPayload j => (l <- iter j ;; Ret (map OPayload l))%outcome
  | OTrack _ | ONone => Raise TypeError
  end.

Definition fill_queue (fuel : nat) : M unit :=
  self <- get_stream ;;
  tracks <- _search fuel (_query self) (_type self) true ;;
  l <- lift (elements tracks) ;;
  self <- get_stream ;;
  put_stream (mkIterator (_query self) (_limit self) (_type self)
                (_first self) (_count self) (_queue self ++ l)).

(** [track is None] *)
Definition is_none (track : pyobj) : bool :=
  match track with
  | ONone | OPayload JNull => true
  | _ => false
  end.

(** [SpotifyTrack(track)] *)
Definition construct (track : pyobj) : outcome SpotifyTrack.t :=
  match track with
  | OPayload j => SpotifyTrack.__init__ j
  | _ => Raise TypeError
  end.

(** [self._limit is not None and self._count == self._limit] *)
Definition limit_reached (self : SpotifyAsyncIterator) : bool :=
  match _limit self with
  | Some l => _count self =? l
  | None => false
  end.

Definition with_queue (self : SpotifyAsyncIterator) (q : list pyobj)
  : SpotifyAsyncIterator :=
  mkIterator (_query self) (_limit self) (_type self) (_first self)
             (_count self) q.

(** [__anext__] from the limit test on, with the queue made explicit. The
    call of [__anext__] on a [None] item re-enters here: [_first] is
    already false. Each re-entry is one call deeper; [depth] is the
    number of re-entries the interpreter still allows, and the re-entry
    after the last of them raises [RecursionError], the [None] item
    having left the queue. *)
Fixpoint take (depth : nat) (self : SpotifyAsyncIterator) (queue : list pyobj)
  {struct queue} : outcome SpotifyTrack.t * SpotifyAsyncIterator :=
  if limit_reached self then (Raise StopAsyncIteration, with_queue self queue)
  else
    match queue with
    | [] => (Raise StopAsyncIteration, with_queue self [])
    | track :: rest =>
        if is_none track then
          match depth with
          | O => (Raise RecursionError, with_queue self rest)
          | S depth' => take depth' self rest
          end
        else
          match construct track with
          | Ret t =>
              (Ret t, mkIterator (_query self) (_limit self) (_type self)
                        (_first self) (_count self + 1) rest)
          | r => (r, with_queue self rest)
          end
    end.

Definition __anext__ (fuel : nat) : M SpotifyTrack.t :=
  self <- get_stream ;;
  (if _first self then
     fill_queue fuel ;;;
     self <- get_stream ;;
     put_stream (mkIterator (_query self) (_limit self) (_type self) false
                   (_count self) (_queue self))
   else ret tt) ;;;
  self <- get_stream ;;
  fun h => let (r, self') := take (recursion_room W) self (_queue self) in
           (r, set_stream self' h).

(** [async for track in iterator]: the tracks yielded until the iterator
    raises [StopAsyncIteration]; [pulls] bounds the number of pulls. *)
Fixpoint async_for (pulls fuel : nat) : M (list SpotifyTrack.t) :=
  match pulls with
  | O => out_of_fuel
  | S pulls' =>
      fun h =>
        match __anext__ fuel h with
        | (Ret t, h') =>
            (ts <- async_for pulls' fuel ;; ret (t :: ts)) h'
        | (Raise StopAsyncIteration, h') => (Ret [], h')
        | (Raise e, h') => (Raise e, h')
        | (OutOfFuel, h') => (OutOfFuel, h')
        | (IllTyped, h') => (IllTyped, h')
        end
  end.

(** *** SpotifyTrack: the methods *)

(** [tracks[0]] *)
Definition subscript0 (tracks : pyobj) : outcome pyobj :=
  match tracks with
  | OTracks l => (t <- first l ;; Ret (OTrack t))%outcome
  | OPayloads l => (j <- first l ;; Ret (OPayload j))%outcome
  | OPayload (JArr l) => (j <- first l ;; Ret (OPayload j))%outcome
  | OPayload (JStr s) => (j <- first (chars s) ;; Ret (OPayload j))%outcome
  | OPayload (JObj _) => Raise (KeyError "0")
  | OPayload _ | OTrack _ | ONone => Raise TypeError
  end.

(** [not results] *)
Definition falsy (o : pyobj) : bool :=
  match o with
  | ONone => true
  | OTrack _ => false
  | OTracks l => match l with [] => true | _ => false end
  | OPayloads l => match l with [] => true | _ => false end
  | OPayload j => negb (truthy j)
  end.

(** [SpotifyTrack.search], on the node of the heap. *)
Definition SpotifyTrack_search (fuel : nat) (query : string)
  (type : SpotifySearchType.t) (return_first : bool) : M pyobj :=
  if SpotifySearchType.eqb type SpotifySearchType.track then
    tracks <- _search fuel query type false ;;
    if return_first then lift (subscript0 tracks) else ret tracks
  else _search fuel query type false.


(** [SpotifyTrack.convert] *)
Definition SpotifyTrack_convert (fuel : nat) (argument : string) : M pyobj :=
  results <- SpotifyTrack_search fuel argument SpotifySearchType.track false ;;
  if falsy results then raise BadArgument
  else lift (subscript0 results).

Definition dquote : string := String (ascii_of_nat 34) EmptyString.

(** The seed rotation of [fulfill]. *)
Definition rotate_seeds (seeds : list string) (id : string) : list string :=
  let seeds := if (List.length seeds =? 5)%nat then tl seeds else seeds in
  (seeds ++ [id])%list.

(** The loop of [fulfill] over the recommended tracks. The membership test
    is evaluated and both its branches do nothing. *)
Fixpoint enqueue_recos (recos : list SpotifyTrack.t) : M unit :=
  match recos with
  | [] => ret tt
  | reco :: recos' =>
      p <- get_player ;;
      (if SpotifyTrack.contains reco (auto_queue p)
          || SpotifyTrack.contains reco (history p)
       then ret tt else ret tt) ;;;
      p <- get_player ;;
      put_player (mkPlayer (autoplay p) (_track_seeds p)
                    (auto_queue p ++ [reco]) (history p)) ;;;
      enqueue_recos recos'
  end.

(** [SpotifyTrack.fulfill]. [cls_search] is [cls.search] of the playable
    class the caller hands in; it belongs to the host library and does not
    touch the state modelled here. The guard on a node without client
    builds the message of its [RuntimeError] with [{node:!r}], that is
    with the format specification [!r], which [object.__format__]
    refuses (the node is an object of the host library): the statement
    raises [TypeError] before there is a [RuntimeError] to raise. *)
Definition SpotifyTrack_fulfill {P : Type} (self : SpotifyTrack.t)
  (cls_search : string -> outcome (list P)) (populate : bool) : M P :=
  tracks <- lift (match cls_search (dquote ++ format_opt (SpotifyTrack.isrc self)
                                      ++ dquote) with
                  | Raise NoTracksError =>
                      (a <- first (SpotifyTrack.artists self) ;;
                       cls_search (SpotifyTrack.name self ++ " - " ++ a))%outcome
                  | r => r
                  end) ;;
  p <- get_player ;;
  if negb (autoplay p) || negb populate then lift (first tracks)
  else
    sc <- (fun h => (Ret (spotify h), h)) ;;
    match sc with
    | None => raise TypeError
    | Some sc =>
        p <- get_player ;;
        put_player (mkPlayer (autoplay p)
                      (rotate_seeds (_track_seeds p) (SpotifyTrack.id self))
                      (auto_queue p) (history p)) ;;;
        p <- get_player ;;
        let url := RECURL (String.concat "," (_track_seeds p)) in
        resp <- http (mkRequest GET url (bearer_headers sc)) ;;
        if negb (status resp =? 200) then
          raise (SpotifyRequestError (status resp) (reason resp))
        else
          let data := body resp in
          recos <- lift (v <- getitem data "tracks" ;; l <- iter v ;;
                         omap SpotifyTrack.__init__ l)%outcome ;;
          enqueue_recos recos ;;;
          lift (first tracks)
    end.

End Operations.

(* ================================================================== *)
(** ** Notions used in the statements *)

(** The two stages of [_search], named. *)
Section Stages.

Variable W : World.
Local Open Scope M_scope.

(** The token stage: the first statement of [_search]. *)
Definition ensure_token : M unit :=
  self <- get_self ;;
  stale <- (if no_token self then ret true
            else now <- time_time W ;; ret (Qle_bool (_expiry self) now)) ;;
  if stale : bool then _get_bearer_token W else ret tt.

(** What [_search] does with the payload of a 200 response. *)
Definition normalize (fuel : nat) (iterator : bool) (data : json) : M pyobj :=
  ty <- lift (getitem data "type") ;;
  if eq_str ty "track" then
    t <- lift (SpotifyTrack.__init__ data) ;;
    ret (OTrack t)
  else if eq_str ty "album" then
    album_data <- lift (omap (fun k => v <- getitem data k ;; Ret (k, v))
                             album_keys)%outcome ;;
    items <- lift (ts <- getitem data "tracks" ;; v <- getitem ts "items" ;;
                   iter v)%outcome ;;
    if iterator then
      tracks <- lift (omap (fun track =>
                        setitem track "album" (JObj album_data)) items) ;;
      ret (OPayloads tracks)
    else
      tracks <- lift (omap (fun track =>
                        track' <- setitem track "album" (JObj album_data) ;;
                        SpotifyTrack.__init__ track') items)%outcome ;;
      ret (OTracks tracks)
  else if eq_str ty "playlist" then
    if iterator then
      ts <- lift (getitem data "tracks") ;;
      next <- lift (getitem ts "next") ;;
      if negb (truthy next) then
        items <- lift (v <- getitem ts "items" ;; track_of_each v)%outcome ;;
        ret (OPayloads items)
      else
        items <- lift (v <- getitem ts "items" ;; track_of_each v)%outcome ;;
        items <- next_pages W fuel next items ;;
        ret (OPayloads items)
    else
      tracks <- lift (ts <- getitem data "tracks" ;; v <- getitem ts "items" ;;
                      iter v)%outcome ;;
      tracks <- lift (omap SpotifyTrack.__init__ tracks) ;;
      ret (OTracks tracks)
  else ret ONone.

(** The fetch stage: the catalog request and what follows it. *)
Definition fetch (fuel : nat) (query : string) (type : SpotifySearchType.t)
  (iterator : bool) : M pyobj :=
  self <- get_self ;;
  resp <- http W (mkRequest GET (search_url query type) (bearer_headers self)) ;;
  if negb (status resp =? 200) then
    raise (SpotifyRequestError (status resp) (reason resp))
  else normalize fuel iterator (body resp).

End Stages.

(** Whether [r] contains a group keyed [k]. *)
Fixpoint has_group (k : string) (r : regex) : bool :=
  match r with
  | Seq r1 r2 | Alt r1 r2 => has_group k r1 || has_group k r2
  | Opt r1 => has_group k r1
  | Group key r1 => String.eqb k key || has_group k r1
  | _ => false
  end.

(** The grant request of a client. *)
Definition grant_request (W : World) (c : SpotifyClient) : Request :=
  mkRequest POST GRANTURL (grant_headers W c).

Definition is_grant (rq : Request) : bool :=
  match rq_method rq with
  | POST => String.eqb (rq_url rq) GRANTURL
  | GET => false
  end.

(** A GET request that carries the bearer token of client [c]. *)
Definition bearer_get (c : SpotifyClient) (rq : Request) : Prop :=
  rq_method rq = GET /\ rq_headers rq = bearer_headers c.

(** [h'] comes from [h] by GET requests with the token of [c] and nothing
    else. *)
Definition fetches (c : SpotifyClient) (h h' : Heap) : Prop :=
  spotify h' = Some c /\ ticks h' = ticks h /\ player h' = player h /\
  stream h' = stream h /\
  exists rs, log h' = (log h ++ rs)%list /\ Forall (bearer_get c) rs.

Definition request_error {A} (o : outcome A) : bool :=
  match o with
  | Raise (SpotifyRequestError _ _) => true
  | _ => false
  end.

(** A computation that, run with client [c], only fetches and does not
    raise a request error. *)
Definition quiet (c : SpotifyClient) {A} (m : M A) : Prop :=
  forall h, spotify h = Some c ->
    fetches c h (snd (m h)) /\ request_error (fst (m h)) = false.

(** The grant response of the world to client [c] in heap [h] is a 200
    that declares token [tok] with a lifetime of [N] seconds. *)
Definition grant_declares (W : World) (h : Heap) (c : SpotifyClient)
  (tok : string) (N : Z) : Prop :=
  let resp := server W (log h) (grant_request W c) in
  status resp = 200 /\
  getitem (body resp) "access_token" = Ret (JStr tok) /\
  getitem (body resp) "expires_in" = Ret (JNum N).

(** The requests issued between two heaps of one run. *)
Definition issued (h h' : Heap) : list Request :=
  skipn (List.length (log h)) (log h').

(** The first GET request among [rs]. *)
Definition first_get (rs : list Request) : option Request :=
  find (fun rq => match rq_method rq with GET => true | POST => false end) rs.

(** The first statement of [fulfill]: the search by ISRC, and by name and
    first artist when that one finds no tracks. *)
Definition resolve {P : Type} (self : SpotifyTrack.t)
  (cls_search : string -> outcome (list P)) : outcome (list P) :=
  match cls_search (dquote ++ format_opt (SpotifyTrack.isrc self) ++ dquote) with
  | Raise NoTracksError =>
      (a <- first (SpotifyTrack.artists self) ;;
       cls_search (SpotifyTrack.name self ++ " - " ++ a))%outcome
  | r => r
  end.

(** The tracks built from a recommendations payload. *)
Definition recos_of (data : json) : outcome (list SpotifyTrack.t) :=
  (v <- getitem data "tracks" ;; l <- iter v ;;
   omap SpotifyTrack.__init__ l)%outcome.

(** The recommendations request of [fulfill], for the seeds it is built
    from. *)
Definition recommendations_request (c : SpotifyClient) (seeds : list string)
  : Request :=
  mkRequest GET (RECURL (String.concat "," seeds)) (bearer_headers c).

Definition with_seeds (p : Player) (seeds : list string) : Player :=
  mkPlayer (autoplay p) seeds (auto_queue p) (history p).

Definition with_enqueued (p : Player) (recos : list SpotifyTrack.t) : Player :=
  mkPlayer (autoplay p) (_track_seeds p) (auto_queue p ++ recos) (history p).

(** Between [h] and [h'] exactly one request was issued, the
    recommendations request for the seeds of [h'], and the seeds of [h']
    are those of [h], with or without their first, followed by the id of
    [self]. *)
Definition one_request_one_seed (self : SpotifyTrack.t) (h h' : Heap) : Prop :=
  (exists rq,
      issued h h' = [rq] /\ rq_method rq = GET /\
      rq_url rq = RECURL (String.concat "," (_track_seeds (player h')))) /\
  (exists kept,
      _track_seeds (player h') = (kept ++ [SpotifyTrack.id self])%list /\
      (kept = _track_seeds (player h) \/ kept = tl (_track_seeds (player h)))).

(** How many entries of [q] are equal to [x] in the sense of [__eq__]. *)
Definition occurrences (x : SpotifyTrack.t) (q : list SpotifyTrack.t) : nat :=
  List.length (filter (SpotifyTrack.__eq__ x) q).

Definition non_2xx (s : Z) : Prop := s < 200 \/ 300 <= s.

(** [r] is the request error that carries the status and the reason of
    [resp]. *)
Definition raises_for {A} (r : outcome A) (resp : Response) : Prop :=
  r = Raise (SpotifyRequestError (status resp) (reason resp)).

Definition is_null (j : json) : bool :=
  match j with
  | JNull => true
  | _ => false
  end.

(** The tracks built from the buffered items that are not null. *)
Definition built (items : list json) : outcome (list SpotifyTrack.t) :=
  omap SpotifyTrack.__init__ (filter (fun j => negb (is_null j)) items).

(** The buffer after [n] tracks have been yielded from it. *)
Fixpoint leftover (n : nat) (items : list json) : list json :=
  match n with
  | O => items
  | S n' =>
      match items with
      | [] => []
      | j :: rest => if is_null j then leftover n rest else leftover n' rest
      end
  end.

(** What a stream with the given limit and count yields from the tracks
    [ts] in its buffer, and what it leaves of the buffered [items]. *)
Definition yielded (limit : option Z) (count : Z) (ts : list SpotifyTrack.t)
  : list SpotifyTrack.t :=
  match limit with
  | None => ts
  | Some L => firstn (Z.to_nat (L - count)) ts
  end.

Definition remaining (limit : option Z) (count : Z) (items : list json)
  : list json :=
  match limit with
  | None => []
  | Some L => leftover (Z.to_nat (L - count)) items
  end.

(** The world answers [rq] with [resp] whatever was requested before. *)
Definition serves (W : World) (rq : Request) (resp : Response) : Prop :=
  forall lg, server W lg rq = resp.

(** From the cursor [next] on, the world serves the continuation pages
    whose tracks are [pages], and no page after them. The status of a
    continuation response plays no part. *)
Fixpoint continuation (W : World) (c : SpotifyClient) (next : json)
  (pages : list (list json)) : Prop :=
  match pages with
  | [] => truthy next = false
  | page :: pages' =>
      truthy next = true /\
      exists u resp v next',
        next = JStr u /\
        serves W (mkRequest GET u (bearer_headers c)) resp /\
        getitem (body resp) "items" = Ret v /\
        track_of_each v = Ret page /\
        getitem (body resp) "next" = Ret next' /\
        continuation W c next' pages'
  end.

(** At [url] the world serves a playlist whose pages hold the tracks
    [pages]: the first in the 200 response to [url] itself, the others as
    continuation pages. *)
Definition playlist_served (W : World) (c : SpotifyClient) (url : string)
  (pages : list (list json)) : Prop :=
  match pages with
  | [] => False
  | page :: pages' =>
      exists resp ts v next,
        serves W (mkRequest GET url (bearer_headers c)) resp /\
        status resp = 200 /\
        getitem (body resp) "type" = Ret (JStr "playlist") /\
        getitem (body resp) "tracks" = Ret ts /\
        getitem ts "next" = Ret next /\
        getitem ts "items" = Ret v /\
        track_of_each v = Ret page /\
        continuation W c next pages'
  end.

(** The keys [SpotifyTrack.__init__] subscripts its payload with. *)
Definition required_keys : list string :=
  ["album"; "artists"; "name"; "uri"; "id"; "duration_ms"; "external_ids"].

(** Whether an outcome is an exception that [bad] singles out. *)
Definition raises (bad : exn -> bool) {A} (o : outcome A) : bool :=
  match o with
  | Raise e => bad e
  | _ => false
  end.

Definition is_stop (e : exn) : bool :=
  match e with
  | StopAsyncIteration => true
  | _ => false
  end.

(** The heap after [fulfill] has been called, with [populate] set, for
    each of the tracks [selfs] in turn (whether or not a call raised). *)
Fixpoint fulfill_each (W : World) {P : Type}
  (cls_search : string -> outcome (list P)) (selfs : list SpotifyTrack.t)
  (h : Heap) : Heap :=
  match selfs with
  | [] => h
  | self :: rest =>
      fulfill_each W cls_search rest
        (snd (SpotifyTrack_fulfill W self cls_search true h))
  end.

(** The first query of [fulfill]: the ISRC between double quotes. *)
Definition isrc_query (self : SpotifyTrack.t) : string :=
  dquote ++ format_opt (SpotifyTrack.isrc self) ++ dquote.

(** [URLREGEX] read as a head, up to the separator after the entity name,
    followed by a tail: the id and the two optional query parts. *)
Definition url_head (r : regex) : regex :=
  Seq (Opt (Group "1" (Seq (lits "http") (Seq (Opt (Lit "s"))
                        (Seq (lits "://open") Dot)))))
 (Seq (Group "2" (lits "spotify"))
 (Seq (Group "3" (Alt (Seq Dot (lits "com/")) (Lit ":")))
 (Seq (Group "type" (Alt (lits "album") (Alt (lits "playlist")
                     (Alt (lits "track") (lits "artist")))))
 (Seq (Group "5" (Cls slash_or_colon)) r)))).

Definition url_tail : regex :=
  Seq (Group "id" (Plus alnum))
 (Seq (Opt (Group "7" (Seq (lits "?si=") (Plus alnum))))
      (Opt (Group "8" (Seq (lits "&dl_branch=") (Plus is_digit))))).

(** A Spotify link or URI put together from its parts: what stands before
    [spotify], what stands after it, the entity name, the separator, the
    id, and whatever follows the id. *)
Definition link (scheme dot entity sep id rest : string) : string :=
  scheme ++ "spotify" ++ dot ++ entity ++ sep ++ id ++ rest.

(** [rest] does not go on with a character of the class [p]. *)
Definition stops (p : ascii -> bool) (rest : string) : Prop :=
  match rest with
  | EmptyString => True
  | String c _ => p c = false
  end.

(** No run of consecutive null items among [items] is longer than
    [room]. *)
Definition null_runs_within (room : nat) (items : list json) : Prop :=
  forall before run after : list json,
    items = (before ++ run ++ after)%list ->
    forallb is_null run = true -> (List.length run <= room)%nat.

(** The same, decided from left to right: the run at the head of [items]
    is no longer than [budget] and no other run is longer than [room]. *)
Fixpoint null_runs_fit (room budget : nat) (items : list json) : bool :=
  match items with
  | [] => true
  | j :: rest =>
      if is_null j then
        match budget with
        | O => false
        | S budget' => null_runs_fit room budget' rest
        end
      else null_runs_fit room room rest
  end.

(** A pull on a filled stream that may still re-enter [depth] times, and
    the iteration that begins with such a pull and goes on with [pulls]
    pulls of [__anext__]. *)
Definition pull_at (depth : nat) : M SpotifyTrack.t :=
  fun h => let (r, self') := take depth (stream h) (_queue (stream h)) in
           (r, set_stream self' h).

Definition drain (W : World) (fuel depth pulls : nat) : M (list SpotifyTrack.t) :=
  fun h =>
    match pull_at depth h with
    | (Ret t, h') => bind (async_for W pulls fuel) (fun ts => ret (t :: ts)) h'
    | (Raise StopAsyncIteration, h') => (Ret [], h')
    | (Raise e, h') => (Raise e, h')
    | (OutOfFuel, h') => (OutOfFuel, h')
    | (IllTyped, h') => (IllTyped, h')
    end.

(** [payload] is [item] with its [album] member set to the dict
    [album_data]: it reads as [item] does under every other key. *)
Definition with_album (album_data : list (string * json)) (item payload : json)
  : Prop :=
  getitem payload "album" = Ret (JObj album_data) /\
  forall k : string, k <> "album" -> getitem payload k = getitem item k.

(* ================================================================== *)
(** ** An example world *)

Definition ex_track_payload (id : string) : json :=
  JObj [("album", JObj [("name", JStr "Album");
                        ("images", JArr [JObj [("url", JStr "https://i.scdn.co/image/1")]])]);
        ("artists", JArr [JObj [("name", JStr "Artist")]]);
        ("name", JStr ("Song " ++ id));
        ("uri", JStr ("spotify:track:" ++ id));
        ("id", JStr id);
        ("duration_ms", JNum 210000);
        ("external_ids", JObj [("isrc", JStr "USRC17607839")]);
        ("type", JStr "track")].

Definition ex_id (n : nat) : string :=
  "t" ++ NilEmpty.string_of_uint (Nat.to_uint n).

(** A playlist item wraps its track. *)
Definition ex_item (n : nat) : json :=
  JObj [("added_at", JStr "2020-01-01T00:00:00Z");
        ("track", ex_track_payload (ex_id n))].

Definition ex_page (start len : nat) : json :=
  JArr (map ex_item (seq start len)).

Definition ex_track_url : string :=
  "https://api.spotify.com/v1/tracks/6BDLcvvtyJD2vnXRDi1IjQ".
Definition ex_playlist_url : string :=
  "https://api.spotify.com/v1/playlists/37i9dQZF1DXcBWIGoYBM5M".
Definition ex_page2_url : string := ex_playlist_url ++ "/tracks?offset=50&limit=50".
Definition ex_page3_url : string := ex_playlist_url ++ "/tracks?offset=100&limit=50".

Definition ex_ok (data : json) : Response := mkResponse 200 (Some "OK") data.

Definition ex_error (code : Z) (why : string) : Response :=
  mkResponse code (Some why)
    (JObj [("error", JObj [("status", JNum code); ("message", JStr why)])]).

Definition ex_grant_body : json :=
  JObj [("access_token", JStr "BQnew"); ("token_type", JStr "Bearer");
        ("expires_in", JNum 3600)].

(** A catalog with one track and one playlist of three pages (50, 50 and 7
    tracks), a token endpoint, and recommendations. *)
Definition ex_server (lg : list Request) (rq : Request) : Response :=
  match rq_method rq with
  | POST => ex_ok ex_grant_body
  | GET =>
      let u := rq_url rq in
      if String.eqb u ex_track_url then
        ex_ok (ex_track_payload "6BDLcvvtyJD2vnXRDi1IjQ")
      else if String.eqb u ex_playlist_url then
        ex_ok (JObj [("type", JStr "playlist");
                     ("tracks", JObj [("items", ex_page 0 50);
                                      ("next", JStr ex_page2_url)])])
      else if String.eqb u ex_page2_url then
        ex_ok (JObj [("items", ex_page 50 50); ("next", JStr ex_page3_url)])
      else if String.eqb u ex_page3_url then
        ex_ok (JObj [("items", ex_page 100 7); ("next", JNull)])
      else if prefix "https://api.spotify.com/v1/recommendations" u then
        ex_ok (JObj [("tracks", JArr [ex_track_payload "r1";
                                      ex_track_payload "r2"])])
      else ex_error 404 "Not Found"
  end.

Definition ex_clock (n : nat) : Q := inject_Z (1000 + Z.of_nat n).

Definition ex_world : World := mkWorld ex_clock ex_server (fun s => s) 1000.

(** The same world with a token endpoint that answers 201. *)
Definition ex_world_created : World :=
  mkWorld ex_clock
    (fun lg rq => match rq_method rq with
                  | POST => mkResponse 201 (Some "Created") ex_grant_body
                  | GET => ex_server lg rq
                  end)
    (fun s => s) 1000.

(** The same world with a second playlist page that answers 500. *)
Definition ex_world_flaky : World :=
  mkWorld ex_clock
    (fun lg rq => if String.eqb (rq_url rq) ex_page2_url
                  then ex_error 500 "Internal Server Error"
                  else ex_server lg rq)
    (fun s => s) 1000.

(** A client whose token is good until the clock reads 5000, and a client
    that has none yet. *)
Definition ex_client : SpotifyClient :=
  mkClient "client-id" "client-secret" (Some "BQold") (inject_Z 5000).
Definition ex_client_new : SpotifyClient :=
  SpotifyClient_init "client-id" "client-secret".

Definition ex_player : Player :=
  mkPlayer true ["s1"; "s2"; "s3"; "s4"; "s5"] [] [].

Definition ex_heap (c : option SpotifyClient) (limit : option Z) : Heap :=
  mkHeap 0 [] c ex_player
    (SpotifyAsyncIterator_init "37i9dQZF1DXcBWIGoYBM5M" limit
       SpotifySearchType.playlist).

(** A source track and a playable class whose search finds one result. *)
Definition ex_self : SpotifyTrack.t :=
  SpotifyTrack.mk (ex_track_payload "src") "Album" ["https://i.scdn.co/image/1"]
    ["Artist"] "Song src" "Song src" "spotify:track:src" "src" 210000 210000
    (Some "USRC17607839").

Definition ex_cls_search (query : string) : outcome (list string) :=
  Ret ["playable for " ++ query].

(** The track the example catalog builds for an id. *)
Definition ex_track (id : string) : SpotifyTrack.t :=
  match SpotifyTrack.__init__ (ex_track_payload id) with
  | Ret t => t
  | _ => ex_self
  end.

(** The tracks of the three pages of the example playlist. *)
Definition ex_pages : list (list json) :=
  [map (fun n => ex_track_payload (ex_id n)) (seq 0 50);
   map (fun n => ex_track_payload (ex_id n)) (seq 50 50);
   map (fun n => ex_track_payload (ex_id n)) (seq 100 7)].

Definition ex_tracks : list SpotifyTrack.t :=
  map (fun n => ex_track (ex_id n)) (seq 0 107).

Definition ex_playlist_query : string := "37i9dQZF1DXcBWIGoYBM5M".

Definition ex_playables : list string :=
  match resolve ex_self ex_cls_search with
  | Ret l => l
  | _ => []
  end.

(** A heap whose continuation queue and history already hold the tracks
    that the example world recommends. *)
Definition ex_heap_played : Heap :=
  mkHeap 0 [] (Some ex_client)
    (mkPlayer true ["s1"] [ex_track "r1"] [ex_track "r2"])
    (SpotifyAsyncIterator_init ex_playlist_query None SpotifySearchType.playlist).

Definition ex_track_link : string :=
  "https://open.spotify.com/track/6BDLcvvtyJD2vnXRDi1IjQ?si=abc123".

(** An album of three tracks, and a world that serves it. *)
Definition ex_album_item (n : nat) : json :=
  JObj [("artists", JArr [JObj [("name", JStr "Artist")]]);
        ("name", JStr ("Song " ++ ex_id n));
        ("uri", JStr ("spotify:track:" ++ ex_id n));
        ("id", JStr (ex_id n));
        ("duration_ms", JNum 180000);
        ("external_ids", JObj [])].

Definition ex_album_payload : json :=
  JObj [("album_type", JStr "album");
        ("artists", JArr [JObj [("name", JStr "Artist")]]);
        ("available_markets", JArr []);
        ("external_urls", JObj []);
        ("href", JStr "https://api.spotify.com/v1/albums/4aawyAB9vmqN3uQ7FjRGTy");
        ("id", JStr "4aawyAB9vmqN3uQ7FjRGTy");
        ("images", JArr [JObj [("url", JStr "https://i.scdn.co/image/2")]]);
        ("name", JStr "Greatest Hits");
        ("release_date", JStr "2001");
        ("release_date_precision", JStr "year");
        ("total_tracks", JNum 3);
        ("type", JStr "album");
        ("uri", JStr "spotify:album:4aawyAB9vmqN3uQ7FjRGTy");
        ("tracks", JObj [("items", JArr (map ex_album_item (seq 0 3)));
                         ("next", JStr "https://api.spotify.com/v1/albums/4aawyAB9vmqN3uQ7FjRGTy/tracks?offset=3")])].

Definition ex_album_url : string :=
  "https://api.spotify.com/v1/albums/4aawyAB9vmqN3uQ7FjRGTy".

Definition ex_album_link : string := "spotify:album:4aawyAB9vmqN3uQ7FjRGTy".

Definition ex_world_album : World :=
  mkWorld ex_clock
    (fun lg rq => if String.eqb (rq_url rq) ex_album_url
                  then ex_ok ex_album_payload
                  else ex_server lg rq)
    (fun s => s) 1000.

(** The tracks of the example album, as a search returns them. *)
Definition ex_album_tracks : list SpotifyTrack.t :=
  match fst (_search ex_world_album 5 ex_album_link SpotifySearchType.track
               false (ex_heap (Some ex_client) None)) with
  | Ret (OTracks l) => l
  | _ => []
  end.

(** A world that also serves an artist. *)
Definition ex_artist_link : string :=
  "https://open.spotify.com/artist/0OdUWJ0sBjDrqHygGUXeCF".

Definition ex_artist_url : string :=
  "https://api.spotify.com/v1/artists/0OdUWJ0sBjDrqHygGUXeCF".

Definition ex_world_artist : World :=
  mkWorld ex_clock
    (fun lg rq => if String.eqb (rq_url rq) ex_artist_url
                  then ex_ok (JObj [("type", JStr "artist");
                                    ("id", JStr "0OdUWJ0sBjDrqHygGUXeCF");
                                    ("name", JStr "Artist")])
                  else ex_server lg rq)
    (fun s => s) 1000.

(** A stream that has been filled: a null item, then two tracks; at most
    one track is to be yielded. *)
Definition ex_heap_filled : Heap :=
  mkHeap 0 [] (Some ex_client) ex_player
    (mkIterator ex_playlist_query (Some 1) SpotifySearchType.playlist false 0
       [OPayload JNull; OPayload (ex_track_payload "a");
        OPayload (ex_track_payload "b")]).

(** A stream over a link to a track. *)
Definition ex_heap_track_stream : Heap :=
  mkHeap 0 [] (Some ex_client) ex_player
    (SpotifyAsyncIterator_init ex_track_link None SpotifySearchType.playlist).

(** The same world with recommendations that answer 429. *)
Definition ex_world_limited : World :=
  mkWorld ex_clock
    (fun lg rq => if prefix "https://api.spotify.com/v1/recommendations" (rq_url rq)
                  then ex_error 429 "Too Many Requests"
                  else ex_server lg rq)
    (fun s => s) 1000.

(** The same world with a token endpoint that grants tokens for five
    seconds. *)
Definition ex_world_brief : World :=
  mkWorld ex_clock
    (fun lg rq => match rq_method rq with
                  | POST => ex_ok (JObj [("access_token", JStr "BQbrief");
                                         ("token_type", JStr "Bearer");
                                         ("expires_in", JNum 5)])
                  | GET => ex_server lg rq
                  end)
    (fun s => s) 1000.

(** A world whose every page names a next page. *)
Definition ex_endless_page : json :=
  JObj [("type", JStr "playlist");
        ("tracks", JObj [("items", ex_page 0 2); ("next", JStr ex_page2_url)]);
        ("items", ex_page 0 2);
        ("next", JStr ex_page2_url)].

Definition ex_world_endless : World :=
  mkWorld ex_clock
    (fun lg rq => match rq_method rq with
                  | POST => ex_ok ex_grant_body
                  | GET => ex_ok ex_endless_page
                  end)
    (fun s => s) 1000.

(** A playlist of one page with gaps: two tracks, with null items
    between and after them. *)
Definition ex_null_item : json :=
  JObj [("added_at", JStr "2020-01-01T00:00:00Z"); ("track", JNull)].

Definition ex_gaps_page : list json :=
  [ex_track_payload "t0"; JNull; JNull; ex_track_payload "t1"; JNull].

Definition ex_world_gaps : World :=
  mkWorld ex_clock
    (fun lg rq =>
       match rq_method rq with
       | POST => ex_ok ex_grant_body
       | GET =>
           ex_ok (JObj [("type", JStr "playlist");
                        ("tracks",
                         JObj [("items",
                                JArr [ex_item 0; ex_null_item; ex_null_item;
                                      ex_item 1; ex_null_item]);
                               ("next", JNull)])])
       end)
    (fun s => s) 1000.

(** A playlist of one page that begins with 1001 null items, followed by
    one track, under an interpreter that allows no more than a thousand
    re-entries (its recursion limit is 1000 by default). *)
Definition ex_long_gap_page : list json :=
  (repeat JNull 1001 ++ [ex_track_payload "t0"])%list.

Definition ex_world_long_gap : World :=
  mkWorld ex_clock
    (fun lg rq =>
       match rq_method rq with
       | POST => ex_ok ex_grant_body
       | GET =>
           ex_ok (JObj [("type", JStr "playlist");
                        ("tracks",
                         JObj [("items",
                                JArr (repeat ex_null_item 1001 ++ [ex_item 0])%list);
                               ("next", JNull)])])
       end)
    (fun s => s) 1000.

(* ================================================================== *)
(** ** The matcher against its declarative reading *)

Section MatcherSound.

Lemma substring_all_prefix (w s : string) :
  substring 0 (String.length w) (w ++ s) = w.
Proof.
  induction w as [|c w IH]; simpl.
  - destruct s; reflexivity.
  - now rewrite IH.
Qed.

Lemma string_length_app (w s : string) :
  String.length (w ++ s) = (String.length w + String.length s)%nat.
Proof. induction w; simpl; congruence. Qed.

Lemma consumed_app (w s : string) : consumed (w ++ s) s = w.
Proof.
  unfold consumed. rewrite string_length_app.
  replace (String.length w + String.length s - String.length s)%nat
    with (String.length w) by lia.
  apply substring_all_prefix.
Qed.

Lemma string_app_assoc (a b c : string) : ((a ++ b) ++ c = a ++ (b ++ c))%string.
Proof. induction a; simpl; congruence. Qed.

(** Whenever the matcher succeeds, the pattern matches a prefix of the
    subject in the declarative sense, and the continuation was run on the
    rest with the captures of that match. *)
Lemma run_sound (R : Type) (r : regex) :
  forall (s : string) (cs : captures) (k : string -> captures -> option R) (x : R),
    run r s cs k = Some x ->
    exists w s' cs',
      s = (w ++ s')%string /\ Matches r w cs cs' /\ k s' cs' = Some x.
Proof.
  induction r as [ | c | | p | p | r1 IH1 r2 IH2 | r1 IH1 r2 IH2 | r1 IH1
                 | key r1 IH1 ]; intros s cs k x H; simpl in H.
  - exists ""%string, s, cs. repeat split; auto. constructor.
  - destruct s as [|c' s']; [discriminate|].
    destruct (Ascii.eqb_spec c c') as [->|]; [|discriminate].
    exists (String c' ""), s', cs. repeat split; auto. constructor.
  - destruct s as [|c' s']; [discriminate|].
    destruct (Ascii.eqb_spec c' newline) as [|Hn]; [discriminate|].
    exists (String c' ""), s', cs. repeat split; auto. now constructor.
  - destruct s as [|c' s']; [discriminate|].
    destruct (p c') eqn:Hp; [|discriminate].
    exists (String c' ""), s', cs. repeat split; auto. now constructor.
  - revert H. induction s as [|c' s' IHs]; intros H; [discriminate|].
    destruct (p c') eqn:Hp; [|discriminate].
    match type of H with
    | match ?m with _ => _ end = _ => destruct m as [y|] eqn:Hm
    end.
    + injection H as ->.
      destruct (IHs eq_refl) as (w & s'' & cs' & -> & HM & Hk).
      inversion HM; subst.
      exists (String c' w), s'', cs'. repeat split; auto.
      constructor; [discriminate|]. simpl. now rewrite Hp.
    + exists (String c' ""), s', cs. repeat split; auto.
      constructor; [discriminate|]. simpl. now rewrite Hp.
  - apply IH1 in H. destruct H as (w1 & s1 & cs1 & -> & HM1 & H).
    apply IH2 in H. destruct H as (w2 & s2 & cs2 & -> & HM2 & H).
    exists (w1 ++ w2)%string, s2, cs2. repeat split; auto.
    + now rewrite string_app_assoc.
    + econstructor; eauto.
  - destruct (run r1 s cs k) as [y|] eqn:H1.
    + injection H as ->. apply IH1 in H1.
      destruct H1 as (w & s' & cs' & -> & HM & Hk).
      exists w, s', cs'. repeat split; auto. now apply MAltL.
    + apply IH2 in H. destruct H as (w & s' & cs' & -> & HM & Hk).
      exists w, s', cs'. repeat split; auto. now apply MAltR.
  - destruct (run r1 s cs k) as [y|] eqn:H1.
    + injection H as ->. apply IH1 in H1.
      destruct H1 as (w & s' & cs' & -> & HM & Hk).
      exists w, s', cs'. repeat split; auto. now apply MOptSome.
    + exists ""%string, s, cs. repeat split; auto. apply MOptNone.
  - apply IH1 in H. destruct H as (w & s' & cs' & -> & HM & Hk).
    rewrite consumed_app in Hk.
    exists w, s', (assoc_set key w cs'). repeat split; auto. now constructor.
Qed.

Lemma re_match_sound (r : regex) (s : string) (m : captures) :
  re_match r s = Some m ->
  exists w s', s = (w ++ s')%string /\ Matches r w [] m.
Proof.
  unfold re_match. intros H. apply run_sound in H.
  destruct H as (w & s' & cs' & -> & HM & Hk). injection Hk as ->.
  now exists w, s'.
Qed.

End MatcherSound.

Lemma Matches_lits (s w : string) (cs cs' : captures) :
  Matches (lits s) w cs cs' -> w = s /\ cs' = cs.
Proof.
  revert w cs cs'. induction s as [|c s IH]; simpl; intros w cs cs' H.
  - inversion H; auto.
  - inversion H as [ | | | | | r1 r2 w1 w2 cs0 cs1 cs2 H1 H2 | | | | | ]; subst.
    inversion H1; subst. apply IH in H2. destruct H2 as [-> ->]. auto.
Qed.

Lemma assoc_set_same {A} (k : string) (v : A) (l : list (string * A)) :
  assoc k (assoc_set k v l) = Some v.
Proof.
  induction l as [|[k' v'] l IH]; simpl.
  - now rewrite String.eqb_refl.
  - destruct (String.eqb k k') eqn:E; simpl.
    + now rewrite String.eqb_refl.
    + now rewrite E.
Qed.

Lemma assoc_set_other {A} (k k' : string) (v : A) (l : list (string * A)) :
  String.eqb k k' = false -> assoc k (assoc_set k' v l) = assoc k l.
Proof.
  intros Hk. induction l as [|[k0 v0] l IH]; simpl.
  - now rewrite Hk.
  - destruct (String.eqb k' k0) eqn:E; simpl.
    + apply String.eqb_eq in E. subst k0. now rewrite Hk.
    + now rewrite IH.
Qed.

(** A match leaves alone the groups the pattern does not contain. *)
Lemma Matches_frame (k : string) (r : regex) (w : string) (cs cs' : captures) :
  Matches r w cs cs' -> has_group k r = false -> assoc k cs' = assoc k cs.
Proof.
  induction 1 as [ | | | | | r1 r2 w1 w2 cs cs1 cs2 H1 IH1 H2 IH2
                 | r1 r2 w cs cs' H1 IH1 | r1 r2 w cs cs' H1 IH1
                 | r w cs cs' H1 IH1 | | key r w cs cs' H1 IH1 ];
    simpl; intros Hk; auto;
    try (apply orb_false_iff in Hk; destruct Hk as [Hk1 Hk2]); auto.
  - rewrite IH2, IH1; auto.
  - rewrite assoc_set_other; auto.
Qed.

Lemma Matches_Seq_inv (r1 r2 : regex) (w : string) (cs cs' : captures) :
  Matches (Seq r1 r2) w cs cs' ->
  exists w1 w2 cs1,
    w = (w1 ++ w2)%string /\ Matches r1 w1 cs cs1 /\ Matches r2 w2 cs1 cs'.
Proof. inversion 1; subst; eauto 7. Qed.

Lemma Matches_Group_inv (key : string) (r : regex) (w : string)
  (cs cs' : captures) :
  Matches (Group key r) w cs cs' ->
  exists cs0, Matches r w cs cs0 /\ cs' = assoc_set key w cs0.
Proof. inversion 1; subst; eauto. Qed.

Lemma Matches_Alt_inv (r1 r2 : regex) (w : string) (cs cs' : captures) :
  Matches (Alt r1 r2) w cs cs' -> Matches r1 w cs cs' \/ Matches r2 w cs cs'.
Proof. inversion 1; subst; auto. Qed.

Lemma Matches_Plus_inv (p : ascii -> bool) (w : string) (cs cs' : captures) :
  Matches (Plus p) w cs cs' -> w <> "" /\ all_in p w = true /\ cs' = cs.
Proof. inversion 1; subst; auto. Qed.

(** What a successful match of [URLREGEX] has captured: the [type] group
    is one of the four entity names and the [id] group is a non-empty
    alphanumeric text. *)
Lemma URLREGEX_groups (url : string) (m : captures) :
  re_match URLREGEX url = Some m ->
  exists ty id,
    group m "type" = Some ty /\ group m "id" = Some id /\
    (ty = "album" \/ ty = "playlist" \/ ty = "track" \/ ty = "artist") /\
    id <> "" /\ all_in alnum id = true.
Proof.
  intros H. apply re_match_sound in H. destruct H as (w & s' & _ & HM).
  unfold URLREGEX in HM.
  apply Matches_Seq_inv in HM. destruct HM as (w1 & ? & cs1 & _ & _ & HM).
  apply Matches_Seq_inv in HM. destruct HM as (w2 & ? & cs2 & _ & _ & HM).
  apply Matches_Seq_inv in HM. destruct HM as (w3 & ? & cs3 & _ & _ & HM).
  apply Matches_Seq_inv in HM. destruct HM as (ty & ? & cs4 & _ & HT & HM).
  apply Matches_Seq_inv in HM. destruct HM as (w5 & ? & cs5 & _ & H5 & HM).
  apply Matches_Seq_inv in HM. destruct HM as (id & ? & cs6 & _ & HI & HM).
  apply Matches_Group_inv in HT. destruct HT as (cs4' & HT & ->).
  apply Matches_Group_inv in HI. destruct HI as (cs6' & HI & ->).
  apply Matches_Plus_inv in HI. destruct HI as (Hne & Hal & ->).
  exists ty, id. unfold group. repeat split; auto.
  - rewrite (Matches_frame "type" _ _ _ _ HM) by reflexivity.
    rewrite assoc_set_other by reflexivity.
    rewrite (Matches_frame "type" _ _ _ _ H5) by reflexivity.
    apply assoc_set_same.
  - rewrite (Matches_frame "id" _ _ _ _ HM) by reflexivity.
    apply assoc_set_same.
  - apply Matches_Alt_inv in HT. destruct HT as [HT|HT];
      [apply Matches_lits in HT; tauto|].
    apply Matches_Alt_inv in HT. destruct HT as [HT|HT];
      [apply Matches_lits in HT; tauto|].
    apply Matches_Alt_inv in HT. destruct HT as [HT|HT];
      apply Matches_lits in HT; tauto.
Qed.

(* ================================================================== *)
(** ** decode_url *)

Example decode_url_track :
  decode_url "https://open.spotify.com/track/6BDLcvvtyJD2vnXRDi1IjQ?si=e2e5bd7aaf3d4a2a"
  = Some (mkIdentifier SpotifySearchType.track (Some "6BDLcvvtyJD2vnXRDi1IjQ")).
Proof. vm_compute. reflexivity. Qed.

Example decode_url_album :
  decode_url "spotify:album:4aawyAB9vmqN3uQ7FjRGTy"
  = Some (mkIdentifier SpotifySearchType.album (Some "4aawyAB9vmqN3uQ7FjRGTy")).
Proof. vm_compute. reflexivity. Qed.

Example decode_url_playlist :
  decode_url "http://open.spotify.com/playlist/37i9dQZF1DXcBWIGoYBM5M&dl_branch=1"
  = Some (mkIdentifier SpotifySearchType.playlist (Some "37i9dQZF1DXcBWIGoYBM5M")).
Proof. vm_compute. reflexivity. Qed.

Example decode_url_artist :
  decode_url "https://open.spotify.com/artist/0OdUWJ0sBjDrqHygGUXeCF"
  = Some (mkIdentifier SpotifySearchType.unusable (Some "0OdUWJ0sBjDrqHygGUXeCF")).
Proof. vm_compute. reflexivity. Qed.

Example decode_url_no_match :
  decode_url "never gonna give you up" = None
  /\ decode_url "https://open.spotify.com/show/6BDLcvvtyJD2vnXRDi1IjQ" = None
  /\ decode_url " spotify:track:6BDLcvvtyJD2vnXRDi1IjQ" = None.
Proof. vm_compute. auto. Qed.

(** C4. Whenever the URL pattern matches its input, [decode_url] returns
    an identifier whose id is the text captured by the [id] group and
    whose type is the entity that the [type] group names: track, album or
    playlist for these three names, and unusable for artist; the [type]
    group always holds one of these four names. Whenever the pattern does
    not match, [decode_url] returns [None]. *)
Theorem decode_url_classifies (url : string) :
  match re_match URLREGEX url with
  | Some m =>
      exists ty id,
        group m "type" = Some ty /\ group m "id" = Some id /\
        ((ty = "track" /\
          decode_url url = Some (mkIdentifier SpotifySearchType.track (Some id)))
         \/ (ty = "album" /\
          decode_url url = Some (mkIdentifier SpotifySearchType.album (Some id)))
         \/ (ty = "playlist" /\
          decode_url url = Some (mkIdentifier SpotifySearchType.playlist (Some id)))
         \/ (ty = "artist" /\
          decode_url url = Some (mkIdentifier SpotifySearchType.unusable (Some id))))
  | None => decode_url url = None
  end.
Proof.
  unfold decode_url.
  destruct (re_match URLREGEX url) as [m|] eqn:Hm; [|reflexivity].
  destruct (URLREGEX_groups _ _ Hm) as (ty & id & Hty & Hid & Hname & _ & _).
  exists ty, id. rewrite Hty, Hid. do 2 (split; [reflexivity|]).
  destruct Hname as [-> | [-> | [-> | ->]]]; simpl; tauto.
Qed.

(* ================================================================== *)
(** ** Equality of tracks *)

(** C9. Two tracks are equal, in the sense of [__eq__], exactly when their
    [id] fields are equal; no other field takes part. *)
Theorem track_eq_iff_same_id (a b : SpotifyTrack.t) :
  SpotifyTrack.__eq__ a b = true <-> SpotifyTrack.id a = SpotifyTrack.id b.
Proof. unfold SpotifyTrack.__eq__. apply String.eqb_eq. Qed.

Lemma track_eq_ignores_other_fields
  (i : string) (r1 r2 : json) (al1 al2 : string) (im1 im2 ar1 ar2 : list string)
  (n1 n2 t1 t2 u1 u2 : string) (l1 l2 d1 d2 : Z) (c1 c2 : option string) :
  SpotifyTrack.__eq__ (SpotifyTrack.mk r1 al1 im1 ar1 n1 t1 u1 i l1 d1 c1)
                      (SpotifyTrack.mk r2 al2 im2 ar2 n2 t2 u2 i l2 d2 c2) = true.
Proof. unfold SpotifyTrack.__eq__. simpl. apply String.eqb_refl. Qed.

(* ================================================================== *)
(** ** Reasoning about runs *)

Section Quiet.

Variable W : World.
Variable c : SpotifyClient.

Lemma fetches_refl (h : Heap) : spotify h = Some c -> fetches c h h.
Proof.
  intros H. repeat split; auto. exists []. split; [now rewrite app_nil_r|constructor].
Qed.

Lemma fetches_trans (h1 h2 h3 : Heap) :
  fetches c h1 h2 -> fetches c h2 h3 -> fetches c h1 h3.
Proof.
  intros (S1 & T1 & P1 & I1 & rs1 & L1 & F1) (S2 & T2 & P2 & I2 & rs2 & L2 & F2).
  repeat split; try congruence.
  exists (rs1 ++ rs2)%list. split.
  - rewrite L2, L1. now rewrite app_assoc.
  - apply Forall_app; auto.
Qed.

Lemma quiet_ret {A} (a : A) : quiet c (ret a).
Proof. intros h H. simpl. split; auto using fetches_refl. Qed.

Lemma quiet_lift {A} (o : outcome A) :
  request_error o = false -> quiet c (lift o).
Proof. intros Ho h H. simpl. split; auto using fetches_refl. Qed.

Lemma quiet_out_of_fuel {A} : quiet c (@out_of_fuel A).
Proof. intros h H. simpl. split; auto using fetches_refl. Qed.

Lemma quiet_get_self : quiet c get_self.
Proof.
  intros h H. unfold get_self. rewrite H. simpl. split; auto using fetches_refl.
Qed.

Lemma quiet_http (u : string) :
  quiet c (http W (mkRequest GET u (bearer_headers c))).
Proof.
  intros h H. simpl. split; auto. repeat split; auto.
  exists [mkRequest GET u (bearer_headers c)]. split; auto.
  constructor; [|constructor]. split; reflexivity.
Qed.

Lemma quiet_bind {A B} (m : M A) (k : A -> M B) :
  quiet c m -> (forall a, quiet c (k a)) -> quiet c (bind m k).
Proof.
  intros Hm Hk h H. unfold bind.
  destruct (Hm h H) as [F E]. destruct (m h) as [[a|e| |] h1]; simpl in *; auto.
  destruct F as (S1 & F). destruct (Hk a h1 S1) as [F2 E2]. split; auto.
  eapply fetches_trans; eauto. repeat split; tauto.
Qed.

(** With [get_self] first, the continuation is only run on [c]. *)
Lemma quiet_bind_self {B} (k : SpotifyClient -> M B) :
  quiet c (k c) -> quiet c (bind get_self k).
Proof.
  intros Hk h H. unfold bind, get_self. rewrite H. apply Hk, H.
Qed.

End Quiet.

(** Pure operations do not raise request errors. *)
Section Pure.

Lemma pure_obind {A B} (o : outcome A) (k : A -> outcome B) :
  request_error o = false -> (forall a, request_error (k a) = false) ->
  request_error (obind o k) = false.
Proof. destruct o; simpl; auto. Qed.

Lemma pure_omap {A B} (f : A -> outcome B) (l : list A) :
  (forall a, request_error (f a) = false) -> request_error (omap f l) = false.
Proof.
  intros Hf. induction l as [|x l IH]; simpl; auto.
  apply pure_obind; auto. intros y. apply pure_obind; auto.
Qed.

Lemma pure_getitem (d : json) (k : string) : request_error (getitem d k) = false.
Proof. destruct d; simpl; auto. destruct (assoc k kvs); auto. Qed.

Lemma pure_setitem (d : json) (k : string) (v : json) :
  request_error (setitem d k v) = false.
Proof. destruct d; simpl; auto. Qed.

Lemma pure_dict_get (d : json) (k : string) : request_error (dict_get d k) = false.
Proof. destruct d; simpl; auto. destruct (assoc k kvs); auto. Qed.

Lemma pure_iter (v : json) : request_error (iter v) = false.
Proof. destruct v; simpl; auto. Qed.

Lemma pure_as_str (v : json) : request_error (as_str v) = false.
Proof. destruct v; simpl; auto. Qed.

Lemma pure_as_int (v : json) : request_error (as_int v) = false.
Proof. destruct v; simpl; auto. Qed.

Lemma pure_as_opt_str (v : json) : request_error (as_opt_str v) = false.
Proof. destruct v; simpl; auto. Qed.

Lemma pure_first {A} (l : list A) : request_error (first l) = false.
Proof. destruct l; simpl; auto. Qed.

End Pure.

Create HintDb pure.

#[local] Hint Resolve pure_getitem pure_setitem pure_dict_get pure_iter
  pure_as_str pure_as_int pure_as_opt_str pure_first : pure.

Ltac pure :=
  repeat first
    [ apply pure_obind; [|intro]
    | apply pure_omap; intro
    | solve [auto with pure]
    | reflexivity ].

Lemma pure_init (data : json) : request_error (SpotifyTrack.__init__ data) = false.
Proof. unfold SpotifyTrack.__init__. pure. Qed.

Lemma pure_track_of_each (v : json) : request_error (track_of_each v) = false.
Proof. unfold track_of_each. pure. Qed.

#[local] Hint Resolve pure_init pure_track_of_each : pure.

Ltac quiet_steps :=
  repeat first
    [ apply quiet_ret
    | apply quiet_out_of_fuel
    | apply quiet_http
    | apply quiet_lift; solve [pure]
    | apply quiet_bind_self
    | apply quiet_bind; [|intro]
    | match goal with
      | |- quiet _ (if ?b then _ else _) => destruct b
      end
    | progress cbv zeta
    | assumption ].

Section QuietSearch.

Variable W : World.
Variable c : SpotifyClient.

Lemma quiet_next_pages (fuel : nat) :
  forall (url : json) (items : list json), quiet c (next_pages W fuel url items).
Proof.
  induction fuel as [|fuel IH]; intros url items; simpl.
  - apply quiet_out_of_fuel.
  - quiet_steps. apply IH.
Qed.

Lemma quiet_normalize (fuel : nat) (iterator : bool) (data : json) :
  quiet c (normalize W fuel iterator data).
Proof.
  unfold normalize. quiet_steps. apply quiet_next_pages.
Qed.

(** [_search] is its token stage followed by its fetch stage. *)
Lemma _search_stages (fuel : nat) (query : string) (type : SpotifySearchType.t)
  (iterator : bool) (h : Heap) :
  _search W fuel query type iterator h
  = bind (ensure_token W) (fun _ => fetch W fuel query type iterator) h.
Proof.
  unfold _search, ensure_token, bind, get_self.
  destruct (spotify h) as [self|]; [|reflexivity].
  destruct (no_token self); simpl.
  - destruct (_get_bearer_token W h) as [[[]|e| |] h1]; reflexivity.
  - destruct (Qle_bool _ _); simpl.
    + destruct (_get_bearer_token W _) as [[[]|e| |] h1]; reflexivity.
    + reflexivity.
Qed.

(** The fetch stage, case by case on the status of the catalog response. *)
Lemma fetch_cases (fuel : nat) (query : string) (type : SpotifySearchType.t)
  (iterator : bool) (h : Heap) :
  spotify h = Some c ->
  let rq := mkRequest GET (search_url query type) (bearer_headers c) in
  let resp := server W (log h) rq in
  let h1 := set_log (log h ++ [rq]) h in
  if status resp =? 200 then
    fetch W fuel query type iterator h = normalize W fuel iterator (body resp) h1
  else
    fetch W fuel query type iterator h
    = (Raise (SpotifyRequestError (status resp) (reason resp)), h1).
Proof.
  intros H. unfold fetch, bind, get_self, http. rewrite H. simpl.
  destruct (status _ =? 200); reflexivity.
Qed.

Lemma fetch_fetches (fuel : nat) (query : string) (type : SpotifySearchType.t)
  (iterator : bool) (h : Heap) :
  spotify h = Some c ->
  let rq := mkRequest GET (search_url query type) (bearer_headers c) in
  let h' := snd (fetch W fuel query type iterator h) in
  spotify h' = Some c /\ ticks h' = ticks h /\ player h' = player h /\
  stream h' = stream h /\
  exists rs, log h' = (log h ++ rq :: rs)%list /\ Forall (bearer_get c) rs.
Proof.
  intros H rq. pose proof (fetch_cases fuel query type iterator h H) as Hc.
  cbv zeta in Hc. fold rq in Hc.
  destruct (status _ =? 200).
  - cbv zeta. rewrite Hc.
    destruct (quiet_normalize fuel iterator (body (server W (log h) rq))
                (set_log (log h ++ [rq]) h) H) as [(S1 & T1 & P1 & I1 & rs & L1 & F1) _].
    repeat split; auto. exists rs. split; auto.
    rewrite L1. simpl. now rewrite <- app_assoc.
  - cbv zeta. rewrite Hc. simpl. repeat split; auto. exists []. split; auto.
Qed.

End QuietSearch.

(* ================================================================== *)
(** ** The token stage *)

(** Symbolic execution of a run whose client is known by [H]. *)
Ltac run_with H := repeat (progress (simpl; rewrite ?H)).

Section Grant.

Variable W : World.

Lemma grant_frame (h : Heap) (c : SpotifyClient) :
  spotify h = Some c ->
  let h' := snd (_get_bearer_token W h) in
  log h' = (log h ++ [grant_request W c])%list /\
  player h' = player h /\ stream h' = stream h /\
  exists c', spotify h' = Some c'.
Proof.
  intros H. unfold _get_bearer_token, set_bearer_token, set_expiry, time_time, bind,
    get_self, http, lift, raise. rewrite H. simpl.
  fold (grant_request W c).
  destruct (status _ =? 200); simpl; [|repeat split; eauto].
  destruct (getitem _ "access_token") as [v| | |]; run_with H;
    [|repeat split; eauto ..].
  destruct v; run_with H; try (repeat split; eauto; fail).
  destruct (getitem _ "expires_in") as [v| | |]; run_with H;
    [|repeat split; eauto ..].
  destruct v; run_with H; repeat split; eauto.
Qed.

Lemma grant_rejected (h : Heap) (c : SpotifyClient) :
  spotify h = Some c ->
  let rq := grant_request W c in
  let resp := server W (log h) rq in
  status resp <> 200 ->
  _get_bearer_token W h
  = (Raise (SpotifyRequestError (status resp) (reason resp)),
     set_log (log h ++ [rq]) h).
Proof.
  intros H rq resp Hs. unfold _get_bearer_token, set_bearer_token, set_expiry, time_time, bind,
    get_self, http, lift, raise.
  rewrite H. simpl. fold (grant_request W c). fold rq. fold resp.
  apply Z.eqb_neq in Hs. rewrite Hs. reflexivity.
Qed.

Lemma grant_accepted (h : Heap) (c : SpotifyClient) :
  spotify h = Some c ->
  status (server W (log h) (grant_request W c)) = 200 ->
  request_error (fst (_get_bearer_token W h)) = false.
Proof.
  intros H Hs. unfold _get_bearer_token, set_bearer_token, set_expiry, time_time, bind,
    get_self, http, lift, raise.
  rewrite H. simpl. fold (grant_request W c). rewrite Hs. simpl.
  set (data := body _).
  pose proof (pure_getitem data "access_token") as P1.
  pose proof (pure_getitem data "expires_in") as P2.
  destruct (getitem data "access_token") as [v| | |]; simpl; auto.
  destruct v; run_with H; auto.
  destruct (getitem data "expires_in") as [v| | |]; run_with H; auto.
  destruct v; run_with H; auto.
Qed.

Lemma grant_granted (h : Heap) (c : SpotifyClient) (tok : string) (N : Z) :
  spotify h = Some c ->
  grant_declares W h c tok N ->
  _get_bearer_token W h
  = (Ret tt,
     mkHeap (S (ticks h)) (log h ++ [grant_request W c])
       (Some (mkClient (_client_id c) (_client_secret c) (Some tok)
                (clock W (ticks h) + inject_Z (N - 10))%Q))
       (player h) (stream h)).
Proof.
  intros H (Hs & Ht & He). unfold _get_bearer_token, set_bearer_token, set_expiry, time_time, bind,
    get_self, http, lift, raise.
  rewrite H. simpl. fold (grant_request W c). rewrite Hs. simpl.
  rewrite Ht. run_with H. rewrite He. reflexivity.
Qed.

(** The token stage when the cached token is still good: the clock is
    read once and nothing else happens. *)
Lemma ensure_token_fresh (h : Heap) (c : SpotifyClient) :
  spotify h = Some c -> no_token c = false ->
  (clock W (ticks h) < _expiry c)%Q ->
  ensure_token W h = (Ret tt, set_ticks (S (ticks h)) h).
Proof.
  intros H Hn Hlt. unfold ensure_token, bind, get_self. rewrite H, Hn. simpl.
  destruct (Qle_bool (_expiry c) (clock W (ticks h))) eqn:E; [|reflexivity].
  apply Qle_bool_iff in E. apply Qle_not_lt in E. contradiction.
Qed.

(** The token stage when there is no token, or the token has expired: the
    grant is requested, after one reading of the clock in the second
    case. *)
Lemma ensure_token_stale (h : Heap) (c : SpotifyClient) :
  spotify h = Some c ->
  no_token c = true \/ (_expiry c <= clock W (ticks h))%Q ->
  ensure_token W h
  = _get_bearer_token W (if no_token c then h else set_ticks (S (ticks h)) h).
Proof.
  intros H Hst. unfold ensure_token, bind, get_self. rewrite H.
  destruct (no_token c); simpl; [reflexivity|].
  destruct Hst as [Hst|Hst]; [discriminate|].
  apply Qle_bool_iff in Hst. rewrite Hst. reflexivity.
Qed.

End Grant.

Lemma bearer_get_not_grant (c : SpotifyClient) (rq : Request) :
  bearer_get c rq -> is_grant rq = false.
Proof. intros [Hm _]. unfold is_grant. now rewrite Hm. Qed.

(** A search with a good token: the client is left as it is and the
    requests issued are the catalog request and then requests that carry
    the same token. *)
Lemma search_with_fresh_token (W : World) (fuel : nat) (query : string)
  (type : SpotifySearchType.t) (iterator : bool) (h : Heap) (c : SpotifyClient) :
  spotify h = Some c ->
  no_token c = false -> (clock W (ticks h) < _expiry c)%Q ->
  let h' := snd (_search W fuel query type iterator h) in
  spotify h' = Some c /\
  exists rest,
    log h' = (log h ++ mkRequest GET (search_url query type) (bearer_headers c)
                :: rest)%list /\
    Forall (fun rq => is_grant rq = false /\ rq_headers rq = bearer_headers c)
           rest.
Proof.
  intros H Hn Hlt h'. subst h'. rewrite _search_stages. unfold bind.
  rewrite (ensure_token_fresh W h c H Hn Hlt).
  destruct (fetch_fetches W c fuel query type iterator
              (set_ticks (S (ticks h)) h) H)
    as (S1 & _ & _ & _ & rs & L1 & F1).
  split; [exact S1|]. exists rs. split; [exact L1|].
  eapply Forall_impl; [|exact F1]. intros rq Hrq. split.
  - now apply bearer_get_not_grant with c.
  - apply Hrq.
Qed.

(** A search without a good token: the grant request comes first and is
    the only one; the catalog request follows unless the grant failed. *)
Lemma search_with_stale_token (W : World) (fuel : nat) (query : string)
  (type : SpotifySearchType.t) (iterator : bool) (h : Heap) (c : SpotifyClient) :
  spotify h = Some c ->
  no_token c = true \/ (_expiry c <= clock W (ticks h))%Q ->
  let h' := snd (_search W fuel query type iterator h) in
  exists rest,
    log h' = (log h ++ grant_request W c :: rest)%list /\
    Forall (fun rq => is_grant rq = false) rest /\
    (rest = [] \/
     exists c' more,
       spotify h' = Some c' /\
       rest = mkRequest GET (search_url query type) (bearer_headers c') :: more)
    /\
    (forall tok N,
        grant_declares W h c tok N ->
        spotify h'
        = Some (mkClient (_client_id c) (_client_secret c) (Some tok)
                  (clock W (if no_token c then ticks h else S (ticks h))
                   + inject_Z (N - 10))%Q) /\
        exists more,
          rest = mkRequest GET (search_url query type)
                   [("Authorization", "Bearer " ++ tok)] :: more).
Proof.
  intros H Hst h'. subst h'. rewrite _search_stages. unfold bind.
  rewrite (ensure_token_stale W h c H Hst).
  set (h0 := if no_token c then h else set_ticks (S (ticks h)) h).
  assert (H0 : spotify h0 = Some c) by (subst h0; destruct (no_token c); exact H).
  assert (L0 : log h0 = log h) by (subst h0; destruct (no_token c); reflexivity).
  assert (T0 : ticks h0 = if no_token c then ticks h else S (ticks h))
    by (subst h0; destruct (no_token c); reflexivity).
  assert (G0 : forall tok N, grant_declares W h c tok N ->
                             grant_declares W h0 c tok N)
    by (unfold grant_declares; now rewrite L0).
  pose proof (fun tok N Hg => grant_granted W h0 c tok N H0 (G0 tok N Hg)) as GG.
  destruct (grant_frame W h0 c H0) as (L1 & _ & _ & c' & S1).
  rewrite L0 in L1. rewrite T0, L0 in GG.
  destruct (_get_bearer_token W h0) as [[[]|e| |] h1]; simpl in *;
    try (exists []; rewrite L1; split; [reflexivity|]; split; [constructor|];
         split; [left; reflexivity|];
         intros tok N Hg; specialize (GG tok N Hg); discriminate).
  destruct (fetch_fetches W c' fuel query type iterator h1 S1)
    as (S2 & _ & _ & _ & rs & L2 & F2).
  eexists. split; [|split; [|split]].
  - rewrite L2, L1, <- app_assoc. reflexivity.
  - constructor; [reflexivity|].
    eapply Forall_impl; [|exact F2]. intros rq.
    apply bearer_get_not_grant.
  - right. exists c', rs. split; [exact S2|reflexivity].
  - intros tok N Hg. specialize (GG tok N Hg). injection GG as ->.
    simpl in S1. injection S1 as <-. split; [exact S2|].
    exists rs. reflexivity.
Qed.

(** C1. With a client bound to the node:
    - a grant whose 200 response declares token [tok] and lifetime [N]
      stores [tok] and sets the expiry to the clock reading of the grant
      plus [N - 10];
    - a search issued while a token is cached and the clock reads strictly
      less than the expiry leaves the client as it is, issues the catalog
      request with the cached token, and issues no grant request;
    - a search issued with no cached token, or with the clock at or after
      the expiry, issues the grant request first and no other grant
      request; what follows it, if anything, starts with the catalog
      request, carrying the token the client then holds. *)
Theorem token_cached_until_expiry (W : World) (fuel : nat) (query : string)
  (type : SpotifySearchType.t) (iterator : bool) (h : Heap) (c : SpotifyClient) :
  spotify h = Some c ->
  (forall tok N,
      grant_declares W h c tok N ->
      spotify (snd (_get_bearer_token W h))
      = Some (mkClient (_client_id c) (_client_secret c) (Some tok)
                (clock W (ticks h) + inject_Z (N - 10))%Q))
  /\
  (no_token c = false -> (clock W (ticks h) < _expiry c)%Q ->
   let h' := snd (_search W fuel query type iterator h) in
   spotify h' = Some c /\
   exists rest,
     log h' = (log h ++ mkRequest GET (search_url query type) (bearer_headers c)
                 :: rest)%list /\
     Forall (fun rq => is_grant rq = false /\ rq_headers rq = bearer_headers c)
            rest)
  /\
  (no_token c = true \/ (_expiry c <= clock W (ticks h))%Q ->
   let h' := snd (_search W fuel query type iterator h) in
   exists rest,
     log h' = (log h ++ grant_request W c :: rest)%list /\
     Forall (fun rq => is_grant rq = false) rest /\
     (rest = [] \/
      exists c' more,
        spotify h' = Some c' /\
        rest = mkRequest GET (search_url query type) (bearer_headers c') :: more)
     /\
     (forall tok N,
         grant_declares W h c tok N ->
         spotify h'
         = Some (mkClient (_client_id c) (_client_secret c) (Some tok)
                   (clock W (if no_token c then ticks h else S (ticks h))
                    + inject_Z (N - 10))%Q) /\
         exists more,
           rest = mkRequest GET (search_url query type)
                    [("Authorization", "Bearer " ++ tok)] :: more)).
Proof.
  intros H. split; [|split].
  - intros tok N Hg. now rewrite (grant_granted W h c tok N H Hg).
  - now apply search_with_fresh_token.
  - now apply search_with_stale_token.
Qed.

(* ================================================================== *)
(** ** The URL of the catalog request *)

Lemma issued_app (h h' : Heap) (rs : list Request) :
  log h' = (log h ++ rs)%list -> issued h h' = rs.
Proof.
  intros L. unfold issued. rewrite L, skipn_app, skipn_all, Nat.sub_diag.
  reflexivity.
Qed.

(** C5. The first GET request that a search issues, if it issues one, asks
    for one URL, fixed by the query and the entity type: when the URL
    pattern matches the query, the base URL filled with the type and the id
    captured from the query, whatever entity type the caller gave;
    otherwise the base URL filled with the name of the caller's entity type
    and the whole query as the identifier. With a good token cached the
    search does issue that request, and first. *)
Theorem search_request_url (W : World) (fuel : nat) (query : string)
  (type : SpotifySearchType.t) (iterator : bool) (h : Heap) (c : SpotifyClient) :
  spotify h = Some c ->
  let h' := snd (_search W fuel query type iterator h) in
  exists url,
    (forall rq, first_get (issued h h') = Some rq -> rq_url rq = url) /\
    (no_token c = false -> (clock W (ticks h) < _expiry c)%Q ->
     exists rest,
       issued h h' = mkRequest GET url (bearer_headers c) :: rest) /\
    match re_match URLREGEX query with
    | Some m =>
        exists ty id,
          group m "type" = Some ty /\ group m "id" = Some id /\
          url = "https://api.spotify.com/v1/" ++ ty ++ "s/" ++ id
    | None =>
        url = "https://api.spotify.com/v1/" ++ SpotifySearchType.name type
              ++ "s/" ++ query
    end.
Proof.
  intros H h'. exists (search_url query type). split; [|split].
  - intros rq Hrq.
    destruct (no_token c) eqn:Hn;
      [|destruct (Qlt_le_dec (clock W (ticks h)) (_expiry c)) as [Hlt|Hle]].
    + destruct (search_with_stale_token W fuel query type iterator h c H
                  (or_introl Hn)) as (rest & L & _ & [->|(c' & more & _ & ->)] & _);
        fold h' in L; rewrite (issued_app _ _ _ L) in Hrq; simpl in Hrq;
        [discriminate|]. now injection Hrq as <-.
    + destruct (search_with_fresh_token W fuel query type iterator h c H Hn Hlt)
        as (_ & rest & L & _).
      fold h' in L. rewrite (issued_app _ _ _ L) in Hrq. simpl in Hrq.
      now injection Hrq as <-.
    + destruct (search_with_stale_token W fuel query type iterator h c H
                  (or_intror Hle)) as (rest & L & _ & [->|(c' & more & _ & ->)] & _);
        fold h' in L; rewrite (issued_app _ _ _ L) in Hrq; simpl in Hrq;
        [discriminate|]. now injection Hrq as <-.
  - intros Hn Hlt.
    destruct (search_with_fresh_token W fuel query type iterator h c H Hn Hlt)
      as (_ & rest & L & _).
    exists rest. now apply issued_app.
  - unfold search_url.
    destruct (re_match URLREGEX query) as [m|] eqn:Hm; [|reflexivity].
    destruct (URLREGEX_groups _ _ Hm) as (ty & id & Hty & Hid & _).
    exists ty, id. rewrite Hty, Hid. auto.
Qed.

(* ================================================================== *)
(** ** fulfill *)

Section Fulfill.

Variable W : World.
Context {P : Type}.
Variable self : SpotifyTrack.t.
Variable cls_search : string -> outcome (list P).

Lemma enqueue_recos_run (recos : list SpotifyTrack.t) :
  forall h, enqueue_recos recos h
            = (Ret tt, set_player (with_enqueued (player h) recos) h).
Proof.
  induction recos as [|reco recos IH]; intros h; simpl.
  - unfold ret, set_player, with_enqueued. rewrite app_nil_r.
    destruct h as [t l s [a sd q hi] i]. reflexivity.
  - unfold bind, get_player, put_player.
    destruct (SpotifyTrack.contains reco (auto_queue (player h))
              || SpotifyTrack.contains reco (history (player h))); simpl;
      rewrite IH; simpl; unfold set_player, with_enqueued; simpl;
      now rewrite <- app_assoc.
Qed.

(** A call that does not populate: the heap is left as it is. *)
Lemma fulfill_skips (populate : bool) (h : Heap) :
  negb (autoplay (player h)) || negb populate = true ->
  SpotifyTrack_fulfill W self cls_search populate h
  = (obind (resolve self cls_search) first, h).
Proof.
  intros Hs. unfold SpotifyTrack_fulfill, bind, lift, get_player.
  fold (resolve self cls_search).
  destruct (resolve self cls_search) as [tracks|e| |]; simpl; auto.
  now rewrite Hs.
Qed.

(** A call whose first statement fails: the heap is left as it is. *)
Lemma fulfill_unresolved (populate : bool) (h : Heap) :
  (forall tracks, resolve self cls_search <> Ret tracks) ->
  snd (SpotifyTrack_fulfill W self cls_search populate h) = h.
Proof.
  intros Hr. unfold SpotifyTrack_fulfill, bind, lift.
  fold (resolve self cls_search).
  destruct (resolve self cls_search) as [tracks|e| |]; simpl; auto.
  now destruct (Hr tracks).
Qed.

(** A call on a node without client: the guard raises and the heap is left
    as it is. *)
Lemma fulfill_without_client (tracks : list P) (h : Heap) :
  resolve self cls_search = Ret tracks ->
  autoplay (player h) = true -> spotify h = None ->
  SpotifyTrack_fulfill W self cls_search true h = (Raise TypeError, h).
Proof.
  intros Hr Ha Hn. unfold SpotifyTrack_fulfill, bind, lift, get_player.
  fold (resolve self cls_search). rewrite Hr. simpl. rewrite Ha. simpl.
  now rewrite Hn.
Qed.

(** A call that populates, step by step. *)
Lemma fulfill_populates (tracks : list P) (c : SpotifyClient) (h : Heap) :
  resolve self cls_search = Ret tracks ->
  autoplay (player h) = true -> spotify h = Some c ->
  let seeds := rotate_seeds (_track_seeds (player h)) (SpotifyTrack.id self) in
  let rq := recommendations_request c seeds in
  let resp := server W (log h) rq in
  let h1 := mkHeap (ticks h) (log h ++ [rq]) (spotify h)
                   (with_seeds (player h) seeds) (stream h) in
  SpotifyTrack_fulfill W self cls_search true h
  = if status resp =? 200 then
      match recos_of (body resp) with
      | Ret recos =>
          (first tracks, set_player (with_enqueued (player h1) recos) h1)
      | Raise e => (Raise e, h1)
      | OutOfFuel => (OutOfFuel, h1)
      | IllTyped => (IllTyped, h1)
      end
    else (Raise (SpotifyRequestError (status resp) (reason resp)), h1).
Proof.
  intros Hr Ha Hc seeds rq resp h1.
  unfold SpotifyTrack_fulfill, bind, lift, get_player, put_player, http, raise.
  fold (resolve self cls_search). rewrite Hr. simpl. rewrite Ha. simpl.
  rewrite Hc. simpl.
  fold seeds. fold (recommendations_request c seeds). fold rq. fold resp.
  destruct (status resp =? 200); simpl; [|reflexivity].
  fold (recos_of (body resp)).
  destruct (recos_of (body resp)) as [recos|e| |]; simpl; try reflexivity.
  rewrite enqueue_recos_run. reflexivity.
Qed.

End Fulfill.

(* ================================================================== *)
(** ** The seed window *)

Lemma rotate_seeds_length (seeds : list string) (id : string) :
  (List.length seeds <= 5)%nat ->
  (List.length (rotate_seeds seeds id) <= 5)%nat.
Proof.
  intros Hl. unfold rotate_seeds.
  destruct (Nat.eqb_spec (List.length seeds) 5) as [E|E];
    rewrite length_app; simpl.
  - destruct seeds; simpl in *; lia.
  - lia.
Qed.

Lemma rotate_seeds_full (seeds : list string) (id : string) :
  List.length seeds = 5%nat ->
  exists oldest rest, seeds = oldest :: rest /\ rotate_seeds seeds id = (rest ++ [id])%list.
Proof.
  intros Hl. unfold rotate_seeds. rewrite Hl. simpl.
  destruct seeds as [|oldest rest]; [discriminate|]. now exists oldest, rest.
Qed.

Lemma rotate_seeds_room (seeds : list string) (id : string) :
  (List.length seeds < 5)%nat -> rotate_seeds seeds id = (seeds ++ [id])%list.
Proof.
  intros Hl. unfold rotate_seeds.
  destruct (Nat.eqb_spec (List.length seeds) 5) as [E|E]; [lia|reflexivity].
Qed.

(** What a call of [fulfill] can do to the seeds: nothing, or one
    rotation. *)
Lemma fulfill_seeds (W : World) {P : Type} (self : SpotifyTrack.t)
  (cls_search : string -> outcome (list P)) (populate : bool) (h : Heap) :
  let h' := snd (SpotifyTrack_fulfill W self cls_search populate h) in
  _track_seeds (player h') = _track_seeds (player h) \/
  _track_seeds (player h')
  = rotate_seeds (_track_seeds (player h)) (SpotifyTrack.id self).
Proof.
  destruct (resolve self cls_search) as [tracks|e| |] eqn:Hr;
    try (left; rewrite fulfill_unresolved; [reflexivity|congruence]).
  destruct (negb (autoplay (player h)) || negb populate) eqn:Hs.
  - left. now rewrite fulfill_skips.
  - apply orb_false_iff in Hs. destruct Hs as [Ha Hp].
    apply negb_false_iff in Ha, Hp. subst populate.
    destruct (spotify h) as [c|] eqn:Hc.
    + right. cbv zeta. rewrite (fulfill_populates W self cls_search tracks c h Hr Ha Hc).
      destruct (status _ =? 200); [|reflexivity].
      destruct (recos_of _); reflexivity.
    + left. now rewrite (fulfill_without_client W self cls_search tracks h Hr Ha Hc).
Qed.

(** C6. A seed window of at most five entries has at most five entries
    after any call of [fulfill]. A call that populates (the source track
    resolved, autoplay on, [populate] set, a client on the node) turns a
    window of five entries into its last four followed by the id of the
    source track, and appends that id to a shorter window. *)
Theorem seed_window_capacity (W : World) {P : Type} (self : SpotifyTrack.t)
  (cls_search : string -> outcome (list P)) (populate : bool) (h : Heap) :
  (List.length (_track_seeds (player h)) <= 5)%nat ->
  let seeds := _track_seeds (player h) in
  let seeds' :=
    _track_seeds (player (snd (SpotifyTrack_fulfill W self cls_search populate h))) in
  (List.length seeds' <= 5)%nat /\
  (forall tracks c,
      resolve self cls_search = Ret tracks ->
      autoplay (player h) = true -> populate = true -> spotify h = Some c ->
      (List.length seeds = 5%nat ->
       exists oldest rest,
         seeds = oldest :: rest /\ seeds' = (rest ++ [SpotifyTrack.id self])%list) /\
      ((List.length seeds < 5)%nat ->
       seeds' = (seeds ++ [SpotifyTrack.id self])%list)).
Proof.
  intros Hl seeds seeds'. split.
  - destruct (fulfill_seeds W self cls_search populate h) as [E|E];
      subst seeds'; rewrite E; auto using rotate_seeds_length.
  - intros tracks c Hr Ha -> Hc.
    assert (E : seeds' = rotate_seeds seeds (SpotifyTrack.id self)).
    { subst seeds'. rewrite (fulfill_populates W self cls_search tracks c h Hr Ha Hc).
      destruct (status _ =? 200); [|reflexivity].
      destruct (recos_of _); reflexivity. }
    rewrite E. split.
    + apply rotate_seeds_full.
    + apply rotate_seeds_room.
Qed.

Lemma tl_skipn {A} (n : nat) (l : list A) : tl (skipn n l) = skipn (S n) l.
Proof.
  revert l. induction n as [|n IH]; intros [|x l]; simpl; auto.
Qed.

(** Starting from an empty window, the window after any sequence of
    rotations holds the last five ids, oldest first. *)
Lemma rotate_seeds_fifo (ids : list string) :
  fold_left rotate_seeds ids []
  = skipn (List.length ids - 5) ids.
Proof.
  induction ids as [|id ids IH] using rev_ind; [reflexivity|].
  rewrite fold_left_app. simpl. rewrite IH, length_app. simpl.
  unfold rotate_seeds. rewrite length_skipn.
  destruct (Nat.eqb_spec (List.length ids - (List.length ids - 5)) 5) as [E|E].
  - replace (List.length ids + 1 - 5)%nat with (S (List.length ids - 5)) by lia.
    rewrite skipn_app.
    replace (S (List.length ids - 5) - List.length ids)%nat with 0%nat by lia.
    simpl. f_equal. apply tl_skipn.
  - replace (List.length ids + 1 - 5)%nat with 0%nat by lia.
    replace (List.length ids - 5)%nat with 0%nat by lia. reflexivity.
Qed.

(* ================================================================== *)
(** ** Populating the continuation queue *)

Lemma issued_none (h : Heap) : issued h h = [].
Proof. unfold issued. apply skipn_all. Qed.

Lemma fulfill_run_populates (W : World) {P : Type} (self : SpotifyTrack.t)
  (cls_search : string -> outcome (list P)) (tracks : list P)
  (c : SpotifyClient) (h : Heap) :
  resolve self cls_search = Ret tracks ->
  autoplay (player h) = true -> spotify h = Some c ->
  let seeds := rotate_seeds (_track_seeds (player h)) (SpotifyTrack.id self) in
  let h' := snd (SpotifyTrack_fulfill W self cls_search true h) in
  log h' = (log h ++ [recommendations_request c seeds])%list /\
  _track_seeds (player h') = seeds.
Proof.
  intros Hr Ha Hc seeds h'. subst h'.
  rewrite (fulfill_populates W self cls_search tracks c h Hr Ha Hc).
  fold seeds. destruct (status _ =? 200); [|split; reflexivity].
  destruct (recos_of _); split; reflexivity.
Qed.

(** C7, as the code has it. A call of [fulfill] with autoplay off or
    [populate] false issues no request and leaves the seeds as they are. A
    call with autoplay on and [populate] true, whose source track resolved
    and whose node has a client, issues exactly one request, the
    recommendations request, and appends exactly the id of the source track
    to the seeds (after dropping the oldest of five). *)
Theorem fulfill_populates_once (W : World) {P : Type} (self : SpotifyTrack.t)
  (cls_search : string -> outcome (list P)) (populate : bool) (h : Heap) :
  let h' := snd (SpotifyTrack_fulfill W self cls_search populate h) in
  (autoplay (player h) = false \/ populate = false ->
   issued h h' = [] /\ _track_seeds (player h') = _track_seeds (player h))
  /\
  (forall tracks c,
      autoplay (player h) = true -> populate = true ->
      resolve self cls_search = Ret tracks -> spotify h = Some c ->
      one_request_one_seed self h h').
Proof.
  intros h'. split.
  - intros Hoff.
    assert (Hs : negb (autoplay (player h)) || negb populate = true)
      by (destruct Hoff as [-> | ->]; auto using orb_true_r).
    subst h'. rewrite (fulfill_skips W self cls_search populate h Hs). simpl.
    split; [apply issued_none|reflexivity].
  - intros tracks c Ha -> Hr Hc.
    destruct (fulfill_run_populates W self cls_search tracks c h Hr Ha Hc)
      as [L S]. fold h' in L, S.
    split.
    + eexists. split; [apply issued_app, L|]. split; [reflexivity|].
      rewrite S. reflexivity.
    + rewrite S. unfold rotate_seeds.
      destruct (List.length (_track_seeds (player h)) =? 5)%nat; eauto.
Qed.

(** C8. When a call of [fulfill] populates and the recommendations
    response is a 200 whose tracks all build, the continuation queue
    afterwards is the queue before followed by every built track, in
    order, whatever the queue and its history held before: a track equal
    to entries of the queue is enqueued all the same, so it occurs once
    more for each time it is recommended. The history is left as it is. *)
Theorem recommendations_all_enqueued (W : World) {P : Type}
  (self : SpotifyTrack.t) (cls_search : string -> outcome (list P))
  (tracks : list P) (c : SpotifyClient) (recos : list SpotifyTrack.t) (h : Heap) :
  resolve self cls_search = Ret tracks ->
  autoplay (player h) = true -> spotify h = Some c ->
  let seeds := rotate_seeds (_track_seeds (player h)) (SpotifyTrack.id self) in
  let resp := server W (log h) (recommendations_request c seeds) in
  status resp = 200 -> recos_of (body resp) = Ret recos ->
  let h' := snd (SpotifyTrack_fulfill W self cls_search true h) in
  auto_queue (player h') = (auto_queue (player h) ++ recos)%list /\
  history (player h') = history (player h) /\
  forall reco,
    occurrences reco (auto_queue (player h'))
    = (occurrences reco (auto_queue (player h)) + occurrences reco recos)%nat.
Proof.
  intros Hr Ha Hc seeds resp Hs Hrecos h'.
  assert (E : auto_queue (player h') = (auto_queue (player h) ++ recos)%list
              /\ history (player h') = history (player h)).
  { subst h'. rewrite (fulfill_populates W self cls_search tracks c h Hr Ha Hc).
    fold seeds. fold resp. rewrite Hs. simpl. rewrite Hrecos. split; reflexivity. }
  destruct E as [E1 E2]. repeat split; auto.
  intros reco. rewrite E1. unfold occurrences.
  now rewrite filter_app, List.length_app.
Qed.

(* ================================================================== *)
(** ** Request errors *)

Lemma raises_for_request_error {A} (r : outcome A) (resp : Response) :
  raises_for r resp -> request_error r = true.
Proof. unfold raises_for. now intros ->. Qed.

Lemma search_after_token (W : World) (fuel : nat) (query : string)
  (type : SpotifySearchType.t) (iterator : bool) (h h1 : Heap) :
  ensure_token W h = (Ret tt, h1) ->
  _search W fuel query type iterator h = fetch W fuel query type iterator h1.
Proof. intros E. rewrite _search_stages. unfold bind. now rewrite E. Qed.

Lemma pure_recos_of (data : json) : request_error (recos_of data) = false.
Proof. unfold recos_of. pure. Qed.

(** C3, as the code has it. With a client on the node, each of the token
    grant, the catalog request of a search (once its token stage has
    succeeded) and the recommendations request of a populating [fulfill]
    raises the request error that carries the status and the reason of its
    response exactly when that status is not 200, and then the request is
    the only one issued: it is not repeated. A search that needs a grant
    passes the request error of the grant on and issues no catalog
    request. *)
Theorem request_error_iff_not_200 (W : World) (fuel : nat) (query : string)
  (type : SpotifySearchType.t) (iterator : bool) {P : Type}
  (self : SpotifyTrack.t) (cls_search : string -> outcome (list P))
  (h : Heap) (c : SpotifyClient) :
  spotify h = Some c ->
  (let rq := grant_request W c in
   let resp := server W (log h) rq in
   let run := _get_bearer_token W h in
   (raises_for (fst run) resp <-> status resp <> 200) /\
   (status resp <> 200 -> issued h (snd run) = [rq]))
  /\
  (forall h1 c1,
      ensure_token W h = (Ret tt, h1) -> spotify h1 = Some c1 ->
      let rq := mkRequest GET (search_url query type) (bearer_headers c1) in
      let resp := server W (log h1) rq in
      let run := _search W fuel query type iterator h in
      (raises_for (fst run) resp <-> status resp <> 200) /\
      (status resp <> 200 -> issued h1 (snd run) = [rq]))
  /\
  (no_token c = true \/ (_expiry c <= clock W (ticks h))%Q ->
   let rq := grant_request W c in
   let resp := server W (log h) rq in
   let run := _search W fuel query type iterator h in
   status resp <> 200 ->
   raises_for (fst run) resp /\ issued h (snd run) = [rq])
  /\
  (forall tracks,
      resolve self cls_search = Ret tracks -> autoplay (player h) = true ->
      let seeds := rotate_seeds (_track_seeds (player h)) (SpotifyTrack.id self) in
      let rq := recommendations_request c seeds in
      let resp := server W (log h) rq in
      let run := SpotifyTrack_fulfill W self cls_search true h in
      (raises_for (fst run) resp <-> status resp <> 200) /\
      (status resp <> 200 -> issued h (snd run) = [rq])).
Proof.
  intros H. split; [|split; [|split]].
  - intros rq resp run. split; [split|].
    + intros Hr Hs. apply raises_for_request_error in Hr.
      subst run. rewrite (grant_accepted W h c H Hs) in Hr. discriminate.
    + intros Hs. subst run. now rewrite (grant_rejected W h c H Hs).
    + intros Hs. subst run. rewrite (grant_rejected W h c H Hs). simpl.
      now apply issued_app.
  - intros h1 c1 Het H1 rq resp run.
    assert (E : run = fetch W fuel query type iterator h1)
      by (now apply search_after_token).
    pose proof (fetch_cases W c1 fuel query type iterator h1 H1) as Hc.
    cbv zeta in Hc. fold rq in Hc. fold resp in Hc.
    rewrite <- E in Hc. destruct (Z.eqb_spec (status resp) 200) as [Hs|Hs].
    + split; [split; [|contradiction]|contradiction].
      intros Hr _. apply raises_for_request_error in Hr. rewrite Hc in Hr.
      destruct (quiet_normalize W c1 fuel iterator (body resp)
                  (set_log (log h1 ++ [rq]) h1) H1)
        as [_ Hq]. rewrite Hq in Hr. discriminate.
    + rewrite Hc. simpl. split; [split; auto|]. reflexivity.
      intros _. now apply issued_app.
  - intros Hst rq resp run Hs. subst run. rewrite _search_stages. unfold bind.
    rewrite (ensure_token_stale W h c H Hst).
    set (h0 := if no_token c then h else set_ticks (S (ticks h)) h).
    assert (H0 : spotify h0 = Some c) by (subst h0; destruct (no_token c); exact H).
    assert (L0 : log h0 = log h) by (subst h0; destruct (no_token c); reflexivity).
    pose proof (grant_rejected W h0 c H0) as GR. cbv zeta in GR.
    rewrite L0 in GR. fold rq in GR. fold resp in GR. rewrite (GR Hs). simpl.
    split; [reflexivity|]. now apply issued_app.
  - intros tracks Hr Ha seeds rq resp run. subst run.
    rewrite (fulfill_populates W self cls_search tracks c h Hr Ha H).
    fold seeds. fold rq. fold resp.
    destruct (Z.eqb_spec (status resp) 200) as [Hs|Hs].
    + split; [split; [|contradiction]|contradiction].
      intros Hre _. apply raises_for_request_error in Hre.
      pose proof (pure_recos_of (body resp)) as Hp.
      destruct (recos_of (body resp)); simpl in *; try congruence.
      rewrite (pure_first tracks) in Hre. discriminate.
    + simpl. split; [split; auto; reflexivity|].
      intros _. now apply issued_app.
Qed.

(** Against C3 as stated. A token endpoint that answers 201, a 2xx
    status, makes the grant raise the request error; and a continuation
    page that answers 500 with an error body makes the search raise
    [KeyError], not the request error of that response. *)
Lemma request_error_not_iff_non_2xx :
  (let h := ex_heap (Some ex_client_new) None in
   let resp := server ex_world_created (log h)
                 (grant_request ex_world_created ex_client_new) in
   status resp = 201 /\
   ~ (raises_for (fst (_get_bearer_token ex_world_created h)) resp
      <-> non_2xx (status resp)))
  /\
  (let h := ex_heap (Some ex_client) None in
   let run := _search ex_world_flaky 5 ex_playlist_query
                SpotifySearchType.playlist true h in
   let rq := mkRequest GET ex_page2_url (bearer_headers ex_client) in
   let resp := server ex_world_flaky (removelast (log (snd run))) rq in
   last (log (snd run)) rq = rq /\
   List.length (log (snd run)) = 2%nat /\
   status resp = 500 /\
   fst run = Raise (KeyError "items") /\
   ~ (raises_for (fst run) resp <-> non_2xx (status resp))).
Proof.
  split.
  - intros h resp. split; [reflexivity|]. intros [H1 _].
    assert (Hr : raises_for (fst (_get_bearer_token ex_world_created h)) resp)
      by (vm_compute; reflexivity).
    apply H1 in Hr. assert (Hs : status resp = 201) by reflexivity.
    unfold non_2xx in Hr. rewrite Hs in Hr. lia.
  - intros h run rq resp.
    assert (Hs : status resp = 500) by (vm_compute; reflexivity).
    split; [vm_compute; reflexivity|]. split; [vm_compute; reflexivity|].
    split; [exact Hs|]. split; [vm_compute; reflexivity|].
    intros [_ H2].
    assert (Hn : non_2xx (status resp)) by (unfold non_2xx; rewrite Hs; lia).
    apply H2 in Hn. vm_compute in Hn. discriminate.
Qed.

(** Against C7 as stated. With autoplay on and [populate] true, a node
    without client makes [fulfill] raise at its guard: no request is
    issued and no id is appended. *)
Lemma fulfill_without_client_populates_nothing :
  let h := ex_heap None None in
  let run := SpotifyTrack_fulfill ex_world ex_self ex_cls_search true h in
  autoplay (player h) = true /\
  resolve ex_self ex_cls_search = Ret ex_playables /\
  (exists e, fst run = Raise e) /\
  issued h (snd run) = [] /\
  _track_seeds (player (snd run)) = _track_seeds (player h) /\
  ~ one_request_one_seed ex_self h (snd run).
Proof.
  intros h run. split; [reflexivity|]. split; [reflexivity|].
  split; [exists TypeError; vm_compute; reflexivity|].
  split; [vm_compute; reflexivity|]. split; [vm_compute; reflexivity|].
  intros [(rq & Hrq & _) _]. vm_compute in Hrq. discriminate.
Qed.

(* ================================================================== *)
(** ** Searching for a track *)

(** C10. When the token stage of a search for a track succeeds and the
    catalog answers 200 with a payload that declares type track and
    builds a track, [_search] returns that one track and not a list;
    [SpotifyTrack.search] with [return_first] set then subscripts the
    track and raises [TypeError], and without [return_first] returns the
    bare track. *)
Theorem search_track_is_not_a_list (W : World) (fuel : nat) (query : string)
  (h h1 : Heap) (c : SpotifyClient) (t : SpotifyTrack.t) :
  ensure_token W h = (Ret tt, h1) -> spotify h1 = Some c ->
  let rq := mkRequest GET (search_url query SpotifySearchType.track)
              (bearer_headers c) in
  let resp := server W (log h1) rq in
  status resp = 200 ->
  getitem (body resp) "type" = Ret (JStr "track") ->
  SpotifyTrack.__init__ (body resp) = Ret t ->
  fst (_search W fuel query SpotifySearchType.track false h) = Ret (OTrack t) /\
  fst (SpotifyTrack_search W fuel query SpotifySearchType.track true h)
  = Raise TypeError /\
  fst (SpotifyTrack_search W fuel query SpotifySearchType.track false h)
  = Ret (OTrack t).
Proof.
  intros Het Hc rq resp Hs Hty Hinit.
  assert (E : _search W fuel query SpotifySearchType.track false h
              = (Ret (OTrack t), set_log (log h1 ++ [rq]) h1)).
  { rewrite (search_after_token W fuel query _ false h h1 Het).
    pose proof (fetch_cases W c fuel query SpotifySearchType.track false h1 Hc) as F.
    cbv zeta in F. fold rq in F. fold resp in F. rewrite Hs in F. simpl in F.
    rewrite F. unfold normalize, bind, lift. rewrite Hty. simpl.
    rewrite Hinit. reflexivity. }
  unfold SpotifyTrack_search. simpl. unfold bind. rewrite E. simpl. auto.
Qed.

(** With the same response, [SpotifyTrack.convert] fails as well. *)
Lemma convert_track_fails (W : World) (fuel : nat) (argument : string)
  (h h1 : Heap) (c : SpotifyClient) (t : SpotifyTrack.t) :
  ensure_token W h = (Ret tt, h1) -> spotify h1 = Some c ->
  let rq := mkRequest GET (search_url argument SpotifySearchType.track)
              (bearer_headers c) in
  let resp := server W (log h1) rq in
  status resp = 200 ->
  getitem (body resp) "type" = Ret (JStr "track") ->
  SpotifyTrack.__init__ (body resp) = Ret t ->
  fst (SpotifyTrack_convert W fuel argument h) = Raise TypeError.
Proof.
  intros Het Hc rq resp Hs Hty Hinit.
  unfold SpotifyTrack_convert, SpotifyTrack_search. simpl. unfold bind.
  rewrite (search_after_token W fuel argument _ false h h1 Het).
  pose proof (fetch_cases W c fuel argument SpotifySearchType.track false h1 Hc) as F.
  cbv zeta in F. fold rq in F. fold resp in F. rewrite Hs in F. simpl in F.
  rewrite F. unfold normalize, bind, lift. rewrite Hty. simpl.
  rewrite Hinit. reflexivity.
Qed.

(* ================================================================== *)
(** ** The pagination stream *)

Lemma leftover_nil (n : nat) : leftover n [] = [].
Proof. destruct n; reflexivity. Qed.

Lemma take_with_queue (d : nat) (self : SpotifyAsyncIterator) (q' q : list pyobj) :
  take d (with_queue self q') q = take d self q.
Proof.
  revert d. induction q as [|x q IH]; intros d; simpl;
    change (limit_reached (with_queue self q')) with (limit_reached self);
    destruct (limit_reached self); try reflexivity.
  destruct (is_none x); [destruct d; [reflexivity|apply IH]|].
  destruct (construct x); reflexivity.
Qed.

(** The two readings of "no run of nulls is too long" agree. *)
Lemma null_runs_fit_sound (room : nat) (items : list json) :
  forall budget : nat,
    (budget <= room)%nat -> null_runs_fit room budget items = true ->
    forall before run after : list json,
      items = (before ++ run ++ after)%list -> forallb is_null run = true ->
      (List.length run <= room)%nat /\
      (before = [] -> (List.length run <= budget)%nat).
Proof.
  induction items as [|j rest IH]; intros b Hb H before run after E Hrun.
  - symmetry in E. apply app_eq_nil in E. destruct E as [_ E].
    apply app_eq_nil in E. destruct E as [-> _]. simpl. split; intros; lia.
  - destruct before as [|x before'].
    + destruct run as [|r run']; [simpl; split; intros; lia|].
      simpl in E. injection E as <- E. simpl in Hrun.
      apply andb_true_iff in Hrun. destruct Hrun as [Hj Hrun].
      simpl in H. rewrite Hj in H. destruct b as [|b']; [discriminate|].
      destruct (IH b' ltac:(lia) H [] run' after E Hrun) as [_ L].
      specialize (L eq_refl). simpl. split; intros; lia.
    + simpl in E. injection E as <- E. simpl in H.
      assert (H' : exists b', (b' <= room)%nat /\ null_runs_fit room b' rest = true).
      { destruct (is_null j); [|exists room; auto].
        destruct b as [|b']; [discriminate|]. exists b'. split; [lia|exact H]. }
      destruct H' as (b' & Hb' & H').
      destruct (IH b' Hb' H' before' run after E Hrun) as [L _].
      split; [exact L|discriminate].
Qed.

Lemma null_runs_fit_complete (room : nat) (items : list json) :
  forall budget : nat,
    (forall before run after : list json,
        items = (before ++ run ++ after)%list -> forallb is_null run = true ->
        (List.length run <= room)%nat /\
        (before = [] -> (List.length run <= budget)%nat)) ->
    null_runs_fit room budget items = true.
Proof.
  induction items as [|j rest IH]; intros b H; [reflexivity|].
  simpl. destruct (is_null j) eqn:Hj.
  - destruct b as [|b'].
    + destruct (H [] [j] rest eq_refl) as [_ L]; [simpl; now rewrite Hj|].
      specialize (L eq_refl). simpl in L. lia.
    + apply IH. intros before run after E Hrun. split.
      * apply (H (j :: before) run after); [simpl; now rewrite E|exact Hrun].
      * intros ->. simpl in E.
        destruct (H [] (j :: run) after) as [_ L];
          [simpl; now rewrite E|simpl; now rewrite Hj|].
        specialize (L eq_refl). simpl in L. lia.
  - apply IH. intros before run after E Hrun.
    assert (L : (List.length run <= room)%nat)
      by (apply (H (j :: before) run after); [simpl; now rewrite E|exact Hrun]).
    split; auto.
Qed.

Lemma null_runs_within_fit (room : nat) (items : list json) :
  null_runs_within room items <-> null_runs_fit room room items = true.
Proof.
  split.
  - intros H. apply null_runs_fit_complete. intros before run after E Hrun.
    split; [|intros _]; exact (H before run after E Hrun).
  - intros H before run after E Hrun.
    exact (proj1 (null_runs_fit_sound room items room (Nat.le_refl room) H
                    before run after E Hrun)).
Qed.

Section Stream.

Variable W : World.
Variable fuel : nat.

(** A pull once the buffer is filled. *)
Lemma anext_buffered (h : Heap) :
  _first (stream h) = false ->
  __anext__ W fuel h
  = (fst (take (recursion_room W) (stream h) (_queue (stream h))),
     set_stream (snd (take (recursion_room W) (stream h) (_queue (stream h)))) h).
Proof.
  intros Hf. unfold __anext__, bind, get_stream. rewrite Hf. simpl.
  destruct (take (recursion_room W) (stream h) (_queue (stream h))). reflexivity.
Qed.

(** An iteration over a filled stream begins with a pull that has all
    the room the interpreter gives. *)
Lemma async_for_drain (p : nat) (h : Heap) :
  _first (stream h) = false ->
  async_for W (S p) fuel h = drain W fuel (recursion_room W) p h.
Proof.
  intros Hf. cbn [async_for]. unfold drain, pull_at.
  rewrite (anext_buffered h Hf).
  destruct (take (recursion_room W) (stream h) (_queue (stream h))). reflexivity.
Qed.

(** A [None] at the head of the buffer is dropped within the pull, which
    re-enters one call deeper. *)
Lemma drain_skips_none (d p : nat) (h : Heap) (x : pyobj) (q : list pyobj) :
  _queue (stream h) = x :: q ->
  limit_reached (stream h) = false -> is_none x = true ->
  drain W fuel (S d) p h
  = drain W fuel d p (set_stream (with_queue (stream h) q) h).
Proof.
  intros Hq Hr Hn. unfold drain, pull_at. rewrite Hq.
  cbn [take]. rewrite Hr, Hn.
  change (stream (set_stream (with_queue (stream h) q) h))
    with (with_queue (stream h) q).
  change (_queue (with_queue (stream h) q)) with q.
  rewrite take_with_queue.
  destruct (take d (stream h) q) as [[t|e| |] it']; reflexivity.
Qed.

(** Draining a filled buffer whose items that are not null all build and
    whose runs of nulls fit the room for re-entries. *)
Lemma drain_buffered (items : list json) :
  forall (d p : nat) (h : Heap) (ts : list SpotifyTrack.t),
    _first (stream h) = false ->
    _queue (stream h) = map OPayload items ->
    built items = Ret ts ->
    (List.length items <= p)%nat ->
    null_runs_fit (recursion_room W) d items = true ->
    (forall L, _limit (stream h) = Some L -> _count (stream h) <= L) ->
    exists it',
      drain W fuel d p h
      = (Ret (yielded (_limit (stream h)) (_count (stream h)) ts),
         set_stream it' h) /\
      _queue it'
      = map OPayload (remaining (_limit (stream h)) (_count (stream h)) items).
Proof.
  induction items as [|j rest IH]; intros d p h ts Hf Hq Hb Hp Hfit Hl.
  - unfold drain, pull_at. rewrite Hq.
    injection Hb as <-.
    exists (with_queue (stream h) []). simpl.
    unfold yielded, remaining.
    destruct (limit_reached (stream h)); simpl;
      destruct (_limit (stream h)); simpl;
      rewrite ?firstn_nil; split; auto;
      destruct (Z.to_nat _); reflexivity.
  - cbn [map] in Hq. destruct (limit_reached (stream h)) eqn:Hr.
    + unfold drain, pull_at. rewrite Hq.
      cbn [take]. rewrite Hr.
      unfold limit_reached in Hr.
      destruct (_limit (stream h)) as [L|] eqn:HL; [|discriminate].
      apply Z.eqb_eq in Hr. simpl.
      exists (with_queue (stream h) (OPayload j :: map OPayload rest)).
      unfold yielded, remaining. rewrite Hr, Z.sub_diag. simpl. auto.
    + simpl in Hfit. destruct (is_null j) eqn:Hj.
      * assert (Hn : is_none (OPayload j) = true) by (destruct j; auto; discriminate).
        destruct d as [|d']; [discriminate|].
        rewrite (drain_skips_none d' p h _ _ Hq Hr Hn).
        destruct (IH d' p (set_stream (with_queue (stream h) (map OPayload rest)) h) ts)
          as (it' & E & Q); auto.
        { unfold built in *. simpl in Hb. now rewrite Hj in Hb. }
        { simpl in Hp. lia. }
        exists it'. split.
        -- rewrite E. reflexivity.
        -- rewrite Q. simpl. unfold remaining.
           destruct (_limit (stream h)) as [L|] eqn:HL; [|reflexivity].
           unfold limit_reached in Hr. rewrite HL in Hr.
           apply Z.eqb_neq in Hr. specialize (Hl L eq_refl).
           destruct (Z.to_nat (L - _count (stream h))) eqn:En; [lia|].
           simpl. rewrite Hj. reflexivity.
      * unfold drain, pull_at. rewrite Hq.
        cbn [map take]. rewrite Hr.
        unfold built in Hb. simpl in Hb. rewrite Hj in Hb. simpl in Hb.
        assert (Hn : is_none (OPayload j) = false) by (destruct j; auto; discriminate).
        rewrite Hn. cbn [construct].
        destruct (SpotifyTrack.__init__ j) as [t| | |]; try discriminate.
        simpl in Hb. fold (built rest) in Hb.
        destruct (built rest) as [ts'| | |] eqn:Hb'; try discriminate.
        injection Hb as <-.
        set (it2 := mkIterator (_query (stream h)) (_limit (stream h))
                      (_type (stream h)) (_first (stream h))
                      (_count (stream h) + 1) (map OPayload rest)).
        destruct p as [|p']; [simpl in Hp; lia|].
        unfold bind. rewrite (async_for_drain p' (set_stream it2 h) Hf).
        destruct (IH (recursion_room W) p' (set_stream it2 h) ts')
          as (it' & E & Q); auto.
        { simpl in Hp. lia. }
        { simpl. intros L HL. unfold limit_reached in Hr. rewrite HL in Hr.
          apply Z.eqb_neq in Hr. specialize (Hl L HL). lia. }
        exists it'. rewrite E. simpl. split.
        -- unfold yielded, ret. f_equal. f_equal.
           destruct (_limit (stream h)) as [L|] eqn:HL; [|reflexivity].
           unfold limit_reached in Hr. rewrite HL in Hr.
           apply Z.eqb_neq in Hr. specialize (Hl L eq_refl).
           replace (Z.to_nat (L - _count (stream h)))
             with (S (Z.to_nat (L - (_count (stream h) + 1)))) by lia.
           reflexivity.
        -- rewrite Q. simpl. unfold remaining.
           destruct (_limit (stream h)) as [L|] eqn:HL; [|reflexivity].
           unfold limit_reached in Hr. rewrite HL in Hr.
           apply Z.eqb_neq in Hr. specialize (Hl L eq_refl).
           replace (Z.to_nat (L - _count (stream h)))
             with (S (Z.to_nat (L - (_count (stream h) + 1)))) by lia.
           simpl. rewrite Hj. reflexivity.
Qed.

Lemma async_for_buffered (items : list json) (pulls : nat) (h : Heap)
  (ts : list SpotifyTrack.t) :
  _first (stream h) = false ->
  _queue (stream h) = map OPayload items ->
  built items = Ret ts ->
  (List.length items < pulls)%nat ->
  null_runs_within (recursion_room W) items ->
  (forall L, _limit (stream h) = Some L -> _count (stream h) <= L) ->
  exists it',
    async_for W pulls fuel h
    = (Ret (yielded (_limit (stream h)) (_count (stream h)) ts),
       set_stream it' h) /\
    _queue it'
    = map OPayload (remaining (_limit (stream h)) (_count (stream h)) items).
Proof.
  intros Hf Hq Hb Hp Hruns Hl. destruct pulls as [|p]; [lia|].
  rewrite (async_for_drain p h Hf).
  apply drain_buffered; auto; [lia|now apply null_runs_within_fit].
Qed.

End Stream.

(** A search leaves the player and the iterator alone. *)
Lemma search_frame (W : World) (fuel : nat) (query : string)
  (type : SpotifySearchType.t) (iterator : bool) (h : Heap) :
  let h' := snd (_search W fuel query type iterator h) in
  player h' = player h /\ stream h' = stream h.
Proof.
  destruct (spotify h) as [c|] eqn:H.
  - cbv zeta. rewrite _search_stages. unfold bind.
    assert (Hs : (no_token c = false /\ (clock W (ticks h) < _expiry c)%Q)
                 \/ (no_token c = true \/ (_expiry c <= clock W (ticks h))%Q)).
    { destruct (no_token c); [right; now left|].
      destruct (Qlt_le_dec (clock W (ticks h)) (_expiry c)); auto. }
    destruct Hs as [[Hn Hlt]|Hst].
    + rewrite (ensure_token_fresh W h c H Hn Hlt).
      destruct (fetch_fetches W c fuel query type iterator
                  (set_ticks (S (ticks h)) h) H) as (_ & _ & P1 & I1 & _).
      split; assumption.
    + rewrite (ensure_token_stale W h c H Hst).
      set (h0 := if no_token c then h else set_ticks (S (ticks h)) h).
      assert (H0 : spotify h0 = Some c) by (subst h0; destruct (no_token c); exact H).
      assert (P0 : player h0 = player h /\ stream h0 = stream h)
        by (subst h0; destruct (no_token c); split; reflexivity).
      destruct P0 as [P0 I0].
      destruct (grant_frame W h0 c H0) as (_ & P1 & I1 & c' & S1).
      destruct (_get_bearer_token W h0) as [[[]|e| |] h1]; simpl in *;
        try (split; congruence).
      destruct (fetch_fetches W c' fuel query type iterator h1 S1)
        as (_ & _ & P2 & I2 & _).
      split; congruence.
  - unfold _search, bind, get_self. rewrite H. split; reflexivity.
Qed.

Section Fill.

Variable W : World.
Variable fuel : nat.

(** The first pull: the buffer is filled with what the search returns,
    and the pull goes on as any other. *)
Lemma async_for_fills (p : nat) (h h1 : Heap) (items : list json) :
  _first (stream h) = true ->
  _search W fuel (_query (stream h)) (_type (stream h)) true h
  = (Ret (OPayloads items), h1) ->
  async_for W (S p) fuel h
  = async_for W (S p) fuel
      (set_stream (mkIterator (_query (stream h)) (_limit (stream h))
                     (_type (stream h)) false (_count (stream h))
                     (_queue (stream h) ++ map OPayload items)) h1).
Proof.
  intros Hf Hs.
  pose proof (search_frame W fuel (_query (stream h)) (_type (stream h)) true h) as F.
  cbv zeta in F. rewrite Hs in F. simpl in F. destruct F as [_ F].
  cbn [async_for].
  rewrite (anext_buffered W fuel
             (set_stream (mkIterator (_query (stream h)) (_limit (stream h))
                            (_type (stream h)) false (_count (stream h))
                            (_queue (stream h) ++ map OPayload items)) h1)
             eq_refl).
  unfold __anext__, fill_queue, bind, get_stream, put_stream, lift.
  rewrite Hf, Hs. simpl. rewrite F. simpl.
  destruct (take _ _) as [[t|e| |] it']; reflexivity.
Qed.

End Fill.

Section Pages.

Variable W : World.
Variable c : SpotifyClient.

Lemma next_pages_run (pages : list (list json)) :
  forall (fuel : nat) (next : json) (items : list json) (h : Heap),
    spotify h = Some c -> pages <> [] ->
    continuation W c next pages ->
    (List.length pages <= fuel)%nat ->
    exists h',
      next_pages W fuel next items h = (Ret (items ++ List.concat pages)%list, h').
Proof.
  induction pages as [|page pages IH]; intros fuel next items h H Hne Hc Hf;
    [contradiction|].
  destruct fuel as [|fuel]; [simpl in Hf; lia|].
  destruct Hc as (Ht & u & resp & v & next' & -> & Hsv & Hi & Hp & Hn & Hc).
  simpl next_pages. unfold bind, get_self, http, lift. rewrite H. simpl.
  rewrite (Hsv (log h)), Hi. simpl. rewrite Hp, Hn. simpl.
  destruct pages as [|page' pages'].
  - simpl in Hc. rewrite Hc. simpl. rewrite app_nil_r. unfold ret. eauto.
  - destruct Hc as (Ht' & Hc'). rewrite Ht'. simpl.
    destruct (IH fuel next' (items ++ page)%list
                (set_log (log h ++ [mkRequest GET u (bearer_headers c)]) h))
      as (h' & E); auto; try discriminate.
    + split; assumption.
    + simpl in Hf. simpl. lia.
    + rewrite E. rewrite <- app_assoc. simpl. unfold ret. eauto.
Qed.

Lemma fetch_playlist_pages (fuel : nat) (query : string)
  (type : SpotifySearchType.t) (pages : list (list json)) (h : Heap) :
  spotify h = Some c ->
  playlist_served W c (search_url query type) pages ->
  (List.length pages <= S fuel)%nat ->
  exists h',
    fetch W fuel query type true h = (Ret (OPayloads (List.concat pages)), h').
Proof.
  intros H Hp Hf. destruct pages as [|page pages]; [contradiction|].
  destruct Hp as (resp & ts & v & next & Hsv & Hs & Hty & Hts & Hn & Hi & Hpg & Hc).
  pose proof (fetch_cases W c fuel query type true h H) as F.
  cbv zeta in F. rewrite (Hsv (log h)), Hs in F. simpl in F. rewrite F.
  unfold normalize, bind, lift. rewrite Hty. simpl. rewrite Hts. simpl.
  rewrite Hn. simpl. rewrite Hi. simpl. rewrite Hpg.
  destruct pages as [|page' pages'].
  - simpl in Hc. rewrite Hc. simpl. rewrite app_nil_r. unfold ret. eauto.
  - assert (Ht : truthy next = true) by apply Hc. rewrite Ht. simpl.
    destruct (next_pages_run (page' :: pages') fuel next page
                (set_log (log h ++ [mkRequest GET (search_url query type)
                                      (bearer_headers c)]) h))
      as (h' & E); auto; try discriminate.
    + simpl in Hf. simpl. lia.
    + rewrite E. unfold ret. eauto.
Qed.

End Pages.

Lemma omap_init_raw (l : list json) (ts : list SpotifyTrack.t) :
  omap SpotifyTrack.__init__ l = Ret ts -> map SpotifyTrack.raw ts = l.
Proof.
  revert ts. induction l as [|j l IH]; intros ts H; simpl in H.
  - injection H as <-. reflexivity.
  - destruct (SpotifyTrack.__init__ j) as [t| | |] eqn:Hj; try discriminate.
    simpl in H. destruct (omap SpotifyTrack.__init__ l) as [ts'| | |];
      try discriminate.
    injection H as <-. simpl. rewrite (IH ts' eq_refl). f_equal.
    unfold SpotifyTrack.__init__ in Hj.
    repeat match type of Hj with
           | obind ?o _ = Ret _ => destruct o; simpl in Hj; try discriminate
           end.
    injection Hj as <-. reflexivity.
Qed.

(** X23. A fresh stream over a playlist that the world serves in pages,
    consumed after a token stage that has succeeded (with a cached token
    or a newly granted one), with enough fuel for the continuation pages
    and enough pulls, where every buffered item that is not null builds a
    track and no run of consecutive null items is longer than the
    interpreter lets [__anext__] re-enter itself: the loop terminates
    normally; without limit it has yielded one track per item that is
    not null, in page and item order (the payload of the k-th track is
    the k-th such item of the concatenated pages); with a limit [L >= 0]
    it has yielded the first [L] of these tracks, or all of them when
    there are fewer, and the buffer still holds what follows the [L]-th
    of them. Null items are passed over and do not count. *)
Theorem pagination_stream_yields (W : World) (fuel pulls : nat) (query : string)
  (limit : option Z) (type : SpotifySearchType.t) (h h1 : Heap)
  (c : SpotifyClient) (pages : list (list json)) (tracks : list SpotifyTrack.t) :
  ensure_token W h = (Ret tt, h1) -> spotify h1 = Some c ->
  stream h = SpotifyAsyncIterator_init query limit type ->
  playlist_served W c (search_url query type) pages ->
  built (List.concat pages) = Ret tracks ->
  null_runs_within (recursion_room W) (List.concat pages) ->
  (List.length pages <= S fuel)%nat ->
  (List.length (List.concat pages) < pulls)%nat ->
  (forall L, limit = Some L -> 0 <= L) ->
  exists h',
    async_for W pulls fuel h
    = (Ret (match limit with
            | None => tracks
            | Some L => firstn (Z.to_nat L) tracks
            end), h') /\
    map SpotifyTrack.raw tracks
    = filter (fun j => negb (is_null j)) (List.concat pages) /\
    _queue (stream h')
    = map OPayload (match limit with
                    | None => []
                    | Some L => leftover (Z.to_nat L) (List.concat pages)
                    end).
Proof.
  intros Het H Hst Hpl Hb Hruns Hf Hp Hl.
  destruct pulls as [|p]; [lia|].
  destruct (fetch_playlist_pages W c fuel query type pages h1 H Hpl Hf)
    as (h2 & Hfe).
  assert (Hs : _search W fuel (_query (stream h)) (_type (stream h)) true h
               = (Ret (OPayloads (List.concat pages)), h2)).
  { rewrite Hst. simpl.
    now rewrite (search_after_token W fuel query type true h h1 Het). }
  rewrite (async_for_fills W fuel p h h2 (List.concat pages));
    [|rewrite Hst; reflexivity|exact Hs].
  rewrite Hst. simpl.
  destruct (async_for_buffered W fuel (List.concat pages) (S p)
              (set_stream (mkIterator query limit type false 0
                             (map OPayload (List.concat pages))) h2) tracks)
    as (it' & E & Q); auto.
  exists (set_stream it' h2). simpl in E, Q. split; [|split].
  - rewrite E. unfold yielded. destruct limit; [rewrite Z.sub_0_r|]; reflexivity.
  - now apply omap_init_raw.
  - simpl. rewrite Q. unfold remaining.
    destruct limit; [rewrite Z.sub_0_r|]; reflexivity.
Qed.

(** A pull on a run of [None] items longer than the interpreter lets
    [__anext__] re-enter itself raises [RecursionError], whatever follows
    the run. *)
Lemma take_long_run (d : nat) (self : SpotifyAsyncIterator) :
  forall (run rest : list pyobj),
    limit_reached self = false ->
    forallb is_none run = true -> (d < List.length run)%nat ->
    fst (take d self (run ++ rest)) = Raise RecursionError.
Proof.
  induction d as [|d IH]; intros run rest Hr Hn Hl;
    (destruct run as [|x run]; [simpl in Hl; lia|]);
    simpl in Hn; apply andb_true_iff in Hn; destruct Hn as [Hx Hn];
    cbn [app take]; rewrite Hr, Hx.
  - reflexivity.
  - apply IH; auto. simpl in Hl. lia.
Qed.

(** C2. The stream does not pass over every null item: the playlist that
    begins with 1001 null items and then holds one track, which builds,
    is served in one page and buffered whole, and the first pull raises
    [RecursionError], under an interpreter that allows a thousand
    re-entries: the iteration ends with that exception and the track is
    not yielded, although no limit is set. *)
Theorem long_null_run_ends_the_stream :
  let h := ex_heap (Some ex_client) None in
  playlist_served ex_world_long_gap ex_client
    (search_url ex_playlist_query SpotifySearchType.playlist) [ex_long_gap_page] /\
  built ex_long_gap_page = Ret [ex_track "t0"] /\
  fst (_search ex_world_long_gap 5 ex_playlist_query SpotifySearchType.playlist
         true h) = Ret (OPayloads ex_long_gap_page) /\
  fst (__anext__ ex_world_long_gap 5 h) = Raise RecursionError /\
  fst (async_for ex_world_long_gap 2000 5 h) = Raise RecursionError.
Proof.
  intros h. split; [|repeat split; vm_compute; reflexivity].
  eexists _, _, _, _.
  split; [intro lg; vm_compute; reflexivity|].
  do 5 (split; [reflexivity|]). split; vm_compute; reflexivity.
Qed.

(* ================================================================== *)
(** ** The properties at work on the example world *)

Example ex_tracks_built : built (List.concat ex_pages) = Ret ex_tracks.
Proof. vm_compute. reflexivity. Qed.

Example ex_stream_all :
  fst (async_for ex_world 200 5 (ex_heap (Some ex_client) None)) = Ret ex_tracks
  /\ List.length ex_tracks = 107%nat.
Proof. split; vm_compute; reflexivity. Qed.

Example ex_stream_limit_10 :
  let run := async_for ex_world 200 5 (ex_heap (Some ex_client) (Some 10)) in
  fst run = Ret (firstn 10 ex_tracks)
  /\ List.length (_queue (stream (snd run))) = 97%nat
  /\ List.length (log (snd run)) = 3%nat.
Proof. repeat split; vm_compute; reflexivity. Qed.

(** A buffer with null slots: they are passed over and the limit counts
    tracks only. *)
Example ex_take_skips_null :
  let it := mkIterator ex_playlist_query (Some 2) SpotifySearchType.playlist
              false 0
              [OPayload JNull; OPayload (ex_track_payload "a"); OPayload JNull;
               OPayload JNull; OPayload (ex_track_payload "b");
               OPayload (ex_track_payload "c")] in
  let h := set_stream it (ex_heap (Some ex_client) (Some 2)) in
  let run := async_for ex_world 10 5 h in
  fst run = Ret [ex_track "a"; ex_track "b"]
  /\ _queue (stream (snd run)) = [OPayload (ex_track_payload "c")].
Proof. split; vm_compute; reflexivity. Qed.

(** A stream with a new client asks for a token first. *)
Example ex_stream_grants_first :
  let run := async_for ex_world 200 5 (ex_heap (Some ex_client_new) (Some 1)) in
  fst run = Ret [ex_track "t0"]
  /\ map rq_url (log (snd run))
     = [GRANTURL; ex_playlist_url; ex_page2_url; ex_page3_url]
  /\ option_map _bearer_token (spotify (snd run)) = Some (Some "BQnew").
Proof. repeat split; vm_compute; reflexivity. Qed.

(** The example world: the grant of a new client, a search that reuses a
    good token, and a search that has to ask for one. *)
Lemma token_cached_until_expiry_witness :
  let hf := ex_heap (Some ex_client) None in
  let hn := ex_heap (Some ex_client_new) None in
  let search := _search ex_world 5 ex_playlist_query SpotifySearchType.playlist true in
  spotify (snd (_get_bearer_token ex_world hn))
  = Some (mkClient "client-id" "client-secret" (Some "BQnew")
            (ex_clock 0 + inject_Z (3600 - 10))%Q)
  /\
  (spotify (snd (search hf)) = Some ex_client /\
   exists rest,
     log (snd (search hf))
     = (log hf ++ mkRequest GET ex_playlist_url (bearer_headers ex_client)
          :: rest)%list /\
     Forall (fun rq => is_grant rq = false /\ rq_headers rq = bearer_headers ex_client)
            rest)
  /\
  (exists rest,
      log (snd (search hn)) = (log hn ++ grant_request ex_world ex_client_new :: rest)%list /\
      Forall (fun rq => is_grant rq = false) rest).
Proof.
  intros hf hn search.
  destruct (token_cached_until_expiry ex_world 5 ex_playlist_query
              SpotifySearchType.playlist true hf ex_client eq_refl)
    as (_ & R & _).
  destruct (token_cached_until_expiry ex_world 5 ex_playlist_query
              SpotifySearchType.playlist true hn ex_client_new eq_refl)
    as (G & _ & S).
  split; [exact (G "BQnew" 3600 (conj eq_refl (conj eq_refl eq_refl)))|].
  split; [exact (R eq_refl eq_refl)|].
  destruct (S (or_introl eq_refl)) as (rest & L & F & _).
  exists rest. split; assumption.
Defined.

(** The example world serves its playlist in three pages. *)
Lemma ex_playlist_served :
  playlist_served ex_world ex_client
    (search_url ex_playlist_query SpotifySearchType.playlist) ex_pages.
Proof.
  exists (ex_ok (JObj [("type", JStr "playlist");
                       ("tracks", JObj [("items", ex_page 0 50);
                                        ("next", JStr ex_page2_url)])])),
         (JObj [("items", ex_page 0 50); ("next", JStr ex_page2_url)]),
         (ex_page 0 50), (JStr ex_page2_url).
  split; [intro lg; vm_compute; reflexivity|].
  do 5 (split; [reflexivity|]). split; [vm_compute; reflexivity|].
  split; [reflexivity|].
  exists ex_page2_url,
         (ex_ok (JObj [("items", ex_page 50 50); ("next", JStr ex_page3_url)])),
         (ex_page 50 50), (JStr ex_page3_url).
  split; [reflexivity|]. split; [intro lg; vm_compute; reflexivity|].
  split; [reflexivity|]. split; [vm_compute; reflexivity|].
  split; [reflexivity|]. split; [reflexivity|].
  exists ex_page3_url,
         (ex_ok (JObj [("items", ex_page 100 7); ("next", JNull)])),
         (ex_page 100 7), JNull.
  split; [reflexivity|]. split; [intro lg; vm_compute; reflexivity|].
  split; [reflexivity|]. split; [vm_compute; reflexivity|].
  split; reflexivity.
Defined.

(** The same for any client, and the playlist with gaps. *)
Lemma ex_playlist_served_to (c : SpotifyClient) :
  playlist_served ex_world c
    (search_url ex_playlist_query SpotifySearchType.playlist) ex_pages.
Proof.
  exists (ex_ok (JObj [("type", JStr "playlist");
                       ("tracks", JObj [("items", ex_page 0 50);
                                        ("next", JStr ex_page2_url)])])),
         (JObj [("items", ex_page 0 50); ("next", JStr ex_page2_url)]),
         (ex_page 0 50), (JStr ex_page2_url).
  split; [intro lg; vm_compute; reflexivity|].
  do 5 (split; [reflexivity|]). split; [vm_compute; reflexivity|].
  split; [reflexivity|].
  exists ex_page2_url,
         (ex_ok (JObj [("items", ex_page 50 50); ("next", JStr ex_page3_url)])),
         (ex_page 50 50), (JStr ex_page3_url).
  split; [reflexivity|]. split; [intro lg; vm_compute; reflexivity|].
  split; [reflexivity|]. split; [vm_compute; reflexivity|].
  split; [reflexivity|]. split; [reflexivity|].
  exists ex_page3_url,
         (ex_ok (JObj [("items", ex_page 100 7); ("next", JNull)])),
         (ex_page 100 7), JNull.
  split; [reflexivity|]. split; [intro lg; vm_compute; reflexivity|].
  split; [reflexivity|]. split; [vm_compute; reflexivity|].
  split; reflexivity.
Defined.

Lemma ex_gaps_served (c : SpotifyClient) :
  playlist_served ex_world_gaps c
    (search_url ex_playlist_query SpotifySearchType.playlist) [ex_gaps_page].
Proof.
  eexists _, _, _, _.
  split; [intro lg; vm_compute; reflexivity|].
  do 5 (split; [reflexivity|]). split; vm_compute; reflexivity.
Defined.

(** The playlist with gaps streamed without limit, with a cached token:
    the two tracks, the null items passed over; and the playlist of 50,
    50 and 7 tracks streamed with limit 10 by a client that has to ask
    for its token first. *)
Lemma pagination_stream_yields_witness :
  (exists h',
      async_for ex_world_gaps 10 5 (ex_heap (Some ex_client) None)
      = (Ret [ex_track "t0"; ex_track "t1"], h') /\
      map SpotifyTrack.raw [ex_track "t0"; ex_track "t1"]
      = filter (fun j => negb (is_null j)) (List.concat [ex_gaps_page]) /\
      _queue (stream h') = map OPayload [])
  /\
  (exists h',
      async_for ex_world 200 5 (ex_heap (Some ex_client_new) (Some 10))
      = (Ret (firstn (Z.to_nat 10) ex_tracks), h') /\
      map SpotifyTrack.raw ex_tracks
      = filter (fun j => negb (is_null j)) (List.concat ex_pages) /\
      _queue (stream h')
      = map OPayload (leftover (Z.to_nat 10) (List.concat ex_pages))).
Proof.
  split.
  - apply (pagination_stream_yields ex_world_gaps 5 10 ex_playlist_query None
             SpotifySearchType.playlist (ex_heap (Some ex_client) None)
             (set_ticks 1 (ex_heap (Some ex_client) None))
             ex_client [ex_gaps_page] [ex_track "t0"; ex_track "t1"]
             eq_refl eq_refl eq_refl (ex_gaps_served ex_client)).
    + vm_compute. reflexivity.
    + apply null_runs_within_fit. vm_compute. reflexivity.
    + simpl. lia.
    + simpl. lia.
    + intros L HL. discriminate HL.
  - set (h := ex_heap (Some ex_client_new) (Some 10)).
    set (h1 := snd (ensure_token ex_world h)).
    set (c := match spotify h1 with Some c => c | None => ex_client end).
    apply (pagination_stream_yields ex_world 5 200 ex_playlist_query (Some 10)
             SpotifySearchType.playlist h h1 c ex_pages ex_tracks).
    + vm_compute. reflexivity.
    + vm_compute. reflexivity.
    + reflexivity.
    + exact (ex_playlist_served_to c).
    + vm_compute. reflexivity.
    + apply null_runs_within_fit. vm_compute. reflexivity.
    + simpl. lia.
    + vm_compute. lia.
    + intros L HL. injection HL as <-. lia.
Defined.

(** The request errors of the example worlds: a grant answered 201, and
    a search for an id the catalog does not know, answered 404. *)
Lemma request_error_iff_not_200_witness :
  (let h := ex_heap (Some ex_client_new) None in
   let rq := grant_request ex_world_created ex_client_new in
   let run := _get_bearer_token ex_world_created h in
   spotify h = Some ex_client_new /\
   raises_for (fst run) (server ex_world_created (log h) rq) /\
   issued h (snd run) = [rq])
  /\
  (let h := ex_heap (Some ex_client) None in
   let run := _search ex_world 5 "unknown" SpotifySearchType.track false h in
   spotify h = Some ex_client /\
   raises_for (fst run) (ex_error 404 "Not Found") /\
   List.length (issued h (snd run)) = 1%nat).
Proof.
  split.
  - intros h rq run.
    destruct (request_error_iff_not_200 ex_world_created 5 ex_playlist_query
                SpotifySearchType.playlist true ex_self ex_cls_search h
                ex_client_new eq_refl) as ((I & N) & _).
    assert (Hs : status (server ex_world_created (log h) rq) <> 200)
      by (intro E; vm_compute in E; discriminate E).
    split; [reflexivity|]. split; [exact (proj2 I Hs)|exact (N Hs)].
  - intros h run.
    destruct (request_error_iff_not_200 ex_world 5 "unknown"
                SpotifySearchType.track false ex_self ex_cls_search h
                ex_client eq_refl) as (_ & S & _).
    destruct (S (set_ticks 1 h) ex_client eq_refl eq_refl) as (I & N).
    assert (Hs : status (server ex_world (log (set_ticks 1 h))
                   (mkRequest GET (search_url "unknown" SpotifySearchType.track)
                      (bearer_headers ex_client))) <> 200)
      by (intro E; vm_compute in E; discriminate E).
    split; [reflexivity|]. split; [exact (proj2 I Hs)|].
    change (issued h (snd run)) with (issued (set_ticks 1 h) (snd run)).
    fold run in N. rewrite (N Hs). reflexivity.
Defined.

(** A track link searched with entity type playlist: the request goes to
    the track endpoint. *)
Lemma search_request_url_witness :
  let h := ex_heap (Some ex_client) None in
  let h' := snd (_search ex_world 5 ex_track_link SpotifySearchType.playlist false h) in
  spotify h = Some ex_client /\
  exists url rest,
    issued h h' = mkRequest GET url (bearer_headers ex_client) :: rest /\
    url = ex_track_url.
Proof.
  intros h h'. split; [reflexivity|].
  destruct (search_request_url ex_world 5 ex_track_link SpotifySearchType.playlist
              false h ex_client eq_refl) as (url & _ & F & M).
  destruct (F eq_refl eq_refl) as (rest & E).
  exists url, rest. split; [exact E|].
  destruct (re_match URLREGEX ex_track_link) as [m|] eqn:Hm;
    [|vm_compute in Hm; discriminate Hm].
  vm_compute in Hm. injection Hm as <-.
  destruct M as (ty & id & Hty & Hid & ->).
  vm_compute in Hty. injection Hty as <-.
  vm_compute in Hid. injection Hid as <-. reflexivity.
Defined.

(** A full window: the oldest seed leaves, the id of the source track
    enters. *)
Lemma seed_window_capacity_witness :
  let h := ex_heap (Some ex_client) None in
  let seeds' :=
    _track_seeds (player (snd (SpotifyTrack_fulfill ex_world ex_self
                                 ex_cls_search true h))) in
  (List.length (_track_seeds (player h)) <= 5)%nat /\
  (List.length seeds' <= 5)%nat /\
  exists oldest rest,
    _track_seeds (player h) = oldest :: rest /\ seeds' = (rest ++ ["src"])%list.
Proof.
  intros h seeds'.
  assert (Hl : (List.length (_track_seeds (player h)) <= 5)%nat) by (simpl; lia).
  destruct (seed_window_capacity ex_world ex_self ex_cls_search true h Hl)
    as (B & F).
  split; [exact Hl|]. split; [exact B|].
  destruct (F ex_playables ex_client eq_refl eq_refl eq_refl eq_refl) as (Full & _).
  exact (Full eq_refl).
Defined.

(** The same call without and with [populate]. *)
Lemma fulfill_populates_once_witness :
  (let h := ex_heap (Some ex_client) None in
   let h' := snd (SpotifyTrack_fulfill ex_world ex_self ex_cls_search false h) in
   issued h h' = [] /\ _track_seeds (player h') = _track_seeds (player h))
  /\
  (let h := ex_heap (Some ex_client) None in
   let h' := snd (SpotifyTrack_fulfill ex_world ex_self ex_cls_search true h) in
   one_request_one_seed ex_self h h').
Proof.
  split.
  - intros h h'.
    exact (proj1 (fulfill_populates_once ex_world ex_self ex_cls_search false h)
             (or_intror eq_refl)).
  - intros h h'.
    exact (proj2 (fulfill_populates_once ex_world ex_self ex_cls_search true h)
             ex_playables ex_client eq_refl eq_refl eq_refl eq_refl).
Defined.

(** Both recommended tracks are enqueued although one is in the queue
    and the other in its history already. *)
Lemma recommendations_all_enqueued_witness :
  let h' := snd (SpotifyTrack_fulfill ex_world ex_self ex_cls_search true
                   ex_heap_played) in
  auto_queue (player h') = [ex_track "r1"; ex_track "r1"; ex_track "r2"] /\
  occurrences (ex_track "r1") (auto_queue (player h')) = 2%nat /\
  occurrences (ex_track "r2") (auto_queue (player h')) = 1%nat.
Proof.
  intros h'.
  assert (Hr : recos_of (body (server ex_world (log ex_heap_played)
                 (recommendations_request ex_client
                    (rotate_seeds (_track_seeds (player ex_heap_played))
                       (SpotifyTrack.id ex_self)))))
               = Ret [ex_track "r1"; ex_track "r2"])
    by (vm_compute; reflexivity).
  destruct (recommendations_all_enqueued ex_world ex_self ex_cls_search
              ex_playables ex_client [ex_track "r1"; ex_track "r2"]
              ex_heap_played eq_refl eq_refl eq_refl eq_refl Hr)
    as (Q & _ & O).
  split; [exact Q|]. split; rewrite O; reflexivity.
Defined.

(** Searching for the track of the example catalog. *)
Lemma search_track_is_not_a_list_witness :
  let h := ex_heap (Some ex_client) None in
  let t := ex_track "6BDLcvvtyJD2vnXRDi1IjQ" in
  fst (_search ex_world 5 ex_track_link SpotifySearchType.track false h)
  = Ret (OTrack t) /\
  fst (SpotifyTrack_search ex_world 5 ex_track_link SpotifySearchType.track true h)
  = Raise TypeError /\
  fst (SpotifyTrack_search ex_world 5 ex_track_link SpotifySearchType.track false h)
  = Ret (OTrack t).
Proof.
  intros h t.
  apply (search_track_is_not_a_list ex_world 5 ex_track_link h
           (set_ticks 1 h) ex_client t);
    vm_compute; reflexivity.
Defined.

(* ================================================================== *)
(** ** Further properties: building a track *)

Lemma obind_ret {A B} (o : outcome A) (k : A -> outcome B) (b : B) :
  obind o k = Ret b -> exists a, o = Ret a /\ k a = Ret b.
Proof. destruct o; simpl; try discriminate. eauto. Qed.

Lemma as_str_ret (v : json) (s : string) : as_str v = Ret s -> v = JStr s.
Proof. destruct v; simpl; try discriminate. now intros [= ->]. Qed.

Lemma as_int_ret (v : json) (n : Z) : as_int v = Ret n -> v = JNum n.
Proof. destruct v; simpl; try discriminate. now intros [= ->]. Qed.

(** A comprehension [[x[k] for x in l]] over strings that succeeds has
    read the string [x[k]] of every element, in order. *)
Lemma omap_member_str (k : string) (l : list json) (us : list string) :
  omap (fun x => obind (getitem x k) as_str) l = Ret us ->
  map (fun x => getitem x k) l = map (fun u => Ret (JStr u)) us.
Proof.
  revert us. induction l as [|x l IH]; intros us H; simpl in H.
  - injection H as <-. reflexivity.
  - apply obind_ret in H. destruct H as (u & Hx & H).
    apply obind_ret in H. destruct H as (us' & Hl & H). injection H as <-.
    apply obind_ret in Hx. destruct Hx as (v & Hv & Hs).
    apply as_str_ret in Hs. subst v. simpl. rewrite Hv, (IH us' Hl). reflexivity.
Qed.

(** X1. A track that builds holds what its payload holds: the payload
    itself as [raw], the name of the album and the URLs of its images, the
    names of the artists, the name (also as [title]), the URI, the id, the
    duration in milliseconds (also as [duration]), and the ISRC of
    [external_ids], [None] when that dict has none. *)
Theorem track_fields_from_payload (data : json) (t : SpotifyTrack.t) :
  SpotifyTrack.__init__ data = Ret t ->
  SpotifyTrack.raw t = data /\
  (exists album images,
      getitem data "album" = Ret album /\
      getitem album "name" = Ret (JStr (SpotifyTrack.album t)) /\
      (i <- getitem album "images" ;; iter i)%outcome = Ret images /\
      map (fun i => getitem i "url") images
      = map (fun u => Ret (JStr u)) (SpotifyTrack.images t)) /\
  (exists artists,
      (a <- getitem data "artists" ;; iter a)%outcome = Ret artists /\
      map (fun a => getitem a "name") artists
      = map (fun n => Ret (JStr n)) (SpotifyTrack.artists t)) /\
  getitem data "name" = Ret (JStr (SpotifyTrack.name t)) /\
  SpotifyTrack.title t = SpotifyTrack.name t /\
  getitem data "uri" = Ret (JStr (SpotifyTrack.uri t)) /\
  getitem data "id" = Ret (JStr (SpotifyTrack.id t)) /\
  getitem data "duration_ms" = Ret (JNum (SpotifyTrack.length t)) /\
  SpotifyTrack.duration t = SpotifyTrack.length t /\
  (exists ids,
      getitem data "external_ids" = Ret ids /\
      dict_get ids "isrc" = Ret (match SpotifyTrack.isrc t with
                                 | Some s => JStr s
                                 | None => JNull
                                 end)).
Proof.
  intros H. unfold SpotifyTrack.__init__ in H.
  apply obind_ret in H. destruct H as (album & Ha & H).
  apply obind_ret in H. destruct H as (an & Han & H).
  apply obind_ret in Han. destruct Han as (v & Hv & Hs). apply as_str_ret in Hs. subst v.
  apply obind_ret in H. destruct H as (imgs & Hi & H).
  apply obind_ret in Hi. destruct Hi as (il & Hil & Hi).
  apply obind_ret in Hi. destruct Hi as (il' & Hil' & Hi).
  apply omap_member_str in Hi.
  apply obind_ret in H. destruct H as (ar & Har & H).
  apply obind_ret in H. destruct H as (ans & Hans & H).
  apply obind_ret in Hans. destruct Hans as (al & Hal & Hans).
  apply omap_member_str in Hans.
  apply obind_ret in H. destruct H as (n & Hn & H).
  apply obind_ret in Hn. destruct Hn as (v & Hv' & Hs). apply as_str_ret in Hs. subst v.
  apply obind_ret in H. destruct H as (u & Hu & H).
  apply obind_ret in Hu. destruct Hu as (v & Hu & Hs). apply as_str_ret in Hs. subst v.
  apply obind_ret in H. destruct H as (i & Hid & H).
  apply obind_ret in Hid. destruct Hid as (v & Hid & Hs). apply as_str_ret in Hs. subst v.
  apply obind_ret in H. destruct H as (len & Hlen & H).
  apply obind_ret in Hlen. destruct Hlen as (v & Hlen & Hs). apply as_int_ret in Hs. subst v.
  apply obind_ret in H. destruct H as (isrc & Hisrc & H).
  apply obind_ret in Hisrc. destruct Hisrc as (ids & Hids & Hisrc).
  apply obind_ret in Hisrc. destruct Hisrc as (v & Hget & Hs).
  injection H as <-. simpl.
  split; [reflexivity|]. split.
  { exists album, il'. rewrite Hil. simpl. auto. }
  split.
  { exists al. rewrite Har. simpl. auto. }
  repeat (split; [assumption || reflexivity|]).
  exists ids. split; [assumption|].
  rewrite Hget. destruct v; simpl in Hs; try discriminate; now injection Hs as <-.
Qed.

Lemma getitem_ret_assoc (kvs : list (string * json)) (k : string) (v : json) :
  getitem (JObj kvs) k = Ret v -> assoc k kvs <> None.
Proof. simpl. destruct (assoc k kvs); [discriminate|discriminate]. Qed.

Lemma init_reads_keys (kvs : list (string * json)) (t : SpotifyTrack.t) :
  SpotifyTrack.__init__ (JObj kvs) = Ret t ->
  Forall (fun k => assoc k kvs <> None) required_keys.
Proof.
  intros H. unfold SpotifyTrack.__init__ in H.
  apply obind_ret in H. destruct H as (album & Ha & H).
  apply obind_ret in H. destruct H as (an & _ & H).
  apply obind_ret in H. destruct H as (imgs & _ & H).
  apply obind_ret in H. destruct H as (ar & Har & H).
  apply obind_ret in H. destruct H as (ans & _ & H).
  apply obind_ret in H. destruct H as (n & Hn & H).
  apply obind_ret in Hn. destruct Hn as (v1 & Hn & _).
  apply obind_ret in H. destruct H as (u & Hu & H).
  apply obind_ret in Hu. destruct Hu as (v2 & Hu & _).
  apply obind_ret in H. destruct H as (i & Hid & H).
  apply obind_ret in Hid. destruct Hid as (v3 & Hid & _).
  apply obind_ret in H. destruct H as (len & Hlen & H).
  apply obind_ret in Hlen. destruct Hlen as (v4 & Hlen & _).
  apply obind_ret in H. destruct H as (isrc & Hisrc & H).
  apply obind_ret in Hisrc. destruct Hisrc as (ids & Hids & _).
  unfold required_keys.
  repeat (constructor; [eapply getitem_ret_assoc; eassumption|]).
  constructor.
Qed.

(** X2. A payload that is not a dict makes the constructor raise
    [TypeError]; a dict without [album] makes it raise [KeyError] for
    that key; and a dict that lacks any of the keys the constructor
    subscripts never builds a track. A missing [isrc] in [external_ids]
    is no obstacle. *)
Theorem track_needs_its_keys :
  (forall data, (forall kvs, data <> JObj kvs) ->
                SpotifyTrack.__init__ data = Raise TypeError)
  /\
  (forall kvs, assoc "album" kvs = None ->
               SpotifyTrack.__init__ (JObj kvs) = Raise (KeyError "album"))
  /\
  (forall kvs k t,
      In k required_keys -> assoc k kvs = None ->
      SpotifyTrack.__init__ (JObj kvs) <> Ret t)
  /\
  (forall data t ids,
      SpotifyTrack.__init__ data = Ret t ->
      getitem data "external_ids" = Ret (JObj ids) ->
      assoc "isrc" ids = None -> SpotifyTrack.isrc t = None).
Proof.
  split; [|split; [|split]].
  - intros data Hd. unfold SpotifyTrack.__init__.
    destruct data; try reflexivity. now destruct (Hd kvs).
  - intros kvs Hk. unfold SpotifyTrack.__init__. simpl. now rewrite Hk.
  - intros kvs k t Hin Hk Hb. apply init_reads_keys in Hb.
    rewrite Forall_forall in Hb. now apply (Hb k Hin).
  - intros data t ids Hb He Hi. unfold SpotifyTrack.__init__ in Hb.
    repeat (apply obind_ret in Hb; destruct Hb as (? & ? & Hb)).
    injection Hb as <-. simpl.
    match goal with
    | H : obind (getitem data "external_ids") _ = Ret _ |- _ =>
        rewrite He in H; simpl in H; rewrite Hi in H; simpl in H;
        now injection H as <-
    end.
Qed.

(** The example payload builds, and stops building once a key is taken
    away. *)
Lemma track_needs_its_keys_witness :
  SpotifyTrack.isrc
    (ex_track "a") = Some "USRC17607839" /\
  SpotifyTrack.__init__ (JObj [("name", JStr "Song")]) = Raise (KeyError "album") /\
  SpotifyTrack.__init__
    (JObj [("album", JObj [("name", JStr "A"); ("images", JArr [])]);
           ("artists", JArr []); ("name", JStr "Song"); ("uri", JStr "u");
           ("duration_ms", JNum 1); ("external_ids", JObj [])])
  <> Ret (ex_track "a").
Proof.
  destruct track_needs_its_keys as (_ & A & K & _).
  split; [reflexivity|]. split; [apply A; reflexivity|].
  apply (K _ "id"); [simpl; tauto|reflexivity].
Defined.

(** The example payload and the track it builds. *)
Lemma track_fields_from_payload_witness :
  SpotifyTrack.__init__ (ex_track_payload "a") = Ret (ex_track "a") /\
  SpotifyTrack.raw (ex_track "a") = ex_track_payload "a" /\
  getitem (ex_track_payload "a") "id" = Ret (JStr (SpotifyTrack.id (ex_track "a"))).
Proof.
  assert (H : SpotifyTrack.__init__ (ex_track_payload "a") = Ret (ex_track "a"))
    by reflexivity.
  destruct (track_fields_from_payload _ _ H) as (R & _ & _ & _ & _ & _ & I & _).
  split; [exact H|]. split; [exact R|exact I].
Defined.

(* ================================================================== *)
(** ** Further properties: albums *)

Lemma init_album (d : json) (t : SpotifyTrack.t) :
  SpotifyTrack.__init__ d = Ret t ->
  exists album,
    getitem d "album" = Ret album /\
    getitem album "name" = Ret (JStr (SpotifyTrack.album t)).
Proof.
  intros H. unfold SpotifyTrack.__init__ in H.
  apply obind_ret in H. destruct H as (album & Ha & H).
  apply obind_ret in H. destruct H as (an & Han & H).
  apply obind_ret in Han. destruct Han as (v & Hv & Hs). apply as_str_ret in Hs. subst v.
  repeat (apply obind_ret in H; destruct H as (? & _ & H)).
  injection H as <-. simpl. eauto.
Qed.

(** The dict built from the keys [keys] of [data]. *)
Lemma omap_pick (data : json) (keys : list string) (ad : list (string * json)) :
  omap (fun k => obind (getitem data k) (fun v => Ret (k, v))) keys = Ret ad ->
  map fst ad = keys /\
  forall k v, assoc k ad = Some v -> getitem data k = Ret v.
Proof.
  revert ad. induction keys as [|k0 keys IH]; intros ad H; simpl in H.
  - injection H as <-. split; [reflexivity|]. intros k v Hk. discriminate.
  - apply obind_ret in H. destruct H as (kv & Hkv & H).
    apply obind_ret in H. destruct H as (ad' & Had & H). injection H as <-.
    apply obind_ret in Hkv. destruct Hkv as (v0 & Hv0 & Hkv). injection Hkv as <-.
    destruct (IH ad' Had) as (Hf & Hl). split; [simpl; now rewrite Hf|].
    intros k v Hk. simpl in Hk. destruct (String.eqb_spec k k0) as [->|].
    + now injection Hk as <-.
    + now apply Hl.
Qed.

Lemma getitem_setitem (d d' : json) (k : string) (v : json) :
  setitem d k v = Ret d' -> getitem d' k = Ret v.
Proof.
  destruct d; simpl; try discriminate. intros [= <-]. simpl.
  now rewrite assoc_set_same.
Qed.

Lemma omap_length {A B} (f : A -> outcome B) (l : list A) (l' : list B) :
  omap f l = Ret l' -> List.length l' = List.length l.
Proof.
  revert l'. induction l as [|x l IH]; intros l' H; simpl in H.
  - now injection H as <-.
  - apply obind_ret in H. destruct H as (y & _ & H).
    apply obind_ret in H. destruct H as (ys & Hys & H). injection H as <-.
    simpl. now rewrite (IH ys Hys).
Qed.

Lemma omap_Forall {A B} (f : A -> outcome B) (Q : B -> Prop) (l : list A)
  (l' : list B) :
  (forall x y, f x = Ret y -> Q y) -> omap f l = Ret l' -> Forall Q l'.
Proof.
  intros Hf. revert l'. induction l as [|x l IH]; intros l' H; simpl in H.
  - injection H as <-. constructor.
  - apply obind_ret in H. destruct H as (y & Hy & H).
    apply obind_ret in H. destruct H as (ys & Hys & H). injection H as <-.
    constructor; eauto.
Qed.

Lemma omap_Forall2 {A B} (f : A -> outcome B) (l : list A) (l' : list B) :
  omap f l = Ret l' -> Forall2 (fun x y => f x = Ret y) l l'.
Proof.
  revert l'. induction l as [|x l IH]; intros l' H; simpl in H.
  - injection H as <-. constructor.
  - apply obind_ret in H. destruct H as (y & Hy & H).
    apply obind_ret in H. destruct H as (ys & Hys & H). injection H as <-.
    constructor; auto.
Qed.

(** A comprehension whose body does two things in a row can be read as
    two comprehensions in a row. *)
Lemma omap_obind {A B C} (f : A -> outcome B) (g : B -> outcome C)
  (l : list A) (l' : list C) :
  omap (fun x => obind (f x) g) l = Ret l' ->
  exists m, omap f l = Ret m /\ omap g m = Ret l'.
Proof.
  revert l'. induction l as [|x l IH]; intros l' H; simpl in H.
  - injection H as <-. exists []. split; reflexivity.
  - apply obind_ret in H. destruct H as (z & Hz & H).
    apply obind_ret in H. destruct H as (zs & Hzs & H). injection H as <-.
    apply obind_ret in Hz. destruct Hz as (y & Hy & Hg).
    destruct (IH zs Hzs) as (m & Hm & Hgm).
    exists (y :: m). simpl. rewrite Hy. simpl. rewrite Hm. simpl.
    rewrite Hg. simpl. rewrite Hgm. split; reflexivity.
Qed.

Lemma setitem_with_album (ad : list (string * json)) (item payload : json) :
  setitem item "album" (JObj ad) = Ret payload -> with_album ad item payload.
Proof.
  intros H. split; [exact (getitem_setitem _ _ _ _ H)|].
  intros k Hk. destruct item; simpl in H; try discriminate.
  injection H as <-. simpl. rewrite assoc_set_other; [reflexivity|].
  now apply String.eqb_neq.
Qed.

(** X3. A search whose token stage has succeeded and whose catalog
    response is a 200 that declares type album issues that one request and
    no other, whatever the album lists as next page. When it returns, it
    returns one entry per item of the response, in the order of the
    items: in iterator mode the k-th entry is the k-th item with its
    [album] member set to a dict of the thirteen album keys, each holding
    the value the response has for that key; otherwise the k-th entry is
    the track built from that payload, and it carries the name of the
    album. *)
Theorem album_search_attaches_album (W : World) (fuel : nat) (query : string)
  (type : SpotifySearchType.t) (iterator : bool) (h h1 : Heap)
  (c : SpotifyClient) :
  ensure_token W h = (Ret tt, h1) -> spotify h1 = Some c ->
  let rq := mkRequest GET (search_url query type) (bearer_headers c) in
  let data := body (server W (log h1) rq) in
  status (server W (log h1) rq) = 200 ->
  getitem data "type" = Ret (JStr "album") ->
  let run := _search W fuel query type iterator h in
  issued h1 (snd run) = [rq] /\
  forall r, fst run = Ret r ->
    exists items payloads album_data,
      (ts <- getitem data "tracks" ;; v <- getitem ts "items" ;; iter v)%outcome
      = Ret items /\
      map fst album_data = album_keys /\
      (forall k v, assoc k album_data = Some v -> getitem data k = Ret v) /\
      Forall2 (with_album album_data) items payloads /\
      (iterator = true -> r = OPayloads payloads) /\
      (iterator = false ->
       exists tracks,
         r = OTracks tracks /\
         Forall2 (fun p t => SpotifyTrack.__init__ p = Ret t) payloads tracks /\
         Forall (fun t => getitem data "name" = Ret (JStr (SpotifyTrack.album t)))
                tracks).
Proof.
  intros Het Hc rq data Hs Hty run.
  assert (E : run = normalize W fuel iterator data (set_log (log h1 ++ [rq]) h1)).
  { subst run. rewrite (search_after_token W fuel query type iterator h h1 Het).
    pose proof (fetch_cases W c fuel query type iterator h1 Hc) as F.
    cbv zeta in F. fold rq in F. rewrite Hs in F. simpl in F. exact F. }
  rewrite E. unfold normalize, bind, lift. rewrite Hty.
  remember album_keys as keys eqn:Hk. simpl.
  match goal with
  | |- context [omap ?f keys] =>
      destruct (omap f keys) as [ad| | |] eqn:Had
  end; simpl;
    try (split; [now apply issued_app|intros r Hr; discriminate Hr]).
  match goal with
  | |- context [obind (getitem data "tracks") ?k] =>
      destruct (obind (getitem data "tracks") k) as [items| | |] eqn:Hit
  end; simpl;
    try (split; [now apply issued_app|intros r Hr; discriminate Hr]).
  destruct (omap_pick data keys ad Had) as (Hkeys & Hvals).
  assert (Hwith : forall ps,
             omap (fun track => setitem track "album" (JObj ad)) items = Ret ps ->
             Forall2 (with_album ad) items ps).
  { intros ps Hps. apply omap_Forall2 in Hps.
    eapply Forall2_impl; [|exact Hps]. intros x y. apply setitem_with_album. }
  destruct iterator.
  - match goal with
    | |- context [omap ?f items] => destruct (omap f items) as [ps| | |] eqn:Hps
    end; simpl;
      (split; [now apply issued_app|intros r Hr; try discriminate Hr]).
    injection Hr as <-. exists items, ps, ad.
    repeat split; auto. discriminate.
  - match goal with
    | |- context [omap ?f items] => destruct (omap f items) as [ts| | |] eqn:Hts
    end; simpl;
      (split; [now apply issued_app|intros r Hr; try discriminate Hr]).
    injection Hr as <-.
    destruct (omap_obind _ _ _ _ Hts) as (ps & Hps & Hbuild).
    exists items, ps, ad.
    split; [reflexivity|]. split; [exact Hkeys|]. split; [exact Hvals|].
    split; [now apply Hwith|]. split; [discriminate|intros _].
    exists ts. split; [reflexivity|].
    split; [now apply omap_Forall2|].
    eapply omap_Forall; [|exact Hts]. intros x t Hx. simpl in Hx.
    apply obind_ret in Hx. destruct Hx as (x' & Hset & Hinit).
    apply getitem_setitem in Hset.
    destruct (init_album x' t Hinit) as (album & Ha & Hn).
    rewrite Hset in Ha. injection Ha as <-.
    apply Hvals. simpl in Hn. destruct (assoc "name" ad); [|discriminate].
    now injection Hn as ->.
Qed.

(** An album link searched with entity type track: one request, three
    tracks, the k-th with the id of the k-th item of the album and each
    with the name of the album. *)
Lemma album_search_attaches_album_witness :
  let h := ex_heap (Some ex_client) None in
  let run := _search ex_world_album 5 ex_album_link SpotifySearchType.track
               false h in
  issued (set_ticks 1 h) (snd run)
  = [mkRequest GET ex_album_url (bearer_headers ex_client)] /\
  fst run = Ret (OTracks ex_album_tracks) /\
  map SpotifyTrack.id ex_album_tracks = map ex_id (seq 0 3) /\
  Forall (fun t => getitem ex_album_payload "name"
                   = Ret (JStr (SpotifyTrack.album t))) ex_album_tracks.
Proof.
  intros h run.
  destruct (album_search_attaches_album ex_world_album 5 ex_album_link
              SpotifySearchType.track false h (set_ticks 1 h) ex_client
              eq_refl eq_refl eq_refl eq_refl) as (I & R).
  assert (Hr : fst run = Ret (OTracks ex_album_tracks)) by (vm_compute; reflexivity).
  destruct (R _ Hr) as (items & ps & ad & _ & _ & _ & _ & _ & F).
  destruct (F eq_refl) as (tracks & Ht & _ & Hall). injection Ht as <-.
  split; [exact I|]. split; [exact Hr|]. split; [reflexivity|exact Hall].
Defined.

(* ================================================================== *)
(** ** Further properties: the other branches of a search *)

(** The run of a search after its token stage, on a 200 response. *)
Lemma search_normalizes (W : World) (fuel : nat) (query : string)
  (type : SpotifySearchType.t) (iterator : bool) (h h1 : Heap)
  (c : SpotifyClient) :
  ensure_token W h = (Ret tt, h1) -> spotify h1 = Some c ->
  let rq := mkRequest GET (search_url query type) (bearer_headers c) in
  status (server W (log h1) rq) = 200 ->
  _search W fuel query type iterator h
  = normalize W fuel iterator (body (server W (log h1) rq))
      (set_log (log h1 ++ [rq]) h1).
Proof.
  intros Het Hc rq Hs.
  rewrite (search_after_token W fuel query type iterator h h1 Het).
  pose proof (fetch_cases W c fuel query type iterator h1 Hc) as F.
  cbv zeta in F. fold rq in F. rewrite Hs in F. exact F.
Qed.

(** X4. Outside iterator mode, a search whose catalog response is a 200
    that declares type playlist issues that one request and no other,
    whatever cursor the response names, and builds its tracks from the
    items of that page themselves, not from their [track] members: when
    the first item is a dict without [album], the search raises
    [KeyError] for that key. *)
Theorem playlist_search_reads_first_page_only (W : World) (fuel : nat)
  (query : string) (type : SpotifySearchType.t) (h h1 : Heap)
  (c : SpotifyClient) :
  ensure_token W h = (Ret tt, h1) -> spotify h1 = Some c ->
  let rq := mkRequest GET (search_url query type) (bearer_headers c) in
  let data := body (server W (log h1) rq) in
  status (server W (log h1) rq) = 200 ->
  getitem data "type" = Ret (JStr "playlist") ->
  let run := _search W fuel query type false h in
  let items :=
    (ts <- getitem data "tracks" ;; v <- getitem ts "items" ;; iter v)%outcome in
  issued h1 (snd run) = [rq] /\
  fst run = (l <- items ;; ts <- omap SpotifyTrack.__init__ l ;;
             Ret (OTracks ts))%outcome /\
  (forall kvs rest,
      items = Ret (JObj kvs :: rest) -> assoc "album" kvs = None ->
      fst run = Raise (KeyError "album")).
Proof.
  intros Het Hc rq data Hs Hty run items.
  assert (E : run = normalize W fuel false data (set_log (log h1 ++ [rq]) h1))
    by (now apply search_normalizes).
  assert (R : run = ((l <- items ;; ts <- omap SpotifyTrack.__init__ l ;;
                      Ret (OTracks ts))%outcome,
                     set_log (log h1 ++ [rq]) h1)).
  { rewrite E. unfold normalize, bind, lift. rewrite Hty. simpl.
    fold items. destruct items as [l| | |]; simpl; try reflexivity.
    destruct (omap SpotifyTrack.__init__ l); reflexivity. }
  rewrite R. simpl. split; [now apply issued_app|]. split; [reflexivity|].
  intros kvs rest Hi Hk. rewrite Hi. simpl.
  unfold SpotifyTrack.__init__ at 1. simpl. rewrite Hk. reflexivity.
Qed.

(** The example playlist searched outside iterator mode. *)
Lemma playlist_search_reads_first_page_only_witness :
  let h := ex_heap (Some ex_client) None in
  let run := _search ex_world 5 ex_playlist_query SpotifySearchType.playlist
               false h in
  issued (set_ticks 1 h) (snd run)
  = [mkRequest GET ex_playlist_url (bearer_headers ex_client)] /\
  fst run = Raise (KeyError "album").
Proof.
  intros h run.
  destruct (playlist_search_reads_first_page_only ex_world 5 ex_playlist_query
              SpotifySearchType.playlist h (set_ticks 1 h) ex_client
              eq_refl eq_refl eq_refl eq_refl) as (I & _ & K).
  split; [exact I|].
  apply (K [("added_at", JStr "2020-01-01T00:00:00Z");
            ("track", ex_track_payload (ex_id 0))]
           (map ex_item (seq 1 49))); reflexivity.
Defined.

(** X5. A search whose catalog response is a 200 that declares a type
    other than track, album and playlist returns [None] after that one
    request; [SpotifyTrack.search] then returns [None] as well, or raises
    [TypeError] when it subscripts it (entity type track with
    [return_first]). *)
Theorem search_of_other_type_returns_none (W : World) (fuel : nat)
  (query : string) (type : SpotifySearchType.t) (iterator return_first : bool)
  (h h1 : Heap) (c : SpotifyClient) (ty : json) :
  ensure_token W h = (Ret tt, h1) -> spotify h1 = Some c ->
  let rq := mkRequest GET (search_url query type) (bearer_headers c) in
  let data := body (server W (log h1) rq) in
  status (server W (log h1) rq) = 200 ->
  getitem data "type" = Ret ty ->
  eq_str ty "track" = false -> eq_str ty "album" = false ->
  eq_str ty "playlist" = false ->
  _search W fuel query type iterator h
  = (Ret ONone, set_log (log h1 ++ [rq]) h1) /\
  fst (SpotifyTrack_search W fuel query type return_first h)
  = if SpotifySearchType.eqb type SpotifySearchType.track && return_first
    then Raise TypeError else Ret ONone.
Proof.
  intros Het Hc rq data Hs Hty Ht Ha Hp.
  assert (E : forall it, _search W fuel query type it h
                         = (Ret ONone, set_log (log h1 ++ [rq]) h1)).
  { intros it. rewrite (search_normalizes W fuel query type it h h1 c Het Hc Hs).
    fold rq. fold data. unfold normalize, bind, lift. rewrite Hty. simpl.
    rewrite Ht, Ha, Hp. reflexivity. }
  split; [apply E|].
  unfold SpotifyTrack_search, bind.
  destruct (SpotifySearchType.eqb type SpotifySearchType.track); simpl;
    rewrite E; [|reflexivity].
  destruct return_first; reflexivity.
Qed.

(** An artist link: the artists endpoint is asked, and the search returns
    [None]. *)
Lemma search_of_other_type_returns_none_witness :
  let h := ex_heap (Some ex_client) None in
  decode_url ex_artist_link
  = Some (mkIdentifier SpotifySearchType.unusable (Some "0OdUWJ0sBjDrqHygGUXeCF")) /\
  _search ex_world_artist 5 ex_artist_link SpotifySearchType.track false h
  = (Ret ONone,
     set_log [mkRequest GET ex_artist_url (bearer_headers ex_client)]
       (set_ticks 1 h)) /\
  fst (SpotifyTrack_search ex_world_artist 5 ex_artist_link
         SpotifySearchType.track true h) = Raise TypeError.
Proof.
  intros h. split; [vm_compute; reflexivity|].
  exact (search_of_other_type_returns_none ex_world_artist 5 ex_artist_link
           SpotifySearchType.track false true h (set_ticks 1 h) ex_client
           (JStr "artist") eq_refl eq_refl eq_refl eq_refl eq_refl eq_refl eq_refl).
Defined.

(* ================================================================== *)
(** ** Further properties: pulls on the stream *)

(** The exceptions of the operations on payloads are [KeyError],
    [TypeError], [AttributeError] and [IndexError]: an exception that
    [bad] leaves aside is not raised by them. *)
Section Raises.

Variable bad : exn -> bool.
Hypothesis bad_key : forall k, bad (KeyError k) = false.
Hypothesis bad_type : bad TypeError = false.
Hypothesis bad_attribute : bad AttributeError = false.

Lemma raises_obind {A B} (o : outcome A) (k : A -> outcome B) :
  raises bad o = false -> (forall a, raises bad (k a) = false) ->
  raises bad (obind o k) = false.
Proof. destruct o; simpl; auto. Qed.

Lemma raises_omap {A B} (f : A -> outcome B) (l : list A) :
  (forall a, raises bad (f a) = false) -> raises bad (omap f l) = false.
Proof.
  intros Hf. induction l as [|x l IH]; simpl; auto.
  apply raises_obind; auto. intros y. apply raises_obind; auto.
Qed.

Lemma raises_getitem (d : json) (k : string) : raises bad (getitem d k) = false.
Proof. destruct d; simpl; auto. destruct (assoc k kvs); simpl; auto. Qed.

Lemma raises_dict_get (d : json) (k : string) : raises bad (dict_get d k) = false.
Proof. destruct d; simpl; auto. destruct (assoc k kvs); simpl; auto. Qed.

Lemma raises_iter (v : json) : raises bad (iter v) = false.
Proof. destruct v; simpl; auto. Qed.

Lemma raises_as_str (v : json) : raises bad (as_str v) = false.
Proof. destruct v; simpl; auto. Qed.

Lemma raises_as_int (v : json) : raises bad (as_int v) = false.
Proof. destruct v; simpl; auto. Qed.

Lemma raises_as_opt_str (v : json) : raises bad (as_opt_str v) = false.
Proof. destruct v; simpl; auto. Qed.

Lemma raises_init (data : json) :
  raises bad (SpotifyTrack.__init__ data) = false.
Proof.
  unfold SpotifyTrack.__init__.
  repeat first
    [ apply raises_obind; [|intro]
    | apply raises_omap; intro
    | apply raises_getitem | apply raises_dict_get | apply raises_iter
    | apply raises_as_str | apply raises_as_int | apply raises_as_opt_str
    | reflexivity ].
Qed.

Lemma raises_construct (x : pyobj) : raises bad (construct x) = false.
Proof. destruct x; simpl; auto using raises_init. Qed.

End Raises.

Lemma construct_never_stops (x : pyobj) :
  construct x <> Raise StopAsyncIteration.
Proof.
  intros H.
  pose proof (raises_construct is_stop (fun _ => eq_refl) eq_refl eq_refl x) as R.
  rewrite H in R. discriminate R.
Qed.

(** A stream that has stopped stops again, in the same state. *)
Lemma take_stop_again (q : list pyobj) :
  forall d d' self self',
    take d self q = (Raise StopAsyncIteration, self') ->
    take d' self' (_queue self') = (Raise StopAsyncIteration, self').
Proof.
  induction q as [|x q IH]; intros d d' self self' H; simpl in H.
  - destruct (limit_reached self) eqn:Hr; injection H as <-; simpl;
      change (limit_reached (with_queue self [])) with (limit_reached self);
      rewrite Hr; reflexivity.
  - destruct (limit_reached self) eqn:Hr.
    + injection H as <-. simpl.
      change (limit_reached (with_queue self (x :: q))) with (limit_reached self).
      rewrite Hr. reflexivity.
    + destruct (is_none x).
      * destruct d as [|d0]; [discriminate|]. now apply IH with d0 self.
      * destruct (construct x) as [t|e| |] eqn:Hc; try discriminate.
        injection H as -> _. now destruct (construct_never_stops x).
Qed.

(** What a pull that yields a track has done to the iterator. *)
Lemma take_yields (q : list pyobj) :
  forall d self self' t,
    take d self q = (Ret t, self') ->
    exists skipped j,
      q = (skipped ++ OPayload j :: _queue self')%list /\
      forallb is_none skipped = true /\ is_null j = false /\
      SpotifyTrack.__init__ j = Ret t /\
      _count self' = _count self + 1 /\ limit_reached self = false /\
      _limit self' = _limit self /\ _first self' = _first self.
Proof.
  induction q as [|x q IH]; intros d self self' t H; simpl in H.
  - destruct (limit_reached self); discriminate.
  - destruct (limit_reached self) eqn:Hr; [discriminate|].
    destruct (is_none x) eqn:Hn.
    + destruct d as [|d0]; [discriminate|].
      destruct (IH d0 self self' t H)
        as (sk & j & -> & Hs & Hj & Hb & Hc & _ & Hl & Hf).
      exists (x :: sk), j. simpl. rewrite Hn, Hs. auto 10.
    + destruct (construct x) as [t'|e| |] eqn:Hc; try discriminate.
      injection H as -> <-. simpl.
      destruct x as [ | | | |j]; simpl in Hc; try discriminate.
      exists [], j. simpl. repeat split; auto.
Qed.

(** A pull leaves [_first] as it finds it. *)
Lemma take_first (q : list pyobj) :
  forall d self, _first (snd (take d self q)) = _first self.
Proof.
  induction q as [|x q IH]; intros d self; simpl.
  - destruct (limit_reached self); reflexivity.
  - destruct (limit_reached self); [reflexivity|].
    destruct (is_none x); [destruct d; [reflexivity|apply IH]|].
    destruct (construct x); reflexivity.
Qed.

(** X6. A pull on a stream whose buffer is filled touches neither the
    network nor the client, the player or the clock. When it yields a
    track, it has dropped the [None] items at the head of the buffer,
    built the track from the item after them and removed that item as
    well, and counted one more track; the limit was not reached before.
    When it stops the iteration, every later pull stops it again and
    leaves the heap as it is. *)
Theorem pull_on_filled_stream (W : World) (fuel : nat) (h : Heap) :
  _first (stream h) = false ->
  let run := __anext__ W fuel h in
  (log (snd run) = log h /\ spotify (snd run) = spotify h /\
   player (snd run) = player h /\ ticks (snd run) = ticks h) /\
  (forall t, fst run = Ret t ->
     exists skipped j,
       _queue (stream h)
       = (skipped ++ OPayload j :: _queue (stream (snd run)))%list /\
       forallb is_none skipped = true /\ is_null j = false /\
       SpotifyTrack.__init__ j = Ret t /\
       _count (stream (snd run)) = _count (stream h) + 1 /\
       limit_reached (stream h) = false) /\
  (fst run = Raise StopAsyncIteration ->
   forall fuel', __anext__ W fuel' (snd run)
                 = (Raise StopAsyncIteration, snd run)).
Proof.
  intros Hf run. subst run. rewrite (anext_buffered W fuel h Hf). simpl.
  split; [auto|]. split.
  - intros t Ht.
    destruct (take (recursion_room W) (stream h) (_queue (stream h)))
      as [r it'] eqn:E.
    simpl in Ht. subst r.
    destruct (take_yields _ _ _ _ _ E) as (sk & j & Hq & Hs & Hj & Hb & Hc & Hr & _).
    exists sk, j. simpl. auto 10.
  - intros Hs fuel'.
    pose proof (take_first (_queue (stream h)) (recursion_room W) (stream h)) as Hf'.
    destruct (take (recursion_room W) (stream h) (_queue (stream h)))
      as [r it'] eqn:E.
    simpl in Hs, Hf'. subst r. simpl. rewrite Hf in Hf'.
    rewrite (anext_buffered W fuel' (set_stream it' h) Hf'). simpl.
    rewrite (take_stop_again _ _ (recursion_room W) _ _ E). reflexivity.
Qed.

(** X7. A first pull whose search fails, or returns something that is not
    a list (a single track, or [None]), raises without yielding and
    leaves the iterator as it was, still to be filled by the next pull:
    the requests and the token are those of the failed search. *)
Theorem failed_first_pull_leaves_stream_unfilled (W : World) (fuel : nat)
  (h : Heap) :
  _first (stream h) = true ->
  let search :=
    _search W fuel (_query (stream h)) (_type (stream h)) true h in
  (forall l, obind (fst search) elements <> Ret l) ->
  let run := __anext__ W fuel h in
  stream (snd run) = stream h /\
  (forall t, fst run <> Ret t) /\
  (fst search = Ret ONone \/ (exists t, fst search = Ret (OTrack t)) ->
   fst run = Raise TypeError) /\
  (forall e, fst search = Raise e -> fst run = Raise e) /\
  log (snd run) = log (snd search) /\ spotify (snd run) = spotify (snd search).
Proof.
  intros Hf search Hno run.
  pose proof (search_frame W fuel (_query (stream h)) (_type (stream h)) true h) as F.
  cbv zeta in F. fold search in F. destruct F as [_ F].
  subst run. unfold __anext__, fill_queue, bind, get_stream, lift.
  rewrite Hf. fold search.
  destruct search as [[r|e| |] h1]; simpl in *.
  - destruct (elements r) as [l|e| |] eqn:He; simpl;
      [now destruct (Hno l)| | |];
      (split; [assumption|]; split; [intros t; discriminate|];
       split; [intros [H|(t & H)]; injection H as ->; simpl in He;
               first [now injection He as <- | discriminate He]|];
       split; [intros e' H; discriminate H|]; split; reflexivity).
  - split; [assumption|]. split; [intros t; discriminate|].
    split; [intros [H|(t & H)]; discriminate H|].
    split; [intros e' H; injection H as ->; reflexivity|]. split; reflexivity.
  - split; [assumption|]. split; [intros t; discriminate|].
    split; [intros [H|(t & H)]; discriminate H|].
    split; [intros e' H; discriminate H|]. split; reflexivity.
  - split; [assumption|]. split; [intros t; discriminate|].
    split; [intros [H|(t & H)]; discriminate H|].
    split; [intros e' H; discriminate H|]. split; reflexivity.
Qed.

(* ================================================================== *)
(** ** Further properties: fulfill *)

Section FulfillMore.

Variable W : World.
Context {P : Type}.
Variable self : SpotifyTrack.t.
Variable cls_search : string -> outcome (list P).

(** The cases of a call of [fulfill]. *)
Lemma fulfill_cases (populate : bool) (h : Heap) :
  let run := SpotifyTrack_fulfill W self cls_search populate h in
  (snd run = h /\
   ((forall tracks, resolve self cls_search <> Ret tracks) /\
    (forall p, fst run <> Ret p)
    \/ (exists tracks, resolve self cls_search = Ret tracks /\
                       fst run = first tracks /\
                       negb (autoplay (player h)) || negb populate = true)
    \/ (exists tracks, resolve self cls_search = Ret tracks /\
                       fst run = Raise TypeError /\
                       autoplay (player h) = true /\ populate = true /\
                       spotify h = None)))
  \/
  (exists tracks c,
      resolve self cls_search = Ret tracks /\
      autoplay (player h) = true /\ populate = true /\ spotify h = Some c /\
      let seeds := rotate_seeds (_track_seeds (player h)) (SpotifyTrack.id self) in
      let rq := recommendations_request c seeds in
      let resp := server W (log h) rq in
      let h1 := mkHeap (ticks h) (log h ++ [rq]) (spotify h)
                       (with_seeds (player h) seeds) (stream h) in
      ((status resp = 200 /\
        exists recos, recos_of (body resp) = Ret recos /\
                      run = (first tracks,
                             set_player (with_enqueued (player h1) recos) h1))
       \/
       ((status resp <> 200 \/ forall recos, recos_of (body resp) <> Ret recos) /\
        snd run = h1 /\ (forall p, fst run <> Ret p)))).
Proof.
  intros run. subst run.
  destruct (resolve self cls_search) as [tracks|e| |] eqn:Hr.
  2-4: left; split;
    [apply fulfill_unresolved; rewrite Hr; discriminate|];
    left; split; [discriminate|];
    unfold SpotifyTrack_fulfill, bind, lift; fold (resolve self cls_search);
    rewrite Hr; simpl; discriminate.
  destruct (negb (autoplay (player h)) || negb populate) eqn:Hs.
  - left. rewrite (fulfill_skips W self cls_search populate h Hs), Hr. simpl.
    split; [reflexivity|]. right. left. exists tracks. auto.
  - apply orb_false_iff in Hs. destruct Hs as [Ha Hp].
    apply negb_false_iff in Ha, Hp. subst populate.
    destruct (spotify h) as [c|] eqn:Hc.
    + right. exists tracks, c. repeat (split; [reflexivity || assumption|]).
      cbv zeta.
      rewrite (fulfill_populates W self cls_search tracks c h Hr Ha Hc).
      destruct (Z.eqb_spec (status (server W (log h)
                 (recommendations_request c
                    (rotate_seeds (_track_seeds (player h)) (SpotifyTrack.id self)))))
                 200) as [Hs|Hs].
      * destruct (recos_of _) as [recos|e| |] eqn:Hrc.
        -- left. split; [exact Hs|]. exists recos. rewrite Hc. auto.
        -- right. rewrite Hc. split; [right; discriminate|].
           split; [reflexivity|discriminate].
        -- right. rewrite Hc. split; [right; discriminate|].
           split; [reflexivity|discriminate].
        -- right. rewrite Hc. split; [right; discriminate|].
           split; [reflexivity|discriminate].
      * right. rewrite Hc. split; [left; exact Hs|].
        split; [reflexivity|discriminate].
    + left. rewrite (fulfill_without_client W self cls_search tracks h Hr Ha Hc).
      split; [reflexivity|]. right. right. exists tracks. auto 6.
Qed.

End FulfillMore.

Lemma first_ret {A} (l : list A) (x : A) :
  first l = Ret x -> exists rest, l = x :: rest.
Proof. destruct l; simpl; [discriminate|]. intros [= ->]. eauto. Qed.

(** X8. Whatever a call of [fulfill] returns is the first track that its
    search for the source track resolved, never a recommendation; a
    search that resolves no track at all makes the call raise. *)
Theorem fulfill_returns_first_resolved (W : World) {P : Type}
  (self : SpotifyTrack.t) (cls_search : string -> outcome (list P))
  (populate : bool) (h : Heap) (p : P) :
  fst (SpotifyTrack_fulfill W self cls_search populate h) = Ret p ->
  exists rest, resolve self cls_search = Ret (p :: rest).
Proof.
  intros H.
  destruct (fulfill_cases W self cls_search populate h)
    as [(_ & [(_ & Hn)|[(tracks & Hr & Hf & _)|(tracks & _ & Hf & _)]])
       |(tracks & c & Hr & _ & _ & _ & [(_ & recos & _ & E)|(_ & _ & Hn)])].
  - now destruct (Hn p).
  - rewrite Hf in H. apply first_ret in H. destruct H as (rest & ->). eauto.
  - rewrite Hf in H. discriminate.
  - rewrite E in H. simpl in H. apply first_ret in H. destruct H as (rest & ->). eauto.
  - now destruct (Hn p).
Qed.

(** X9. The first search of [fulfill] asks for the ISRC between double
    quotes. An exception of that search other than [NoTracksError] is
    raised on, and the heap is left as it is; on [NoTracksError] the
    search is repeated with the name and the first artist, and a track
    without artists makes the call raise [IndexError]. *)
Theorem fulfill_falls_back_on_no_tracks_only (W : World) {P : Type}
  (self : SpotifyTrack.t) (cls_search : string -> outcome (list P))
  (populate : bool) (h : Heap) :
  (forall e, cls_search (isrc_query self) = Raise e -> e <> NoTracksError ->
             SpotifyTrack_fulfill W self cls_search populate h = (Raise e, h))
  /\
  (cls_search (isrc_query self) = Raise NoTracksError ->
   SpotifyTrack.artists self = [] ->
   SpotifyTrack_fulfill W self cls_search populate h = (Raise IndexError, h))
  /\
  (forall a others,
      cls_search (isrc_query self) = Raise NoTracksError ->
      SpotifyTrack.artists self = a :: others ->
      SpotifyTrack_fulfill W self cls_search populate h
      = SpotifyTrack_fulfill W self
          (fun _ => cls_search (SpotifyTrack.name self ++ " - " ++ a))
          populate h)
  /\
  (forall a others e,
      cls_search (isrc_query self) = Raise NoTracksError ->
      SpotifyTrack.artists self = a :: others ->
      cls_search (SpotifyTrack.name self ++ " - " ++ a) = Raise e ->
      SpotifyTrack_fulfill W self cls_search populate h = (Raise e, h)).
Proof.
  unfold isrc_query. split; [|split; [|split]].
  4: { intros a others e He Ha Hf. unfold SpotifyTrack_fulfill, bind, lift.
       rewrite He, Ha. cbn [first obind]. rewrite Hf. reflexivity. }
  - intros e He Hne. unfold SpotifyTrack_fulfill, bind, lift. rewrite He.
    destruct e; try reflexivity. now destruct Hne.
  - intros He Ha. unfold SpotifyTrack_fulfill, bind, lift. rewrite He, Ha.
    reflexivity.
  - intros a others He Ha.
    assert (R : resolve self cls_search
                = resolve self
                    (fun _ => cls_search (SpotifyTrack.name self ++ " - " ++ a))).
    { unfold resolve. rewrite He, Ha. cbn [first obind].
      destruct (cls_search (SpotifyTrack.name self ++ " - " ++ a))
        as [tracks|e| |]; try reflexivity.
      destruct e; reflexivity. }
    unfold SpotifyTrack_fulfill.
    fold (resolve self cls_search).
    fold (resolve self
            (fun _ : string => cls_search (SpotifyTrack.name self ++ " - " ++ a))).
    rewrite R. reflexivity.
Qed.

(** X10. When a populating call of [fulfill] gets a recommendations
    response that is not a 200, or whose tracks do not all build, the call
    raises; the seeds have been rotated all the same, and the
    continuation queue and its history are left as they were: nothing is
    enqueued unless every recommended track builds. *)
Theorem failed_recommendations_keep_the_rotation (W : World) {P : Type}
  (self : SpotifyTrack.t) (cls_search : string -> outcome (list P))
  (tracks : list P) (c : SpotifyClient) (h : Heap) :
  resolve self cls_search = Ret tracks ->
  autoplay (player h) = true -> spotify h = Some c ->
  let seeds := rotate_seeds (_track_seeds (player h)) (SpotifyTrack.id self) in
  let resp := server W (log h) (recommendations_request c seeds) in
  status resp <> 200 \/ (forall recos, recos_of (body resp) <> Ret recos) ->
  let run := SpotifyTrack_fulfill W self cls_search true h in
  (forall p, fst run <> Ret p) /\
  _track_seeds (player (snd run)) = seeds /\
  auto_queue (player (snd run)) = auto_queue (player h) /\
  history (player (snd run)) = history (player h).
Proof.
  intros Hr Ha Hc seeds resp Hfail run. subst run.
  rewrite (fulfill_populates W self cls_search tracks c h Hr Ha Hc).
  fold seeds. fold resp.
  destruct (Z.eqb_spec (status resp) 200) as [Hs|Hs].
  - destruct Hfail as [Hfail|Hfail]; [contradiction|].
    destruct (recos_of (body resp)) as [recos|e| |];
      [now destruct (Hfail recos)| | |];
      (split; [discriminate|]; repeat split; reflexivity).
  - split; [discriminate|]. repeat split; reflexivity.
Qed.

(** X11. A call of [fulfill] never asks for a token and never touches the
    client, the clock, the iterator or the autoplay flag. It issues no
    request at all or the one recommendations request, a GET whose header
    is built from the token the client holds at that moment, [Bearer None]
    when it holds none. *)
Theorem fulfill_never_refreshes_the_token (W : World) {P : Type}
  (self : SpotifyTrack.t) (cls_search : string -> outcome (list P))
  (populate : bool) (h : Heap) :
  let h' := snd (SpotifyTrack_fulfill W self cls_search populate h) in
  spotify h' = spotify h /\ ticks h' = ticks h /\ stream h' = stream h /\
  autoplay (player h') = autoplay (player h) /\
  (issued h h' = [] \/
   exists c,
     spotify h = Some c /\
     issued h h' = [recommendations_request c (_track_seeds (player h'))]) /\
  Forall (fun rq => is_grant rq = false) (issued h h') /\
  (forall c, spotify h = Some c -> _bearer_token c = None ->
             Forall (fun rq => rq_headers rq = [("Authorization", "Bearer None")])
                    (issued h h')).
Proof.
  intros h'.
  assert (E : (h' = h) \/
              exists c, spotify h = Some c /\
                spotify h' = spotify h /\ ticks h' = ticks h /\
                stream h' = stream h /\
                autoplay (player h') = autoplay (player h) /\
                issued h h' = [recommendations_request c (_track_seeds (player h'))]).
  { destruct (fulfill_cases W self cls_search populate h)
      as [(E & _)|(tracks & c & _ & _ & _ & Hc & [(_ & recos & _ & E)|(_ & E & _)])].
    - left. exact E.
    - right. exists c. split; [exact Hc|]. subst h'. rewrite E. simpl.
      repeat split; auto. now apply issued_app.
    - right. exists c. split; [exact Hc|]. subst h'. rewrite E. simpl.
      repeat split; auto. now apply issued_app. }
  destruct E as [->|(c & Hc & S & T & I & A & L)].
  - rewrite issued_none. repeat split; auto.
  - repeat split; auto.
    + right. exists c. auto.
    + rewrite L. constructor; [reflexivity|constructor].
    + intros c' Hc' Hn. rewrite L. rewrite Hc in Hc'. injection Hc' as <-.
      constructor; [|constructor]. simpl. unfold bearer_headers. now rewrite Hn.
Qed.

Lemma rotate_seeds_fold (ids : list string) :
  forall seeds,
    (List.length seeds <= 5)%nat ->
    fold_left rotate_seeds ids seeds
    = skipn (List.length (seeds ++ ids) - 5) (seeds ++ ids).
Proof.
  induction ids as [|id ids IH] using rev_ind; intros seeds Hl.
  - simpl. rewrite app_nil_r.
    replace (List.length seeds - 5)%nat with 0%nat by lia. reflexivity.
  - rewrite fold_left_app. simpl. rewrite (IH seeds Hl).
    rewrite app_assoc. set (l := (seeds ++ ids)%list).
    rewrite List.length_app. simpl.
    unfold rotate_seeds. rewrite length_skipn.
    destruct (Nat.eqb_spec (List.length l - (List.length l - 5)) 5) as [E|E].
    + replace (List.length l + 1 - 5)%nat with (S (List.length l - 5)) by lia.
      rewrite skipn_app.
      replace (S (List.length l - 5) - List.length l)%nat with 0%nat by lia.
      simpl. f_equal. apply tl_skipn.
    + assert (Hl5 : (List.length l < 5)%nat).
      { destruct (Nat.lt_ge_cases (List.length l) 5); [assumption|lia]. }
      replace (List.length l + 1 - 5)%nat with 0%nat by lia.
      replace (List.length l - 5)%nat with 0%nat by lia. reflexivity.
Qed.

(** X12. After [fulfill] has been called with [populate] set for any
    number of source tracks in turn, on a player with autoplay on, a node
    with a client and a window of at most five seeds, and with a search
    that resolves each source track, the window holds the last five of
    the seeds before followed by the ids of the source tracks, oldest
    first; this is so whether or not the recommendations requests
    succeeded. *)
Theorem seed_window_is_last_five (W : World) {P : Type}
  (cls_search : string -> outcome (list P)) (selfs : list SpotifyTrack.t)
  (c : SpotifyClient) (h : Heap) :
  autoplay (player h) = true -> spotify h = Some c ->
  (List.length (_track_seeds (player h)) <= 5)%nat ->
  (forall self, In self selfs -> exists tracks, resolve self cls_search = Ret tracks) ->
  let all := (_track_seeds (player h) ++ map SpotifyTrack.id selfs)%list in
  _track_seeds (player (fulfill_each W cls_search selfs h))
  = skipn (List.length all - 5) all.
Proof.
  intros Ha Hc Hl Hr all. subst all.
  rewrite <- (rotate_seeds_fold (map SpotifyTrack.id selfs) _ Hl).
  clear Hl. revert h Ha Hc.
  induction selfs as [|self selfs IH]; intros h Ha Hc; [reflexivity|].
  simpl. destruct (Hr self (or_introl eq_refl)) as (tracks & Ht).
  destruct (fulfill_run_populates W self cls_search tracks c h Ht Ha Hc) as [_ S].
  rewrite <- S. apply IH.
  - intros s Hs. apply Hr. now right.
  - rewrite (fulfill_populates W self cls_search tracks c h Ht Ha Hc).
    destruct (status _ =? 200); [|exact Ha]. destruct (recos_of _); exact Ha.
  - rewrite (fulfill_populates W self cls_search tracks c h Ht Ha Hc).
    destruct (status _ =? 200); [|exact Hc]. destruct (recos_of _); exact Hc.
Qed.

(* ================================================================== *)
(** ** Further properties: the life of a token *)

(** X13. A search that has to ask for a token and is refused (the grant
    response is not a 200) leaves the client exactly as it was, so that a
    client without token still has none, and every later search starts by
    asking for a token again. *)
Theorem refused_grant_is_asked_again (W : World) (fuel : nat) (query : string)
  (type : SpotifySearchType.t) (iterator : bool) (h : Heap) (c : SpotifyClient) :
  spotify h = Some c -> no_token c = true ->
  status (server W (log h) (grant_request W c)) <> 200 ->
  let h' := snd (_search W fuel query type iterator h) in
  spotify h' = Some c /\
  issued h h' = [grant_request W c] /\
  forall fuel' query' type' iterator',
  exists rest,
    issued h' (snd (_search W fuel' query' type' iterator' h'))
    = grant_request W c :: rest.
Proof.
  intros H Hn Hs h'.
  assert (E : _search W fuel query type iterator h
              = (Raise (SpotifyRequestError
                          (status (server W (log h) (grant_request W c)))
                          (reason (server W (log h) (grant_request W c)))),
                 set_log (log h ++ [grant_request W c]) h)).
  { rewrite _search_stages. unfold bind.
    rewrite (ensure_token_stale W h c H (or_introl Hn)), Hn.
    now rewrite (grant_rejected W h c H Hs). }
  subst h'. rewrite E. simpl. split; [exact H|]. split; [now apply issued_app|].
  intros fuel' query' type' iterator'.
  destruct (search_with_stale_token W fuel' query' type' iterator'
              (set_log (log h ++ [grant_request W c]) h) c H (or_introl Hn))
    as (rest & L & _).
  exists rest. now apply issued_app.
Qed.

Lemma expiry_of_short_lifetime (t0 : Q) (N : Z) :
  N <= 10 -> (t0 + inject_Z (N - 10) <= t0)%Q.
Proof.
  intros HN.
  assert (Hx : (inject_Z (N - 10) <= 0)%Q)
    by (unfold Qle, inject_Z; simpl; lia).
  apply Qle_trans with (t0 + 0)%Q.
  - apply Qplus_le_compat; [apply Qle_refl|exact Hx].
  - rewrite Qplus_0_r. apply Qle_refl.
Qed.

(** X14. A token granted with a lifetime of ten seconds or less is never
    reused: in any later heap that holds the client as the grant left it
    and whose clock does not read less than at the grant, a search starts
    by asking for a token again. *)
Theorem short_lived_token_is_never_reused (W : World) (fuel : nat)
  (query : string) (type : SpotifySearchType.t) (iterator : bool)
  (h h2 : Heap) (c : SpotifyClient) (tok : string) (N : Z) :
  spotify h = Some c -> grant_declares W h c tok N -> N <= 10 ->
  spotify h2 = spotify (snd (_get_bearer_token W h)) ->
  (clock W (ticks h) <= clock W (ticks h2))%Q ->
  exists c' rest,
    spotify h2 = Some c' /\ _bearer_token c' = Some tok /\
    issued h2 (snd (_search W fuel query type iterator h2))
    = grant_request W c' :: rest.
Proof.
  intros H Hg HN H2 Hclock.
  rewrite (grant_granted W h c tok N H Hg) in H2. simpl in H2.
  set (c' := mkClient (_client_id c) (_client_secret c) (Some tok)
               (clock W (ticks h) + inject_Z (N - 10))%Q) in *.
  assert (Hst : no_token c' = true \/ (_expiry c' <= clock W (ticks h2))%Q).
  { right. simpl. eapply Qle_trans; [|exact Hclock].
    now apply expiry_of_short_lifetime. }
  destruct (search_with_stale_token W fuel query type iterator h2 c' H2 Hst)
    as (rest & L & _).
  exists c', rest. split; [exact H2|]. split; [reflexivity|].
  now apply issued_app.
Qed.

(** X15. Two searches in a row: when the first has to ask for a token and
    is granted a non-empty one, and the clock at the second reads less
    than the expiry the grant set, the second search leaves the client
    alone and issues no grant request; all its requests carry the granted
    token. *)
Theorem one_grant_serves_the_next_search (W : World) (fuel fuel' : nat)
  (query query' : string) (type type' : SpotifySearchType.t)
  (iterator iterator' : bool) (h : Heap) (c : SpotifyClient)
  (tok : string) (N : Z) :
  spotify h = Some c ->
  no_token c = true \/ (_expiry c <= clock W (ticks h))%Q ->
  grant_declares W h c tok N -> tok <> "" ->
  let h1 := snd (_search W fuel query type iterator h) in
  (clock W (ticks h1)
   < clock W (if no_token c then ticks h else S (ticks h)) + inject_Z (N - 10))%Q ->
  let h2 := snd (_search W fuel' query' type' iterator' h1) in
  spotify h2 = spotify h1 /\
  Forall (fun rq => is_grant rq = false /\
                    rq_headers rq = [("Authorization", "Bearer " ++ tok)])
         (issued h1 h2) /\
  issued h1 h2 <> [].
Proof.
  intros H Hst Hg Htok h1 Hlt h2.
  destruct (search_with_stale_token W fuel query type iterator h c H Hst)
    as (rest & _ & _ & _ & G).
  destruct (G tok N Hg) as (S1 & _). fold h1 in S1.
  set (c1 := mkClient (_client_id c) (_client_secret c) (Some tok)
               (clock W (if no_token c then ticks h else S (ticks h))
                + inject_Z (N - 10))%Q) in *.
  assert (Hn : no_token c1 = false).
  { unfold no_token, c1. cbn [_bearer_token].
    destruct (String.eqb_spec tok ""); [contradiction|reflexivity]. }
  destruct (search_with_fresh_token W fuel' query' type' iterator' h1 c1 S1 Hn Hlt)
    as (S2 & rest' & L & F).
  fold h2 in S2, L. split; [congruence|].
  rewrite (issued_app _ _ _ L). split; [|discriminate].
  constructor; [split; reflexivity|exact F].
Qed.

(* ================================================================== *)
(** ** Further properties: links, ids and the URL asked for *)

Lemma all_in_app (p : ascii -> bool) (a b : string) :
  all_in p (a ++ b) = all_in p a && all_in p b.
Proof. induction a as [|c a IH]; simpl; [reflexivity|]. now rewrite IH, andb_assoc. Qed.

Lemma slash_or_colon_not_alnum (c : ascii) :
  slash_or_colon c = true -> alnum c = false.
Proof.
  unfold slash_or_colon. intros H. apply orb_true_iff in H.
  destruct H as [H|H]; apply Ascii.eqb_eq in H; subst c; reflexivity.
Qed.

(** A text of letters and digits only is not a link: the pattern needs a
    slash or a colon. *)
Lemma alnum_no_match (s : string) :
  all_in alnum s = true -> re_match URLREGEX s = None.
Proof.
  intros Hall. destruct (re_match URLREGEX s) as [m|] eqn:H; [exfalso|reflexivity].
  apply re_match_sound in H. destruct H as (w & s' & -> & HM).
  unfold URLREGEX in HM.
  apply Matches_Seq_inv in HM. destruct HM as (w1 & ? & cs1 & -> & _ & HM).
  apply Matches_Seq_inv in HM. destruct HM as (w2 & ? & cs2 & -> & _ & HM).
  apply Matches_Seq_inv in HM. destruct HM as (w3 & ? & cs3 & -> & _ & HM).
  apply Matches_Seq_inv in HM. destruct HM as (ty & ? & cs4 & -> & _ & HM).
  apply Matches_Seq_inv in HM. destruct HM as (w5 & ? & cs5 & -> & H5 & _).
  apply Matches_Group_inv in H5. destruct H5 as (cs5' & H5 & _).
  inversion H5 as [ | | | p c cs Hc | | | | | | | ]; subst.
  rewrite !all_in_app in Hall. simpl in Hall.
  rewrite (slash_or_colon_not_alnum c Hc) in Hall.
  rewrite ?andb_false_r, ?andb_false_l in Hall. simpl in Hall.
  rewrite ?andb_false_r in Hall. discriminate.
Qed.

(** X16. What [decode_url] makes of a link can be searched for in place of
    the link: for a track, album or playlist link, searching for the
    decoded id with the decoded type asks for the same URL as searching
    for the link itself, whatever type is passed along with the link.
    Not so for an artist link: the link asks for [artists/<id>], the
    decoded pair for [unusables/<id>]. *)
Theorem decoded_link_asks_the_same_url (url id : string)
  (ty : SpotifySearchType.t) :
  decode_url url = Some (mkIdentifier ty (Some id)) ->
  forall ty' : SpotifySearchType.t,
    search_url id ty = BASEURL (SpotifySearchType.name ty) id /\
    search_url url ty'
    = BASEURL (if SpotifySearchType.eqb ty SpotifySearchType.unusable
               then "artist" else SpotifySearchType.name ty) id.
Proof.
  unfold decode_url. intros H ty'.
  destruct (re_match URLREGEX url) as [m|] eqn:Hm; [|discriminate].
  destruct (URLREGEX_groups _ _ Hm) as (tys & id' & Hty & Hid & Hname & _ & Hal).
  rewrite Hty, Hid in H.
  assert (id' = id) by (injection H; auto). subst id'.
  split.
  - unfold search_url. now rewrite (alnum_no_match id Hal).
  - unfold search_url. rewrite Hm, Hty, Hid. simpl format_opt.
    destruct Hname as [-> | [-> | [-> | ->]]]; simpl in H;
      injection H as <-; reflexivity.
Qed.

Lemma run_plus_cons (R : Type) (p : ascii -> bool) (c : ascii) (s : string)
  (cs : captures) (k : string -> captures -> option R) :
  run (Plus p) (String c s) cs k
  = if p c then
      match run (Plus p) s cs k with
      | Some x => Some x
      | None => k s cs
      end
    else None.
Proof. reflexivity. Qed.

Lemma run_plus_stops (R : Type) (p : ascii -> bool) (rest : string)
  (cs : captures) (k : string -> captures -> option R) :
  stops p rest -> run (Plus p) rest cs k = None.
Proof.
  destruct rest as [|c r]; [reflexivity|]. simpl stops. intros H.
  rewrite run_plus_cons. now rewrite H.
Qed.

(** [+] is greedy: it takes the whole run of characters of its class
    first. *)
Lemma run_plus_greedy (R : Type) (p : ascii -> bool) (w rest : string)
  (cs : captures) (k : string -> captures -> option R) (x : R) :
  w <> ""%string -> all_in p w = true -> stops p rest ->
  k rest cs = Some x ->
  run (Plus p) (w ++ rest) cs k = Some x.
Proof.
  intros Hne Hall Hrest Hk. induction w as [|c w IH]; [contradiction|].
  simpl in Hall. apply andb_true_iff in Hall. destruct Hall as [Hc Hw].
  change (String c w ++ rest)%string with (String c (w ++ rest)).
  rewrite run_plus_cons, Hc.
  destruct w as [|c2 w2].
  - simpl append. now rewrite (run_plus_stops R p rest cs k Hrest).
  - rewrite IH; [reflexivity|discriminate|exact Hw].
Qed.

Lemma run_Opt_total (R : Type) (r : regex) (s : string) (cs : captures)
  (k : string -> captures -> option R) :
  (forall s' cs', k s' cs' <> None) -> run (Opt r) s cs k <> None.
Proof.
  intros H. simpl. destruct (run r s cs k); [discriminate|apply H].
Qed.

Lemma URLREGEX_split : URLREGEX = url_head url_tail.
Proof. reflexivity. Qed.

(** The tail of the pattern on an id followed by something that is not a
    letter or digit: the match goes through, and the [id] group is the
    id. *)
Lemma url_tail_run (id rest : string) (cs : captures) :
  id <> ""%string -> all_in alnum id = true -> stops alnum rest ->
  exists m,
    run url_tail (id ++ rest) cs (fun _ cs' => Some cs') = Some m /\
    assoc "id" m = Some id /\ assoc "type" m = assoc "type" cs.
Proof.
  intros Hne Hal Hrest.
  set (T := Seq (Opt (Group "7" (Seq (lits "?si=") (Plus alnum))))
                (Opt (Group "8" (Seq (lits "&dl_branch=") (Plus is_digit))))).
  destruct (run T rest (assoc_set "id" id cs) (fun _ cs' => Some cs'))
    as [m|] eqn:E.
  - exists m. split; [|split].
    + change (run url_tail (id ++ rest) cs (fun _ cs' => Some cs'))
        with (run (Plus alnum) (id ++ rest) cs
                (fun s' cs' =>
                   run T s' (assoc_set "id" (consumed (id ++ rest) s') cs')
                       (fun _ cs'' => Some cs''))).
      apply run_plus_greedy; auto. now rewrite consumed_app.
    + apply run_sound in E. destruct E as (w & s' & cs' & _ & HM & Hk).
      injection Hk as ->.
      rewrite (Matches_frame "id" _ _ _ _ HM) by reflexivity.
      apply assoc_set_same.
    + apply run_sound in E. destruct E as (w & s' & cs' & _ & HM & Hk).
      injection Hk as ->.
      rewrite (Matches_frame "type" _ _ _ _ HM) by reflexivity.
      now rewrite assoc_set_other.
  - exfalso. revert E. unfold T.
    change (run (Seq ?a ?b) ?s ?c ?k) with (run a s c (fun s' cs' => run b s' cs' k)).
    apply run_Opt_total. intros s' cs'. apply run_Opt_total. discriminate.
Qed.

(** The head of the pattern on the canonical beginnings of a link. *)
Lemma url_head_run (r : regex) (scheme dot ty sep : string) :
  In scheme ["https://open."; "http://open."; ""]%string ->
  In dot [".com/"; ":"]%string ->
  In ty ["album"; "playlist"; "track"; "artist"]%string ->
  In sep ["/"; ":"]%string ->
  forall s : string,
  exists cs5,
    assoc "type" cs5 = Some ty /\
    forall (R : Type) (k : string -> captures -> option R) (x : R),
      run r s cs5 k = Some x ->
      run (url_head r) (scheme ++ "spotify" ++ dot ++ ty ++ sep ++ s) [] k
      = Some x.
Proof.
  intros Hs Hd Ht Hp s.
  simpl in Hs, Hd, Ht, Hp.
  repeat match goal with
         | H : _ \/ _ |- _ => destruct H as [H|H]
         | H : False |- _ => contradiction
         end; subst;
    (eexists; split; cycle 1;
     [ intros R k x H; cbn -[consumed]; rewrite H; reflexivity
     | cbn -[consumed] ]).
  all: match goal with
       | |- Some (consumed ?a ?b) = Some ?ty =>
           exact (f_equal Some (consumed_app ty b))
       end.
Qed.

(** X17. Every link or URI of the usual forms decodes: with [https://open.],
    [http://open.] or nothing before [spotify], [.com/] or [:] after it,
    an entity name, [/] or [:], a non-empty id of letters and digits, and
    anything that does not go on with a letter or digit, [decode_url]
    returns that id, with the type the entity names for a track, an album
    or a playlist, and [unusable] for an artist. *)
Theorem links_decode (scheme dot sep id rest : string)
  (ty : SpotifySearchType.t) :
  In scheme ["https://open."; "http://open."; ""]%string ->
  In dot [".com/"; ":"]%string ->
  In sep ["/"; ":"]%string ->
  id <> ""%string -> all_in alnum id = true -> stops alnum rest ->
  (ty <> SpotifySearchType.unusable ->
   decode_url (link scheme dot (SpotifySearchType.name ty) sep id rest)
   = Some (mkIdentifier ty (Some id))) /\
  decode_url (link scheme dot "artist" sep id rest)
  = Some (mkIdentifier SpotifySearchType.unusable (Some id)).
Proof.
  intros Hs Hd Hp Hne Hal Hrest.
  assert (D : forall name,
             In name ["album"; "playlist"; "track"; "artist"]%string ->
             exists m, re_match URLREGEX (link scheme dot name sep id rest) = Some m
                       /\ group m "type" = Some name /\ group m "id" = Some id).
  { intros name Hn.
    destruct (url_head_run url_tail scheme dot name sep Hs Hd Hn Hp (id ++ rest))
      as (cs5 & Hty & Hrun).
    destruct (url_tail_run id rest cs5 Hne Hal Hrest) as (m & Hm & Hid & Htype).
    exists m. unfold re_match, link. rewrite URLREGEX_split.
    split; [exact (Hrun _ _ m Hm)|]. unfold group. split; congruence. }
  split.
  - intros Hu.
    destruct (D (SpotifySearchType.name ty)) as (m & Hm & Hty & Hid).
    { destruct ty; simpl; auto. contradiction. }
    unfold decode_url. rewrite Hm, Hty, Hid. now destruct ty.
  - destruct (D "artist"%string) as (m & Hm & Hty & Hid); [simpl; auto|].
    unfold decode_url. now rewrite Hm, Hty, Hid.
Qed.

(* ================================================================== *)
(** ** Further properties: the pages of a playlist *)

Section PagesMore.

Variable W : World.
Variable c : SpotifyClient.

Lemma set_log_set_log (l l' : list Request) (h : Heap) :
  set_log l' (set_log l h) = set_log l' h.
Proof. reflexivity. Qed.

(** The loop over the continuation pages issues one request per page. *)
Lemma next_pages_requests (pages : list (list json)) :
  forall (fuel : nat) (next : json) (items : list json) (h : Heap),
    spotify h = Some c -> pages <> [] ->
    continuation W c next pages ->
    (List.length pages <= fuel)%nat ->
    exists rs,
      next_pages W fuel next items h
      = (Ret (items ++ List.concat pages)%list, set_log (log h ++ rs) h) /\
      List.length rs = List.length pages.
Proof.
  induction pages as [|page pages IH]; intros fuel next items h H Hne Hc Hf;
    [contradiction|].
  destruct fuel as [|fuel]; [simpl in Hf; lia|].
  destruct Hc as (Ht & u & resp & v & next' & -> & Hsv & Hi & Hp & Hn & Hc).
  simpl next_pages. unfold bind, get_self, http, lift. rewrite H. simpl.
  rewrite (Hsv (log h)), Hi. simpl. rewrite Hp, Hn. simpl.
  destruct pages as [|page' pages'].
  - simpl in Hc. rewrite Hc. simpl. rewrite app_nil_r. unfold ret.
    exists [mkRequest GET u (bearer_headers c)]. split; reflexivity.
  - destruct Hc as (Ht' & Hc'). rewrite Ht'. simpl.
    destruct (IH fuel next' (items ++ page)%list
                (set_log (log h ++ [mkRequest GET u (bearer_headers c)]) h))
      as (rs & E & L); auto; try discriminate.
    + split; assumption.
    + simpl in Hf. simpl. lia.
    + rewrite E. exists (mkRequest GET u (bearer_headers c) :: rs).
      split; [|simpl; now rewrite L].
      rewrite <- app_assoc. simpl. now rewrite <- app_assoc.
Qed.

(** When every response names a next page, the loop over the continuation
    pages has no way out but an exception. *)
Lemma next_pages_endless (fuel : nat) :
  (forall lg u v,
      getitem (body (server W lg (mkRequest GET u (bearer_headers c)))) "next"
      = Ret v -> truthy v = true) ->
  forall (next : json) (items : list json) (h : Heap) (r : list json),
    spotify h = Some c ->
    fst (next_pages W fuel next items h) <> Ret r.
Proof.
  intros Hw. induction fuel as [|fuel IH]; intros next items h r H;
    [discriminate|].
  simpl next_pages. unfold bind, get_self, http, lift. rewrite H. simpl.
  destruct (as_str next) as [u| | |]; simpl; try discriminate.
  match goal with
  | |- context [obind (getitem ?d "items") ?k] =>
      destruct (obind (getitem d "items") k); simpl; try discriminate
  end.
  match goal with
  | |- context [getitem ?d "next"] =>
      destruct (getitem d "next") as [v| | |] eqn:En; simpl; try discriminate
  end.
  rewrite (Hw _ _ _ En). simpl. apply IH. exact H.
Qed.

End PagesMore.

(** An iterator-mode playlist search, with the requests it issues. *)
Lemma search_playlist_requests (W : World) (fuel : nat) (query : string)
  (type : SpotifySearchType.t) (pages : list (list json))
  (h h1 : Heap) (c : SpotifyClient) :
  ensure_token W h = (Ret tt, h1) -> spotify h1 = Some c ->
  playlist_served W c (search_url query type) pages ->
  (List.length pages <= S fuel)%nat ->
  exists rs,
    _search W fuel query type true h
    = (Ret (OPayloads (List.concat pages)),
       set_log (log h1 ++ mkRequest GET (search_url query type)
                            (bearer_headers c) :: rs) h1) /\
    S (List.length rs) = List.length pages.
Proof.
  intros Het Hc Hp Hf.
  destruct pages as [|page pages]; [contradiction|].
  destruct Hp as (resp & ts & v & next & Hsv & Hs & Hty & Hts & Hn & Hi & Hpg & Hk).
  set (rq := mkRequest GET (search_url query type) (bearer_headers c)) in *.
  assert (Hs' : status (server W (log h1) rq) = 200) by now rewrite (Hsv (log h1)).
  rewrite (search_normalizes W fuel query type true h h1 c Het Hc Hs').
  fold rq. rewrite (Hsv (log h1)).
  unfold normalize, bind, lift. rewrite Hty. simpl. rewrite Hts. simpl.
  rewrite Hn. simpl. rewrite Hi. simpl. rewrite Hpg.
  destruct pages as [|page' pages'].
  - simpl in Hk. rewrite Hk. simpl. rewrite app_nil_r. unfold ret.
    exists []. split; reflexivity.
  - assert (Ht : truthy next = true) by apply Hk. rewrite Ht. simpl.
    destruct (next_pages_requests W c (page' :: pages') fuel next page
                (set_log (log h1 ++ [rq]) h1))
      as (rs & E & L); auto; try discriminate.
    + simpl in Hf. simpl. lia.
    + rewrite E. unfold ret. exists rs. split; [|now rewrite L].
      simpl. now rewrite <- app_assoc.
Qed.

(** X18. In iterator mode, a playlist search issues one request for each
    page of the playlist, the catalog request being the first of them, and
    all of them before it returns: with a usable token and enough fuel for
    the pages, the search returns the items of all pages in order and the
    requests it has issued are as many as the pages. *)
Theorem playlist_pages_are_fetched_once_each (W : World) (fuel : nat)
  (query : string) (type : SpotifySearchType.t) (pages : list (list json))
  (h h1 : Heap) (c : SpotifyClient) :
  ensure_token W h = (Ret tt, h1) -> spotify h1 = Some c ->
  playlist_served W c (search_url query type) pages ->
  (List.length pages <= S fuel)%nat ->
  let run := _search W fuel query type true h in
  fst run = Ret (OPayloads (List.concat pages)) /\
  List.length (issued h1 (snd run)) = List.length pages /\
  hd_error (issued h1 (snd run))
  = Some (mkRequest GET (search_url query type) (bearer_headers c)) /\
  Forall (bearer_get c) (issued h1 (snd run)).
Proof.
  intros Het Hc Hp Hf run.
  set (rq := mkRequest GET (search_url query type) (bearer_headers c)).
  assert (B : Forall (bearer_get c) (issued h1 (snd run))).
  { unfold run. rewrite (search_after_token W fuel query type true h h1 Het).
    destruct (fetch_fetches W c fuel query type true h1 Hc)
      as (_ & _ & _ & _ & rs & L & F).
    rewrite (issued_app _ _ _ L). constructor; [split; reflexivity|exact F]. }
  destruct (search_playlist_requests W fuel query type pages h h1 c Het Hc Hp Hf)
    as (rs & E & L).
  fold rq in E. revert B. unfold run. rewrite E. cbn [fst snd]. intros B.
  assert (I : issued h1 (set_log (log h1 ++ rq :: rs) h1) = rq :: rs)
    by now apply issued_app.
  rewrite I in *. repeat split; auto.
Qed.

(** X19. Nothing bounds the number of pages an iterator-mode playlist
    search fetches: in a world where every response names a next page,
    the search has no result, however long it is run. *)
Theorem endless_playlist_never_returns (W : World) (query : string)
  (type : SpotifySearchType.t) (h h1 : Heap) (c : SpotifyClient)
  (ts next : json) :
  ensure_token W h = (Ret tt, h1) -> spotify h1 = Some c ->
  (forall lg u v,
      getitem (body (server W lg (mkRequest GET u (bearer_headers c)))) "next"
      = Ret v -> truthy v = true) ->
  let rq := mkRequest GET (search_url query type) (bearer_headers c) in
  let data := body (server W (log h1) rq) in
  status (server W (log h1) rq) = 200 ->
  getitem data "type" = Ret (JStr "playlist") ->
  getitem data "tracks" = Ret ts ->
  getitem ts "next" = Ret next -> truthy next = true ->
  forall (fuel : nat) (r : pyobj),
    fst (_search W fuel query type true h) <> Ret r.
Proof.
  intros Het Hc Hw rq data Hs Hty Hts Hn Ht fuel r.
  rewrite (search_normalizes W fuel query type true h h1 c Het Hc Hs).
  fold rq. fold data.
  unfold normalize, bind, lift. rewrite Hty. simpl. rewrite Hts. simpl.
  rewrite Hn. simpl. rewrite Ht. simpl.
  match goal with
  | |- context [obind (getitem ts "items") ?k] =>
      destruct (obind (getitem ts "items") k) as [items| | |]; simpl;
        try discriminate
  end.
  pose proof (next_pages_endless W c fuel Hw next items
                (set_log (log h1 ++ [rq]) h1)) as N.
  destruct (next_pages W fuel next items (set_log (log h1 ++ [rq]) h1))
    as [[l|e| |] h2]; simpl; try discriminate.
  exfalso. apply (N l); [exact Hc|reflexivity].
Qed.

(* ================================================================== *)
(** ** Further properties: the converter *)

(** X20. [convert] searches with the default type and without
    [return_first]. A catalog response other than a 200 is raised as a
    request error; a 200 that declares a track raises [TypeError], as a
    track cannot be subscripted; a 200 that declares a playlist gives the
    first track built from the items of its first page, and
    [BadArgument] when there is none; a 200 that declares something else
    than a track, an album or a playlist gives [BadArgument]. *)
Theorem convert_outcomes (W : World) (fuel : nat) (argument : string)
  (h h1 : Heap) (c : SpotifyClient) :
  ensure_token W h = (Ret tt, h1) -> spotify h1 = Some c ->
  let rq := mkRequest GET (search_url argument SpotifySearchType.track)
              (bearer_headers c) in
  let resp := server W (log h1) rq in
  let data := body resp in
  let result := fst (SpotifyTrack_convert W fuel argument h) in
  (status resp <> 200 ->
   result = Raise (SpotifyRequestError (status resp) (reason resp))) /\
  (status resp = 200 -> getitem data "type" = Ret (JStr "track") ->
   forall t, SpotifyTrack.__init__ data = Ret t -> result = Raise TypeError) /\
  (status resp = 200 -> getitem data "type" = Ret (JStr "playlist") ->
   forall items tracks,
     (ts <- getitem data "tracks" ;; v <- getitem ts "items" ;; iter v)%outcome
     = Ret items ->
     omap SpotifyTrack.__init__ items = Ret tracks ->
     result = match tracks with
              | [] => Raise BadArgument
              | t :: _ => Ret (OTrack t)
              end) /\
  (status resp = 200 ->
   forall ty, getitem data "type" = Ret ty ->
   eq_str ty "track" = false -> eq_str ty "album" = false ->
   eq_str ty "playlist" = false -> result = Raise BadArgument).
Proof.
  intros Het Hc rq resp data result.
  assert (U : result
              = fst (let (o, h') := _search W fuel argument
                                      SpotifySearchType.track false h in
                     match o with
                     | Ret results =>
                         if falsy results then (Raise BadArgument, h')
                         else (subscript0 results, h')
                     | Raise e => (Raise e, h')
                     | OutOfFuel => (OutOfFuel, h')
                     | IllTyped => (IllTyped, h')
                     end)).
  { unfold result, SpotifyTrack_convert, SpotifyTrack_search. simpl. unfold bind.
    destruct (_search W fuel argument SpotifySearchType.track false h)
      as [[x|e| |] h']; try reflexivity.
    unfold ret. destruct (falsy x); reflexivity. }
  repeat split.
  - intros Hs. rewrite U.
    rewrite (search_after_token W fuel argument _ false h h1 Het).
    pose proof (fetch_cases W c fuel argument SpotifySearchType.track false h1 Hc) as F.
    cbv zeta in F. fold rq in F. fold resp in F.
    destruct (Z.eqb_spec (status resp) 200); [contradiction|].
    rewrite F. reflexivity.
  - intros Hs Hty t Hinit. rewrite U.
    rewrite (search_normalizes W fuel argument _ false h h1 c Het Hc Hs).
    fold rq. fold resp. fold data.
    unfold normalize, bind, lift. rewrite Hty. simpl. rewrite Hinit. reflexivity.
  - intros Hs Hty items tracks Hi Hb. rewrite U.
    rewrite (search_normalizes W fuel argument _ false h h1 c Het Hc Hs).
    fold rq. fold resp. fold data.
    unfold normalize, bind, lift. rewrite Hty. simpl. rewrite Hi. simpl.
    rewrite Hb. simpl. destruct tracks; reflexivity.
  - intros Hs ty Hty Ht Ha Hp. rewrite U.
    rewrite (search_normalizes W fuel argument _ false h h1 c Het Hc Hs).
    fold rq. fold resp. fold data.
    unfold normalize, bind, lift. rewrite Hty. simpl. rewrite Ht, Ha, Hp.
    reflexivity.
Qed.

(* ================================================================== *)
(** ** Further properties: the limit of a stream *)

Section Limit.

Variable W : World.
Variable fuel : nat.


End Limit.




(* ================================================================== *)
(** ** The further properties at work in the example worlds *)

Lemma pull_on_filled_stream_witness :
  let h := ex_heap_filled in
  let run := __anext__ ex_world 0 h in
  log (snd run) = log h /\
  fst run = Ret (ex_track "a") /\
  _queue (stream (snd run)) = [OPayload (ex_track_payload "b")] /\
  __anext__ ex_world 0 (snd (__anext__ ex_world 0 (snd run)))
  = (Raise StopAsyncIteration, snd (__anext__ ex_world 0 (snd run))).
Proof.
  intros h run.
  destruct (pull_on_filled_stream ex_world 0 h eq_refl) as ((L & _) & _ & _).
  destruct (pull_on_filled_stream ex_world 0 (snd run) eq_refl) as (_ & _ & S).
  split; [exact L|]. split; [reflexivity|]. split; [reflexivity|].
  exact (S eq_refl 0%nat).
Defined.

Lemma failed_first_pull_leaves_stream_unfilled_witness :
  let h := ex_heap_track_stream in
  let run := __anext__ ex_world 5 h in
  stream (snd run) = stream h /\ fst run = Raise TypeError.
Proof.
  intros h run.
  assert (N : forall l,
             obind (fst (_search ex_world 5 (_query (stream h)) (_type (stream h))
                           true h)) elements <> Ret l)
    by (intros l; vm_compute; discriminate).
  destruct (failed_first_pull_leaves_stream_unfilled ex_world 5 h eq_refl N)
    as (S & _ & T & _).
  split; [exact S|]. apply T. right. eexists. reflexivity.
Defined.

Lemma fulfill_returns_first_resolved_witness :
  exists rest, resolve ex_self ex_cls_search = Ret (hd ""%string ex_playables :: rest).
Proof.
  apply (fulfill_returns_first_resolved ex_world ex_self ex_cls_search false
           (ex_heap (Some ex_client) None)).
  reflexivity.
Defined.

Lemma failed_recommendations_keep_the_rotation_witness :
  let h := ex_heap (Some ex_client) None in
  let run := SpotifyTrack_fulfill ex_world_limited ex_self ex_cls_search true h in
  _track_seeds (player (snd run)) = ["s2"; "s3"; "s4"; "s5"; "src"]%string /\
  auto_queue (player (snd run)) = [] /\ history (player (snd run)) = [].
Proof.
  intros h run.
  assert (S : status (server ex_world_limited (log h)
                        (recommendations_request ex_client
                           (rotate_seeds (_track_seeds (player h))
                              (SpotifyTrack.id ex_self)))) <> 200)
    by (vm_compute; discriminate).
  destruct (failed_recommendations_keep_the_rotation ex_world_limited ex_self
              ex_cls_search ex_playables ex_client h eq_refl eq_refl eq_refl
              (or_introl S)) as (_ & R & Q & H).
  split; [exact R|]. split; [exact Q|exact H].
Defined.

Lemma seed_window_is_last_five_witness :
  _track_seeds (player (fulfill_each ex_world ex_cls_search
                          [ex_self; ex_track "a"; ex_track "b"]
                          (ex_heap (Some ex_client) None)))
  = ["s4"; "s5"; "src"; "a"; "b"]%string.
Proof.
  apply (seed_window_is_last_five ex_world ex_cls_search
           [ex_self; ex_track "a"; ex_track "b"] ex_client
           (ex_heap (Some ex_client) None) eq_refl eq_refl).
  - simpl. lia.
  - intros self _. eexists. reflexivity.
Defined.

Lemma refused_grant_is_asked_again_witness :
  let h := ex_heap (Some ex_client_new) None in
  let h' := snd (_search ex_world_created 5 ex_playlist_query
                   SpotifySearchType.playlist true h) in
  spotify h' = Some ex_client_new /\
  issued h h' = [grant_request ex_world_created ex_client_new] /\
  exists rest,
    issued h' (snd (_search ex_world_created 5 ex_track_link
                      SpotifySearchType.track false h'))
    = grant_request ex_world_created ex_client_new :: rest.
Proof.
  intros h h'.
  assert (S : status (server ex_world_created (log h)
                        (grant_request ex_world_created ex_client_new)) <> 200)
    by (vm_compute; discriminate).
  destruct (refused_grant_is_asked_again ex_world_created 5 ex_playlist_query
              SpotifySearchType.playlist true h ex_client_new eq_refl eq_refl S)
    as (C & I & A).
  split; [exact C|]. split; [exact I|].
  exact (A 5%nat ex_track_link SpotifySearchType.track false).
Defined.

Lemma short_lived_token_is_never_reused_witness :
  let h := ex_heap (Some ex_client_new) None in
  let h2 := snd (_get_bearer_token ex_world_brief h) in
  exists c' rest,
    spotify h2 = Some c' /\ _bearer_token c' = Some "BQbrief"%string /\
    issued h2 (snd (_search ex_world_brief 5 ex_track_link
                      SpotifySearchType.track false h2))
    = grant_request ex_world_brief c' :: rest.
Proof.
  intros h h2.
  apply (short_lived_token_is_never_reused ex_world_brief 5 ex_track_link
           SpotifySearchType.track false h h2 ex_client_new "BQbrief" 5 eq_refl).
  - unfold grant_declares. repeat split; reflexivity.
  - lia.
  - reflexivity.
  - unfold Qle. simpl. lia.
Defined.

Lemma one_grant_serves_the_next_search_witness :
  let h := ex_heap (Some ex_client_new) None in
  let h1 := snd (_search ex_world 5 ex_playlist_query
                   SpotifySearchType.playlist true h) in
  let h2 := snd (_search ex_world 5 ex_track_link
                   SpotifySearchType.track false h1) in
  spotify h2 = spotify h1 /\
  Forall (fun rq => is_grant rq = false /\
                    rq_headers rq = [("Authorization", "Bearer " ++ "BQnew")]%string)
         (issued h1 h2) /\
  issued h1 h2 <> [].
Proof.
  intros h h1 h2.
  apply (one_grant_serves_the_next_search ex_world 5 5 ex_playlist_query
           ex_track_link SpotifySearchType.playlist SpotifySearchType.track
           true false h ex_client_new "BQnew" 3600 eq_refl (or_introl eq_refl)).
  - unfold grant_declares. repeat split; reflexivity.
  - discriminate.
  - vm_compute. reflexivity.
Defined.

Lemma decoded_link_asks_the_same_url_witness :
  search_url "6BDLcvvtyJD2vnXRDi1IjQ" SpotifySearchType.track = ex_track_url /\
  search_url ex_track_link SpotifySearchType.playlist = ex_track_url.
Proof.
  exact (decoded_link_asks_the_same_url ex_track_link "6BDLcvvtyJD2vnXRDi1IjQ"
           SpotifySearchType.track eq_refl SpotifySearchType.playlist).
Defined.

Lemma links_decode_witness :
  decode_url (link "https://open." ".com/" "playlist" "/"
                "37i9dQZF1DXcBWIGoYBM5M" "?si=abc123")
  = Some (mkIdentifier SpotifySearchType.playlist (Some "37i9dQZF1DXcBWIGoYBM5M"))
  /\
  decode_url (link "" ":" "artist" ":" "37i9dQZF1DXcBWIGoYBM5M" "")
  = Some (mkIdentifier SpotifySearchType.unusable (Some "37i9dQZF1DXcBWIGoYBM5M")).
Proof.
  split.
  - apply (proj1 (links_decode "https://open." ".com/" "/"
                    "37i9dQZF1DXcBWIGoYBM5M" "?si=abc123"
                    SpotifySearchType.playlist
                    (or_introl eq_refl) (or_introl eq_refl) (or_introl eq_refl)
                    ltac:(discriminate) eq_refl eq_refl)).
    discriminate.
  - apply (proj2 (links_decode "" ":" ":" "37i9dQZF1DXcBWIGoYBM5M" ""
                    SpotifySearchType.playlist
                    (or_intror (or_intror (or_introl eq_refl)))
                    (or_intror (or_introl eq_refl))
                    (or_intror (or_introl eq_refl))
                    ltac:(discriminate) eq_refl I)).
Defined.

Lemma playlist_pages_are_fetched_once_each_witness :
  let h := ex_heap (Some ex_client) None in
  let run := _search ex_world 5 ex_playlist_query SpotifySearchType.playlist
               true h in
  fst run = Ret (OPayloads (List.concat ex_pages)) /\
  List.length (issued (set_ticks 1 h) (snd run)) = 3%nat.
Proof.
  intros h run.
  destruct (playlist_pages_are_fetched_once_each ex_world 5 ex_playlist_query
              SpotifySearchType.playlist ex_pages h (set_ticks 1 h) ex_client
              eq_refl eq_refl ex_playlist_served) as (R & L & _).
  - simpl. lia.
  - split; [exact R|exact L].
Defined.

Lemma endless_playlist_never_returns_witness :
  match fst (_search ex_world_endless 40 ex_playlist_query
               SpotifySearchType.playlist true (ex_heap (Some ex_client) None)) with
  | Ret _ => False
  | _ => True
  end.
Proof.
  assert (Hw : forall lg u v,
             getitem (body (server ex_world_endless lg
                              (mkRequest GET u (bearer_headers ex_client)))) "next"
             = Ret v -> truthy v = true).
  { intros lg u v H. simpl in H. injection H as <-. reflexivity. }
  generalize (endless_playlist_never_returns ex_world_endless ex_playlist_query
                SpotifySearchType.playlist (ex_heap (Some ex_client) None)
                (set_ticks 1 (ex_heap (Some ex_client) None)) ex_client
                (JObj [("items", ex_page 0 2); ("next", JStr ex_page2_url)])
                (JStr ex_page2_url)
                eq_refl eq_refl Hw eq_refl eq_refl eq_refl eq_refl eq_refl 40%nat).
  destruct (fst (_search ex_world_endless 40 ex_playlist_query
                   SpotifySearchType.playlist true
                   (ex_heap (Some ex_client) None))) as [r| | |]; intros N.
  - exact (N r eq_refl).
  - exact I.
  - exact I.
  - exact I.
Defined.

Lemma convert_outcomes_witness :
  let h := ex_heap (Some ex_client) None in
  fst (SpotifyTrack_convert ex_world 5 ex_track_link h) = Raise TypeError /\
  fst (SpotifyTrack_convert ex_world 5 "no such thing" h)
  = Raise (SpotifyRequestError 404 (Some "Not Found")).
Proof.
  intros h. split.
  - exact (proj1 (proj2 (convert_outcomes ex_world 5 ex_track_link h
                           (set_ticks 1 h) ex_client eq_refl eq_refl))
             eq_refl eq_refl (ex_track "6BDLcvvtyJD2vnXRDi1IjQ") eq_refl).
  - apply (proj1 (convert_outcomes ex_world 5 "no such thing" h
                    (set_ticks 1 h) ex_client eq_refl eq_refl)).
    vm_compute. discriminate.
Defined.


